(** * Ochamon asset generators: gradient images and specification sheets

    A shallow embedding of [setup-assets/scripts/generate_images.py] and
    [setup-assets/scripts/generate_pdfs.py], and the properties their
    specification states about them.

    Layout of the development:
    - [Binary64]: Python's [float] arithmetic (IEEE-754 binary64, round to
      nearest, ties to even) on the rational values the floats denote;
    - [Py]: the exceptions and the few built-ins the scripts use, with
      the paths and the file system ([os.path.join], [os.makedirs],
      opening a file for writing);
    - [Pillow]: images as the scripts drive them through PIL; a drawing
      call is checked as Pillow checks it and recorded, and what it makes
      of the pixels is left to a [Rasteriser];
    - [GenerateImages], [GeneratePdfs]: the two scripts, a call returning
      a value or raising; the fonts, the font metrics, the rasteriser and
      the seeded random stream are the fields of an [Env], the markup
      parser and the layout of ReportLab the fields of a [ReportLab];
    - the vocabulary the statements are written in;
    - the properties: rounding, rasters, the gradient and its boundary,
      the composer, the two drivers, the specification sheet. *)

From Stdlib Require Import ZArith QArith Qround Qabs Qpower Qreduction Lia Lqa.
From Stdlib Require Import Ascii String.
From Stdlib Require Import Uint63 PrimFloat SpecFloat FloatOps.
From stdpp Require Import base option list strings gmap pretty.

Local Open Scope Z_scope.

(* ===================================================================== *)
(** * Binary64 arithmetic *)
(* ===================================================================== *)

(** A finite Python [float] is the rational number it denotes. Every
    operation computes the exact rational result and rounds it to the
    nearest binary64 value, ties to even: 53 significant bits, and the
    subnormal spacing [2^-1074] below [2^-1022]. Infinities and NaN are
    outside the model; the scripts only ever combine colour channels,
    pixel coordinates and ratios in [0, 1]. *)
Module Binary64.

Definition float := Q.

(** Largest [k] with [2^k <= q], for [q > 0]. *)
Definition ilog2 (q : Q) : Z :=
  let k := Z.log2 (Qnum q) - Z.log2 (Zpos (Qden q)) in
  if Qle_bool (2 ^ k) q then k else k - 1.

(** Nearest integer, ties to the even one. *)
Definition round_half_even (q : Q) : Z :=
  let f := Qfloor q in
  match Qcompare (q - inject_Z f) (1 # 2) with
  | Lt => f
  | Gt => f + 1
  | Eq => if Z.even f then f else f + 1
  end.

(** Exponent of the unit in the last place of the binade of [q]. *)
Definition ulp_exp (q : Q) : Z := Z.max (ilog2 (Qabs q) - 52) (-1074).

(** Rounding of an exact result to binary64. The argument is reduced
    first, so that the result depends on the rational only. *)
Definition rnd (x : Q) : float :=
  let q := Qred x in
  if Qnum q =? 0 then 0%Q
  else
    let e := ulp_exp q in
    (inject_Z (round_half_even (q / 2 ^ e)) * 2 ^ e)%Q.

(** [float(n)] for a Python int. *)
Definition of_int (n : Z) : float := rnd (inject_Z n).
(** A decimal literal such as [0.1]. *)
Definition literal (q : Q) : float := rnd q.

Definition add (x y : float) : float := rnd (x + y).
Definition sub (x y : float) : float := rnd (x - y).
Definition mul (x y : float) : float := rnd (x * y).
Definition div (x y : float) : float := rnd (x / y).

(** [a / b] on two Python ints: the correctly rounded quotient. *)
Definition int_truediv (a b : Z) : float := rnd (inject_Z a / inject_Z b).

(** [int(x)]: truncation towards zero. *)
Definition to_int (x : float) : Z :=
  if Qle_bool 0 x then Qfloor x else Qceiling x.

(** [math.floor(x)], [math.ceil(x)], [abs(x)]. *)
Definition floor (x : float) : Z := Qfloor x.
Definition ceil (x : float) : Z := Qceiling x.
Definition fabs (x : float) : float := Qabs x.

Definition leb (x y : float) : bool := Qle_bool x y.
Definition ltb (x y : float) : bool := negb (Qle_bool y x).

End Binary64.

(* ===================================================================== *)
(** * Python: exceptions and built-ins *)
(* ===================================================================== *)

Module Py.

Inductive exn : Type :=
| ValueError
| KeyError
| OSError
| FileNotFoundError
| NotADirectoryError
| IsADirectoryError
| FileExistsError
| OtherError (name : string).

(** The outcome of a call: a value, or a raised exception. *)
Inductive result (A : Type) : Type :=
| Ok (a : A)
| Raise (e : exn).
Global Arguments Ok {A} a.
Global Arguments Raise {A} e.

Global Instance result_ret : MRet result := fun A a => Ok a.
Global Instance result_bind : MBind result := fun A B f r =>
  match r with
  | Ok a => f a
  | Raise e => Raise e
  end.

(** [try: body  except: handler] with a bare [except]. *)
Definition try_except {A} (body : result A) (handler : A) : A :=
  match body with
  | Ok a => a
  | Raise _ => handler
  end.

(** [for a in l: body], on a state [s], left at the first exception. *)
Fixpoint for_each {A S} (body : S -> A -> result S) (s : S) (l : list A)
    : result S :=
  match l with
  | [] => mret s
  | a :: l => s ← body s a; for_each body s l
  end.

(** [range(n)]. *)
Definition range (n : Z) : list Z := seqZ 0 n.

(** [d[k]] and [d.get(k, default)] on a dict with string keys. *)
Definition getitem {V} (d : gmap string V) (k : string) : result V :=
  match d !! k with
  | Some v => Ok v
  | None => Raise KeyError
  end.
Definition get {V} (d : gmap string V) (k : string) (default : V) : V :=
  match d !! k with
  | Some v => v
  | None => default
  end.

(** [sep.join(parts)]. *)
Definition join (sep : string) (parts : list string) : string :=
  String.concat sep parts.

(** [os.path.join(a, b)] on POSIX paths. *)
Definition starts_with_slash (s : string) : bool :=
  match s with
  | String c _ => Ascii.eqb c "/"%char
  | EmptyString => false
  end.
Fixpoint ends_with_slash (s : string) : bool :=
  match s with
  | EmptyString => false
  | String c EmptyString => Ascii.eqb c "/"%char
  | String _ rest => ends_with_slash rest
  end.
Definition path_join (a b : string) : string :=
  if starts_with_slash b then b
  else if String.eqb a "" || ends_with_slash a then a +:+ b
  else a +:+ "/" +:+ b.

(** [os.path.dirname(p)]: the head of [p] up to its last slash, without
    the slashes that end it unless it is made of slashes only. *)
Fixpoint has_slash (s : string) : bool :=
  match s with
  | EmptyString => false
  | String c rest => Ascii.eqb c "/"%char || has_slash rest
  end.
Fixpoint all_slashes (s : string) : bool :=
  match s with
  | EmptyString => true
  | String c rest => Ascii.eqb c "/"%char && all_slashes rest
  end.
Fixpoint rstrip_slashes (s : string) : string :=
  match s with
  | EmptyString => EmptyString
  | String c rest =>
      if all_slashes (String c rest) then EmptyString
      else String c (rstrip_slashes rest)
  end.
(** [(p[:i], p[i:])] for [i = p.rfind("/") + 1]. *)
Fixpoint cut (p : string) : string * string :=
  match p with
  | EmptyString => (EmptyString, EmptyString)
  | String c rest =>
      if has_slash rest then (String c (cut rest).1, (cut rest).2)
      else if Ascii.eqb c "/"%char then (String c EmptyString, rest)
      else (EmptyString, String c rest)
  end.
Definition dirname (p : string) : string :=
  let head := (cut p).1 in
  if all_slashes head then head else rstrip_slashes head.

(** The directories [os.makedirs(path)] makes sure of: every ancestor of
    [path] below the root, outermost first, then [path] itself. *)
Fixpoint lineage (fuel : nat) (path : string) : list string :=
  match fuel with
  | O => []
  | S fuel =>
      if all_slashes path then []
      else lineage fuel (dirname path) ++ [path]
  end.
Definition ancestry (path : string) : list string :=
  lineage (String.length path) path.

(** The file system as the scripts meet it: the set [dirs] of the
    directories and the set [names] of the regular files, by path. The
    root and the current directory always exist.

    [os.makedirs(path, exist_ok=True)] creates [path] and its missing
    ancestors; it fails when [path] or an ancestor is a regular file. *)
Definition mkdirs (path : string) (dirs names : gset string)
    : result (gset string) :=
  if bool_decide (path ∈ names) then Raise FileExistsError
  else if existsb (fun d => bool_decide (d ∈ names)) (ancestry path)
  then Raise NotADirectoryError
  else Ok (list_to_set (ancestry path) ∪ dirs).

(** [open(path, "wb")]: the file is created or truncated, in a directory
    that must exist. *)
Definition create (path : string) (dirs names : gset string) : result unit :=
  if bool_decide (path ∈ dirs) then Raise IsADirectoryError
  else
    let parent := dirname path in
    if all_slashes parent || bool_decide (parent ∈ dirs) then Ok tt
    else if bool_decide (parent ∈ names) then Raise NotADirectoryError
    else Raise FileNotFoundError.

End Py.

Import Py.

(* ===================================================================== *)
(** * Pillow: images, drawing, fonts *)
(* ===================================================================== *)

Module Pillow.

Definition RGB : Type := Z * Z * Z.

Inductive Font : Type :=
| TrueTypeFont (path : string) (size : Z)
| DefaultFont.

(** Shape, text and resampling calls, which Pillow rasterises itself.
    Coordinates reach Pillow as numbers, int or float: they are kept as
    the rationals they denote. *)
Inductive DrawOp : Type :=
| Ellipse (x0 y0 x1 y1 : Q) (fill : RGB)
| Line (x0 y0 x1 y1 : Q) (fill : RGB) (width : Z)
| Text (x y : Z) (text : string) (font : Font) (fill : RGB) (alpha : option Z)
| Rectangle (x0 y0 x1 y1 : Z) (outline : RGB) (width : Z)
| Resize (width height : Z).

(** An image: its size, its pixels (a list of rows, as Pillow stores
    them), and the record of the shape, text and resampling calls made
    on it, oldest first. *)
Record Image : Type := {
  im_width : Z;
  im_height : Z;
  im_px : list (list RGB);
  im_ops : list DrawOp
}.

(** [Image.new("RGB", (width, height))]: a black image. *)
Definition new (width height : Z) : result Image :=
  if (width <? 0) || (height <? 0) then Raise ValueError
  else Ok {| im_width := width;
             im_height := height;
             im_px := replicate (Z.to_nat height)
                        (replicate (Z.to_nat width) (0, 0, 0));
             im_ops := [] |}.

(** Pillow stores an ink channel in a byte and saturates it. *)
Definition clip8 (v : Z) : Z := Z.max 0 (Z.min 255 v).
Definition ink (c : RGB) : RGB :=
  let '(r, g, b) := c in (clip8 r, clip8 g, clip8 b).

(** [draw.point((x, y), fill=fill)]; a point outside the image is
    dropped. *)
Definition point (im : Image) (x y : Z) (fill : RGB) : Image :=
  if (0 <=? x) && (x <? im_width im) && (0 <=? y) && (y <? im_height im)
  then {| im_width := im_width im;
          im_height := im_height im;
          im_px := alter (fun row => <[Z.to_nat x := ink fill]> row)
                     (Z.to_nat y) (im_px im);
          im_ops := im_ops im |}
  else im.

(** [image.getpixel((x, y))]. *)
Definition getpixel (im : Image) (x y : Z) : option RGB :=
  if (0 <=? x) && (0 <=? y)
  then row ← im_px im !! Z.to_nat y; row !! Z.to_nat x
  else None.

(** What a shape, a text or a resampling makes of the pixels is the
    work of Pillow's rasteriser: a function of the call and of the
    pixels, about which the scripts assume nothing more. *)
Definition Rasteriser : Type := DrawOp -> list (list RGB) -> list (list RGB).

(** [ImageDraw] refuses the box of an ellipse or a rectangle whose second
    corner lies before the first: "x1 must be greater than or equal to
    x0", and the same for y. *)
Definition inverted (op : DrawOp) : bool :=
  match op with
  | Ellipse x0 y0 x1 y1 _ => negb (Qle_bool x0 x1) || negb (Qle_bool y0 y1)
  | Rectangle x0 y0 x1 y1 _ _ => (x1 <? x0) || (y1 <? y0)
  | _ => false
  end.

(** [draw.ellipse], [draw.line], [draw.text], [draw.rectangle]: the
    call is checked, rasterised into the pixels, and recorded. *)
Definition draw (paint : Rasteriser) (im : Image) (op : DrawOp)
    : result Image :=
  if inverted op then Raise ValueError
  else Ok {| im_width := im_width im;
             im_height := im_height im;
             im_px := paint op (im_px im);
             im_ops := im_ops im ++ [op] |}.

(** [image.copy()]: a fresh image with the same content. *)
Definition copy (im : Image) : Image := im.

(** [Image.thumbnail(size)]: the size Pillow picks, then the in-place
    resize. The image is left alone when it already fits. *)
Definition round_aspect (number : Binary64.float) (key : Z -> Binary64.float) : Z :=
  let lo := Binary64.floor number in
  let hi := Binary64.ceil number in
  Z.max (if Binary64.leb (key lo) (key hi) then lo else hi) 1.

Definition thumbnail_size (width height x y : Z) : option (Z * Z) :=
  if (width <=? x) && (height <=? y) then None
  else
    let aspect := Binary64.int_truediv width height in
    if Binary64.leb aspect (Binary64.int_truediv x y)
    then Some (round_aspect (Binary64.mul (Binary64.of_int y) aspect)
                 (fun n => Binary64.fabs
                    (Binary64.sub aspect (Binary64.int_truediv n y))), y)
    else Some (x, round_aspect (Binary64.div (Binary64.of_int x) aspect)
                 (fun n => if n =? 0 then 0%Q else
                    Binary64.fabs
                      (Binary64.sub aspect (Binary64.int_truediv x n)))).

Definition thumbnail (paint : Rasteriser) (im : Image) (size : Z * Z) : Image :=
  match thumbnail_size (im_width im) (im_height im) size.1 size.2 with
  | None => im
  | Some (x, y) =>
      if (x =? im_width im) && (y =? im_height im) then im
      else {| im_width := x;
              im_height := y;
              im_px := paint (Resize x y) (im_px im);
              im_ops := im_ops im ++ [Resize x y] |}
  end.

(** What [image.save(path, format, quality=q)] leaves on disk. *)
Record File : Type := {
  file_format : string;
  file_quality : Z;
  file_image : Image
}.

End Pillow.

Import Pillow.

(* ===================================================================== *)
(** * generate_images.py *)
(* ===================================================================== *)

Module GenerateImages.

Definition OUTPUT_DIR : string := "/home/claude/matcha-setup/images".

Record Product : Type := {
  slug : string;
  name : string;
  grade : string
}.

Definition PRODUCTS : list Product := [
  {| slug := "premium-ceremonial-uji"; name := "Premium Ceremonial Uji"; grade := "Ceremonial" |};
  {| slug := "organic-culinary-nishio"; name := "Organic Culinary Nishio"; grade := "Culinary" |};
  {| slug := "classic-usucha-blend"; name := "Classic Usucha Blend"; grade := "Premium" |};
  {| slug := "first-harvest-shincha"; name := "First Harvest Shincha"; grade := "Ceremonial" |};
  {| slug := "daily-matcha-kagoshima"; name := "Daily Matcha Kagoshima"; grade := "Culinary" |};
  {| slug := "competition-grade-uji"; name := "Competition Grade Uji"; grade := "Competition" |};
  {| slug := "organic-ceremonial-kyoto"; name := "Organic Ceremonial Kyoto"; grade := "Ceremonial" |};
  {| slug := "cafe-blend-matcha"; name := "Cafe Blend Matcha"; grade := "Culinary" |}
].

Record Palette : Type := {
  primary : RGB;
  secondary : RGB;
  accent : RGB
}.

Definition GRADE_COLORS : gmap string Palette :=
  <["Ceremonial" := {| primary := (76, 140, 74);
                       secondary := (144, 190, 109);
                       accent := (45, 90, 39) |}]>
  (<["Premium" := {| primary := (85, 150, 80);
                     secondary := (160, 200, 120);
                     accent := (50, 100, 45) |}]>
  (<["Culinary" := {| primary := (100, 160, 90);
                      secondary := (170, 210, 130);
                      accent := (60, 110, 50) |}]>
  (<["Competition" := {| primary := (60, 120, 60);
                         secondary := (130, 180, 100);
                         accent := (35, 80, 30) |}]> ∅))).

(** The interpolation parameter of pixel [(x, y)]. *)
Definition gradient_ratio (direction : string) (width height x y : Z)
  : Binary64.float :=
  if String.eqb direction "diagonal"
  then Binary64.int_truediv (x + y) (width + height)
  else if String.eqb direction "vertical"
  then Binary64.int_truediv y height
  else Binary64.int_truediv x width.

(** [int(c1 * (1 - ratio) + c2 * ratio)] on one channel. *)
Definition blend_channel (c1 c2 : Z) (ratio : Binary64.float) : Z :=
  Binary64.to_int
    (Binary64.add
       (Binary64.mul (Binary64.of_int c1)
          (Binary64.sub (Binary64.of_int 1) ratio))
       (Binary64.mul (Binary64.of_int c2) ratio)).

Definition create_gradient (width height : Z) (color1 color2 : RGB)
    (direction : string) : result Image :=
  image ← Pillow.new width height;
  mret (foldl (fun image y =>
          foldl (fun image x =>
            let ratio := gradient_ratio direction width height x y in
            let r := blend_channel color1.1.1 color2.1.1 ratio in
            let g := blend_channel color1.1.2 color2.1.2 ratio in
            let b := blend_channel color1.2 color2.2 ratio in
            point image x y (r, g, b))
          image (range width))
        image (range height)).

(** ** The world outside the script

    What the script obtains from its environment: the fonts installed
    on the machine, Pillow's text metrics and rasteriser, and the stream
    of numbers that [random] yields after [random.seed(42)] (with the
    cosine and sine that [math] returns for each angle drawn). *)
Record Sample : Type := {
  sample_cos : Binary64.float;   (* math.cos(angle) *)
  sample_sin : Binary64.float;   (* math.sin(angle) *)
  sample_unit : Binary64.float;  (* the random() behind uniform(0, b) *)
  sample_size : Z;               (* random.randint(2, 5) *)
  sample_coin : Binary64.float;  (* random.random() *)
  sample_size_range : 2 <= sample_size <= 5
}.

Record Env : Type := {
  truetype : string -> Z -> result Font;
  textbbox : Font -> string -> Z * Z * Z * Z;
  rasterise : Rasteriser;
  seeded_42 : nat -> Sample
}.

Definition load_default : Font := DefaultFont.

Definition map_rgb (f : Z -> Z) (c : RGB) : RGB :=
  let '(r, g, b) := c in (f r, f g, f b).

Section WithEnv.
Context (env : Env).

Definition draw_matcha_powder_circle (image : Image)
    (center_x center_y radius : Z) (color : RGB) : result Image :=
  image ←
    draw (rasterise env) image
      (Ellipse (inject_Z (center_x - radius))
               (inject_Z (center_y - radius))
               (inject_Z (center_x + radius))
               (inject_Z (center_y + radius)) color);
  let lighter := map_rgb (fun c => Z.min 255 (c + 30)) color in
  let darker := map_rgb (fun c => Z.max 0 (c - 20)) color in
  for_each (fun image i =>
      let s := seeded_42 env i in
      let dist :=
        Binary64.mul
          (Binary64.mul (Binary64.of_int radius) (Binary64.literal (8 # 10)))
          (sample_unit s) in
      let x := Binary64.add (Binary64.of_int center_x)
                 (Binary64.mul dist (sample_cos s)) in
      let y := Binary64.add (Binary64.of_int center_y)
                 (Binary64.mul dist (sample_sin s)) in
      let size := Binary64.of_int (sample_size s) in
      let dot_color :=
        if Binary64.ltb (Binary64.literal (5 # 10)) (sample_coin s)
        then lighter else darker in
      draw (rasterise env) image
        (Ellipse (Binary64.sub x size) (Binary64.sub y size)
                 (Binary64.add x size) (Binary64.add y size)
                 dot_color))
    image (seq 0 50).

Definition draw_tea_leaves (image : Image) (x y : Binary64.float)
    (size : Z) (color : RGB) : result Image :=
  let leaf_color := map_rgb (fun c => Z.max 0 (c - 30)) color in
  image ←
    draw (rasterise env) image
      (Ellipse x y
               (Binary64.add x (Binary64.of_int (size * 2)))
               (Binary64.add y (Binary64.of_int size))
               leaf_color);
  draw (rasterise env) image
    (Line (Binary64.add x (Binary64.of_int size))
          (Binary64.add y (Binary64.of_int (size / 2)))
          (Binary64.add x (Binary64.of_int size))
          (Binary64.add (Binary64.add y (Binary64.of_int size))
                        (Binary64.of_int 10))
          leaf_color 2).

(** [GRADE_COLORS.get(grade, GRADE_COLORS["Premium"])]: the default is
    looked up before [get] is called. *)
Definition palette_for (grade : string) : result Palette :=
  default ← getitem GRADE_COLORS "Premium";
  mret (get GRADE_COLORS grade default).

(** The preferred bold/regular pair, or the built-in font for both. *)
Definition load_fonts : Font * Font :=
  try_except
    (font_large ← truetype env "/usr/share/fonts/truetype/dejavu/DejaVuSans-Bold.ttf" 36;
     font_small ← truetype env "/usr/share/fonts/truetype/dejavu/DejaVuSans.ttf" 24;
     mret (font_large, font_small))
    (load_default, load_default).

Definition scale (n : Z) (factor : Q) : Binary64.float :=
  Binary64.mul (Binary64.of_int n) (Binary64.literal factor).

(** Everything [generate_product_image] does once the palette is
    chosen. *)
Definition compose (product : Product) (width height : Z)
    (colors : Palette) : result Image :=
  image ← create_gradient width height (secondary colors) (primary colors)
            "diagonal";
  let center_x := width / 2 in
  let center_y := height / 2 - 50 in
  let powder_radius := Z.min width height / 4 in
  image ← draw_matcha_powder_circle image center_x center_y
            powder_radius (accent colors);
  image ← draw_tea_leaves image (scale width (1 # 10))
            (scale height (1 # 10)) 30 (primary colors);
  image ← draw_tea_leaves image (scale width (8 # 10))
            (scale height (15 # 100)) 25 (primary colors);
  image ← draw_tea_leaves image (scale width (15 # 100))
            (scale height (8 # 10)) 20 (primary colors);
  image ← draw_tea_leaves image (scale width (75 # 100))
            (scale height (85 # 100)) 28 (primary colors);
  let '(font_large, font_small) := load_fonts in
  let name := name product in
  let '(b0, _, b2, _) := textbbox env font_large name in
  let text_width := b2 - b0 in
  let text_x := (width - text_width) / 2 in
  let text_y := height - 150 in
  image ← draw (rasterise env) image
            (Text (text_x + 2) (text_y + 2) name font_large
               (0, 0, 0) (Some 128));
  image ← draw (rasterise env) image
            (Text text_x text_y name font_large (255, 255, 255) None);
  let grade_text := "Grade: " +:+ grade product in
  let '(g0, _, g2, _) := textbbox env font_small grade_text in
  let grade_width := g2 - g0 in
  let grade_x := (width - grade_width) / 2 in
  image ← draw (rasterise env) image
            (Text grade_x (text_y + 50) grade_text font_small
               (255, 255, 255) (Some 200));
  let border_color := accent colors in
  draw (rasterise env) image
    (Rectangle 0 0 (width - 1) (height - 1) border_color 3).

Definition generate_product_image (product : Product) (size : Z * Z)
    : result Image :=
  let '(width, height) := size in
  colors ← palette_for (grade product);
  compose product width height colors.

(** ** The batch driver *)

Record World : Type := {
  dirs : gset string;
  files : gmap string File;
  stdout : list string
}.

Definition makedirs (path : string) (w : World) : result World :=
  dirs' ← mkdirs path (dirs w) (dom (files w));
  mret {| dirs := dirs'; files := files w; stdout := stdout w |}.
Definition print (line : string) (w : World) : World :=
  {| dirs := dirs w; files := files w; stdout := stdout w ++ [line] |}.
Definition save (image : Image) (path format : string) (quality : Z)
    (w : World) : result World :=
  _ ← create path (dirs w) (dom (files w));
  mret {| dirs := dirs w;
          files := <[path := {| file_format := format;
                                file_quality := quality;
                                file_image := image |}]> (files w);
          stdout := stdout w |}.

(** The body of the loop over the catalog. *)
Definition process (w : World) (product : Product) : result World :=
  image ← generate_product_image product (800, 800);
  let filename := slug product +:+ ".jpg" in
  let filepath := path_join OUTPUT_DIR filename in
  w ← save image filepath "JPEG" 90 w;
  let w := print ("  ✓ Created: " +:+ filename) w in
  let thumbnail := thumbnail (rasterise env) (copy image) (400, 400) in
  let thumb_filename := slug product +:+ "-thumb.jpg" in
  let thumb_filepath := path_join OUTPUT_DIR thumb_filename in
  w ← save thumbnail thumb_filepath "JPEG" 85 w;
  mret (print ("  ✓ Created: " +:+ thumb_filename) w).

Definition newline : string := String (ascii_of_nat 10) "".

(** [main], for the catalog held by the global [PRODUCTS]. *)
Definition main_for (catalog : list Product) (w : World) : result World :=
  w ← makedirs OUTPUT_DIR w;
  let w := print "Generating product images..." w in
  w ← for_each process w catalog;
  placeholder ← create_gradient 800 800 (200, 200, 200) (150, 150, 150)
                  "diagonal";
  let font :=
    try_except
      (truetype env "/usr/share/fonts/truetype/dejavu/DejaVuSans.ttf" 48)
      load_default in
  let text := "Image Coming Soon" in
  let '(b0, _, b2, _) := textbbox env font text in
  let text_width := b2 - b0 in
  placeholder ←
    draw (rasterise env) placeholder
      (Text ((800 - text_width) / 2) 380 text font (100, 100, 100) None);
  w ← save placeholder (path_join OUTPUT_DIR "placeholder.jpg") "JPEG" 85 w;
  let w := print "  ✓ Created: placeholder.jpg" w in
  mret (print (newline +:+ "✅ Generated "
               +:+ pretty (Z.of_nat (length catalog) * 2 + 1)
               +:+ " images in " +:+ OUTPUT_DIR) w).

Definition main : World -> result World := main_for PRODUCTS.

End WithEnv.

End GenerateImages.

Import GenerateImages.

(* ===================================================================== *)
(** * generate_pdfs.py *)
(* ===================================================================== *)

Module GeneratePdfs.

Definition OUTPUT_DIR : string := "/home/claude/matcha-setup/docs".

Record Product : Type := {
  slug : string;
  name : string;
  grade : string;
  region : string;
  origin : string;
  harvest : string;
  cultivation : string;
  processing : string;
  mesh : string;
  color : string;
  flavor : string;
  aroma : string;
  caffeine : string;
  l_theanine : string;
  catechins : string;
  shelf_life : string;
  storage : string;
  certifications : list string;
  uses : list string;
  moq : string;
  lead_time : string;
  price_range : string
}.

Definition PRODUCTS : list Product := [
  {| slug := "premium-ceremonial-uji";
     name := "Premium Ceremonial Uji";
     grade := "Ceremonial";
     region := "Uji, Kyoto";
     origin := "Japan";
     harvest := "First Harvest (Ichibancha)";
     cultivation := "Shade-grown (20+ days)";
     processing := "Stone-ground";
     mesh := "1000+ mesh";
     color := "Vibrant green";
     flavor := "Rich umami, subtle sweetness, no bitterness";
     aroma := "Fresh, grassy, vegetal";
     caffeine := "~34mg per gram";
     l_theanine := "~20mg per gram";
     catechins := "~100mg per gram";
     shelf_life := "12 months (unopened), 1 month (opened)";
     storage := "Cool, dry place away from light. Refrigerate after opening.";
     certifications := ["JAS Organic"; "USDA Organic"; "EU Organic"];
     uses := ["Traditional tea ceremony"; "Usucha preparation"; "Premium beverages"];
     moq := "5 kg";
     lead_time := "14 days";
     price_range := "$80-120 per kg" |};
  {| slug := "organic-culinary-nishio";
     name := "Organic Culinary Nishio";
     grade := "Culinary";
     region := "Nishio, Aichi";
     origin := "Japan";
     harvest := "Second/Third Harvest";
     cultivation := "Shade-grown (14 days)";
     processing := "Stone-ground";
     mesh := "800 mesh";
     color := "Yellow-green";
     flavor := "Strong, slightly bitter, robust";
     aroma := "Earthy, vegetal";
     caffeine := "~32mg per gram";
     l_theanine := "~14mg per gram";
     catechins := "~120mg per gram";
     shelf_life := "18 months (unopened), 2 months (opened)";
     storage := "Cool, dry place away from light.";
     certifications := ["JAS Organic"; "USDA Organic"];
     uses := ["Baking"; "Smoothies"; "Lattes"; "Ice cream"; "Cooking"];
     moq := "10 kg";
     lead_time := "10 days";
     price_range := "$25-45 per kg" |};
  {| slug := "classic-usucha-blend";
     name := "Classic Usucha Blend";
     grade := "Premium";
     region := "Uji, Kyoto";
     origin := "Japan";
     harvest := "First Harvest (Ichibancha)";
     cultivation := "Shade-grown (18 days)";
     processing := "Stone-ground";
     mesh := "900 mesh";
     color := "Bright green";
     flavor := "Balanced umami and sweetness";
     aroma := "Fresh, slightly sweet";
     caffeine := "~33mg per gram";
     l_theanine := "~18mg per gram";
     catechins := "~105mg per gram";
     shelf_life := "12 months (unopened), 1 month (opened)";
     storage := "Cool, dry place away from light. Refrigerate after opening.";
     certifications := ["JAS Organic"];
     uses := ["Daily usucha"; "Premium lattes"; "Desserts"];
     moq := "5 kg";
     lead_time := "12 days";
     price_range := "$50-70 per kg" |};
  {| slug := "first-harvest-shincha";
     name := "First Harvest Shincha";
     grade := "Ceremonial";
     region := "Shizuoka";
     origin := "Japan";
     harvest := "First Harvest (Ichibancha) - Spring";
     cultivation := "Shade-grown (21 days)";
     processing := "Stone-ground, fresh processed";
     mesh := "1000+ mesh";
     color := "Brilliant emerald green";
     flavor := "Exceptionally sweet, deep umami";
     aroma := "Fresh spring grass, floral notes";
     caffeine := "~35mg per gram";
     l_theanine := "~22mg per gram";
     catechins := "~95mg per gram";
     shelf_life := "6 months (unopened), 2 weeks (opened)";
     storage := "Refrigerate immediately. Consume quickly for best flavor.";
     certifications := ["JAS Organic"; "Single Origin"];
     uses := ["Tea ceremony"; "Special occasions"; "Koicha preparation"];
     moq := "2 kg";
     lead_time := "7 days (seasonal availability)";
     price_range := "$120-180 per kg" |};
  {| slug := "daily-matcha-kagoshima";
     name := "Daily Matcha Kagoshima";
     grade := "Culinary";
     region := "Kagoshima";
     origin := "Japan";
     harvest := "Second Harvest";
     cultivation := "Partial shade (10 days)";
     processing := "Stone-ground";
     mesh := "600 mesh";
     color := "Green with yellow tones";
     flavor := "Mild, slightly astringent";
     aroma := "Light, grassy";
     caffeine := "~30mg per gram";
     l_theanine := "~12mg per gram";
     catechins := "~130mg per gram";
     shelf_life := "24 months (unopened), 3 months (opened)";
     storage := "Cool, dry place.";
     certifications := [];
     uses := ["Daily beverages"; "Commercial food production"; "Bulk cooking"];
     moq := "25 kg";
     lead_time := "7 days";
     price_range := "$15-25 per kg" |};
  {| slug := "competition-grade-uji";
     name := "Competition Grade Uji";
     grade := "Competition";
     region := "Uji, Kyoto";
     origin := "Japan";
     harvest := "First Harvest, Hand-picked";
     cultivation := "Traditional shade-grown (25+ days)";
     processing := "Hand-picked, stone-ground by master";
     mesh := "1200+ mesh (ultra-fine)";
     color := "Deep vibrant jade green";
     flavor := "Complex umami, natural sweetness, zero bitterness";
     aroma := "Intensely fresh, complex vegetal notes";
     caffeine := "~36mg per gram";
     l_theanine := "~25mg per gram";
     catechins := "~90mg per gram";
     shelf_life := "6 months (unopened), 2 weeks (opened)";
     storage := "Refrigerate. Use nitrogen-flushed container.";
     certifications := ["JAS Organic"; "Award Winner"; "Single Estate"];
     uses := ["Competition"; "Tea ceremony masters"; "Ultra-premium service"];
     moq := "1 kg";
     lead_time := "21 days (limited availability)";
     price_range := "$200-400 per kg" |};
  {| slug := "organic-ceremonial-kyoto";
     name := "Organic Ceremonial Kyoto";
     grade := "Ceremonial";
     region := "Kyoto";
     origin := "Japan";
     harvest := "First Harvest (Ichibancha)";
     cultivation := "Organic shade-grown (20 days)";
     processing := "Stone-ground";
     mesh := "1000 mesh";
     color := "Vivid green";
     flavor := "Smooth umami, gentle sweetness";
     aroma := "Clean, fresh, slightly marine";
     caffeine := "~34mg per gram";
     l_theanine := "~19mg per gram";
     catechins := "~98mg per gram";
     shelf_life := "12 months (unopened), 1 month (opened)";
     storage := "Cool, dry place away from light. Refrigerate after opening.";
     certifications := ["JAS Organic"; "USDA Organic"; "EU Organic"; "Kosher"];
     uses := ["Tea ceremony"; "Premium beverages"; "Health-conscious consumers"];
     moq := "5 kg";
     lead_time := "14 days";
     price_range := "$90-130 per kg" |};
  {| slug := "cafe-blend-matcha";
     name := "Cafe Blend Matcha";
     grade := "Culinary";
     region := "Nishio, Aichi";
     origin := "Japan";
     harvest := "Blended harvests";
     cultivation := "Mixed cultivation";
     processing := "Stone-ground, blended for consistency";
     mesh := "700 mesh";
     color := "Consistent green";
     flavor := "Bold, stands up to milk and sweeteners";
     aroma := "Robust, earthy";
     caffeine := "~31mg per gram";
     l_theanine := "~13mg per gram";
     catechins := "~115mg per gram";
     shelf_life := "18 months (unopened), 3 months (opened)";
     storage := "Cool, dry place.";
     certifications := ["Food Service Grade"];
     uses := ["Cafe lattes"; "Smoothies"; "Commercial beverages"; "Desserts"];
     moq := "20 kg";
     lead_time := "7 days";
     price_range := "$20-35 per kg" |}
].

(** ** ReportLab blocks

    A story is the list of blocks handed to [doc.build]. The attributes
    of the paragraph and table styles (fonts, colours, paddings) only
    steer how ReportLab paints a block; a block records the style by
    name. *)
Inductive Style : Type :=
| ProductTitle | SectionHeader | GradeLabel | SpecBodyText | SpecSmallText
| Logo | Subtitle.

Inductive Cell : Type :=
| CellText (text : string)
| CellParagraph (text : string) (style : Style).

Inductive Flowable : Type :=
| Paragraph (text : string) (style : Style)
| Spacer (width height : Binary64.float)
| Table (data : list (list Cell)) (colWidths : list Binary64.float).

(** [reportlab.lib.units.inch] is [72.0]. *)
Definition inch : Binary64.float := Binary64.literal 72.
Definition inches (q : Q) : Binary64.float :=
  Binary64.mul (Binary64.literal q) inch.

(** The separator between the entries of a list-valued attribute, and
    the mark in front of the certifications, as the script spells them. *)
Definition BULLET : string := " ‚Ä¢ ".
Definition TICK : string := "‚úì ".

(** The texts a story hands to [Paragraph(...)]: those of its
    paragraphs and of the paragraphs in its table cells. A cell that
    holds a plain string is not parsed. *)
Definition cell_markup (cell : Cell) : list string :=
  match cell with
  | CellParagraph text _ => [text]
  | CellText _ => []
  end.
Definition block_markup (block : Flowable) : list string :=
  match block with
  | Paragraph text _ => [text]
  | Table data _ => flat_map (flat_map cell_markup) data
  | Spacer _ _ => []
  end.
Definition markup (story : list Flowable) : list string :=
  flat_map block_markup story.

(** What the script relies on ReportLab for: [Paragraph(text, style)]
    parses [text] as markup and raises [ValueError] when it is not well
    formed (an unbalanced or unknown tag); [doc.build] raises
    [LayoutError] when a block finds no room on a page. *)
Record ReportLab : Type := {
  parses : string -> bool;
  fits : list Flowable -> bool
}.

Record World : Type := {
  dirs : gset string;
  files : gmap string (list Flowable);
  stdout : list string
}.

Definition makedirs (path : string) (w : World) : result World :=
  dirs' ← mkdirs path (dirs w) (dom (files w));
  mret {| dirs := dirs'; files := files w; stdout := stdout w |}.
Definition print (line : string) (w : World) : World :=
  {| dirs := dirs w; files := files w; stdout := stdout w ++ [line] |}.
(** [SimpleDocTemplate(output_path, ...).build(story)]: the story is
    laid out, then the file is written. *)
Definition build (lib : ReportLab) (output_path : string)
    (story : list Flowable) (w : World) : result World :=
  if fits lib story then
    _ ← create output_path (dirs w) (dom (files w));
    mret {| dirs := dirs w;
            files := <[output_path := story]> (files w);
            stdout := stdout w |}
  else Raise (OtherError "LayoutError").

Definition label_rows (rows : list (string * string)) : list (list Cell) :=
  (fun '(label, value) => [CellText label; CellText value]) <$> rows.

Section WithClock.
(** [datetime.now().strftime('%Y-%m-%d')], and the library. *)
Context (today : string) (lib : ReportLab).

(** The blocks [create_spec_sheet] appends to [story], in order. *)
Definition story (product : Product) : list Flowable :=
  [ Table [[ CellParagraph "üçµ" Logo;
             CellParagraph ("<b>" +:+ name product +:+ "</b>") ProductTitle;
             CellParagraph ("<b>" +:+ grade product +:+ " Grade</b>") GradeLabel ]]
          [inches 1; inches (45 # 10); inches (15 # 10)];
    Spacer (Binary64.of_int 1) (inches (2 # 10));
    Paragraph ("<i>Origin: " +:+ region product +:+ ", " +:+ origin product
               +:+ "</i>") Subtitle;
    Spacer (Binary64.of_int 1) (inches (3 # 10));
    Paragraph "PRODUCT OVERVIEW" SectionHeader;
    Table (label_rows [ ("Harvest:", harvest product);
                        ("Cultivation:", cultivation product);
                        ("Processing:", processing product);
                        ("Mesh Size:", mesh product) ])
          [inches (15 # 10); inches (55 # 10)];
    Spacer (Binary64.of_int 1) (inches (2 # 10));
    Paragraph "SENSORY PROFILE" SectionHeader;
    Table (label_rows [ ("Color:", color product);
                        ("Flavor:", flavor product);
                        ("Aroma:", aroma product) ])
          [inches (15 # 10); inches (55 # 10)];
    Spacer (Binary64.of_int 1) (inches (2 # 10));
    Paragraph "NUTRITIONAL INFORMATION (per gram)" SectionHeader;
    Table [ [CellText "Caffeine"; CellText "L-Theanine"; CellText "Catechins"];
            [CellText (caffeine product); CellText (l_theanine product);
             CellText (catechins product)] ]
          [inches (233 # 100); inches (233 # 100); inches (234 # 100)];
    Spacer (Binary64.of_int 1) (inches (2 # 10));
    Paragraph "STORAGE & SHELF LIFE" SectionHeader;
    Table (label_rows [ ("Shelf Life:", shelf_life product);
                        ("Storage:", storage product) ])
          [inches (15 # 10); inches (55 # 10)];
    Spacer (Binary64.of_int 1) (inches (2 # 10)) ]
  ++ (match certifications product with
      | [] => []
      | _ :: _ =>
          let certs := join BULLET (certifications product) in
          [ Paragraph "CERTIFICATIONS" SectionHeader;
            Paragraph (TICK +:+ certs) SpecBodyText;
            Spacer (Binary64.of_int 1) (inches (2 # 10)) ]
      end)
  ++ (let uses := join BULLET (uses product) in
      [ Paragraph "RECOMMENDED USES" SectionHeader;
        Paragraph uses SpecBodyText;
        Spacer (Binary64.of_int 1) (inches (2 # 10));
        Paragraph "ORDERING INFORMATION" SectionHeader;
        Table (label_rows [ ("Minimum Order:", moq product);
                            ("Lead Time:", lead_time product);
                            ("Price Range:", price_range product) ])
              [inches (15 # 10); inches (55 # 10)];
        Spacer (Binary64.of_int 1) (inches (3 # 10));
        Paragraph ("<i>Document generated: " +:+ today
                   +:+ " | Matcha Trading Platform</i>") SpecSmallText;
        Paragraph "<i>For the most current information, please contact your sales representative.</i>"
                  SpecSmallText ]).

(** The blocks are built one after the other, each [Paragraph] parsing
    its text; the document is built from them at the end. *)
Definition create_spec_sheet (product : Product) (output_path : string)
    (w : World) : result World :=
  if forallb (parses lib) (markup (story product))
  then build lib output_path (story product) w
  else Raise ValueError.

Definition newline : string := String (ascii_of_nat 10) "".

(** The body of the loop over the catalog. *)
Definition process (w : World) (product : Product) : result World :=
  let filename := slug product +:+ "-spec.pdf" in
  let filepath := path_join OUTPUT_DIR filename in
  w ← create_spec_sheet product filepath w;
  mret (print ("  ‚úì Created: " +:+ filename) w).

(** [main], for the catalog held by the global [PRODUCTS]. *)
Definition main_for (catalog : list Product) (w : World) : result World :=
  w ← makedirs OUTPUT_DIR w;
  let w := print "Generating PDF specification sheets..." w in
  w ← for_each process w catalog;
  mret (print (newline +:+ "‚úÖ Generated " +:+ pretty (Z.of_nat (length catalog))
               +:+ " PDF specification sheets in " +:+ OUTPUT_DIR) w).

Definition main : World -> result World := main_for PRODUCTS.

End WithClock.

End GeneratePdfs.

(* ===================================================================== *)
(** * Vocabulary of the specification *)
(* ===================================================================== *)

(** ** Rasters and the gradient *)

(** A raster is well formed when it has [im_height] rows of [im_width]
    pixels. *)
Definition well_formed (im : Image) : Prop :=
  0 <= im_width im /\ 0 <= im_height im /\
  length (im_px im) = Z.to_nat (im_height im) /\
  Forall (fun row => length row = Z.to_nat (im_width im)) (im_px im).

(** The double loop of [create_gradient], for any pixel function [f]: one
    row, then the rows. *)
Definition paint_row (f : Z -> Z -> RGB) (xs : list Z) (y : Z) (im : Image)
  : Image :=
  foldl (fun im x => point im x y (f x y)) im xs.

Definition paint (f : Z -> Z -> RGB) (xs ys : list Z) (im : Image) : Image :=
  foldl (fun im y => paint_row f xs y im) im ys.

(** The colour [create_gradient] passes to [draw.point] at [(x, y)]. *)
Definition gradient_pixel (direction : string) (width height : Z)
    (color1 color2 : RGB) (x y : Z) : RGB :=
  let ratio := gradient_ratio direction width height x y in
  (blend_channel color1.1.1 color2.1.1 ratio,
   blend_channel color1.1.2 color2.1.2 ratio,
   blend_channel color1.2 color2.2 ratio).

(** The float that [blend_channel] truncates. *)
Definition blend_value (c1 c2 : Z) (ratio : Binary64.float) : Binary64.float :=
  Binary64.add
    (Binary64.mul (Binary64.of_int c1) (Binary64.sub (Binary64.of_int 1) ratio))
    (Binary64.mul (Binary64.of_int c2) ratio).

(** Half a unit in the last place of any float below [512], and the
    error that the five roundings of a blend can add up to. *)
Definition eps : Q := 1 # 35184372088832.
Definition delta : Q := 1 # 34359738368.

(** An RGB colour has its three channels in [0, 255]. *)
Definition is_rgb (c : RGB) : Prop :=
  (0 <= c.1.1 <= 255) /\ (0 <= c.1.2 <= 255) /\ (0 <= c.2 <= 255).

Inductive Direction : Type := Diagonal | Vertical | Horizontal.

Definition direction_name (d : Direction) : string :=
  match d with
  | Diagonal => "diagonal"
  | Vertical => "vertical"
  | Horizontal => "horizontal"
  end.

(** The interpolation parameter [t] of the specification. *)
Definition interpolation_parameter (d : Direction) (width height x y : Z)
  : Binary64.float :=
  match d with
  | Diagonal => Binary64.int_truediv (x + y) (width + height)
  | Vertical => Binary64.int_truediv y height
  | Horizontal => Binary64.int_truediv x width
  end.

(** The truncated blend [int(c1*(1-t) + c2*t)] of the specification. *)
Definition truncated_blend (c1 c2 : Z) (t : Binary64.float) : Z :=
  Binary64.to_int
    (Binary64.add
       (Binary64.mul (Binary64.of_int c1) (Binary64.sub (Binary64.of_int 1) t))
       (Binary64.mul (Binary64.of_int c2) t)).

(** [|p - c| <= tolerance] on each channel. *)
Definition within (tolerance : RGB) (p c : RGB) : Prop :=
  Z.abs (p.1.1 - c.1.1) <= tolerance.1.1 /\
  Z.abs (p.1.2 - c.1.2) <= tolerance.1.2 /\
  Z.abs (p.2 - c.2) <= tolerance.2.

(** The far corner [(width-1, height-1)] has parameter [t = 1 - m/n],
    for [(m, n) = gap d width height]. *)
Definition gap (d : Direction) (width height : Z) : Z * Z :=
  match d with
  | Diagonal => (2, width + height)
  | Vertical => (1, height)
  | Horizontal => (1, width)
  end.

(** [ceil(|c1 - c2| * (1 - t))] at the far corner, plus the unit that
    truncation can lose. *)
Definition far_slack (d : Direction) (width height c1 c2 : Z) : Z :=
  let '(m, n) := gap d width height in
  (m * Z.abs (c1 - c2) + n - 1) / n + 1.

(** The boundary property as the specification words it, for a given
    tolerance per channel. *)
Definition boundary_claim (tolerance : Z) : Prop :=
  forall (width height : Z) (color1 color2 : RGB) (dir : Direction),
    1 <= width -> 1 <= height -> is_rgb color1 -> is_rgb color2 ->
    exists image first last,
      create_gradient width height color1 color2 (direction_name dir) = Ok image /\
      getpixel image 0 0 = Some first /\
      within (tolerance, tolerance, tolerance) first color1 /\
      getpixel image (width - 1) (height - 1) = Some last /\
      within (tolerance, tolerance, tolerance) last color2.

(** ** The kernel's binary64, to compare the rounding model with *)

(** The rational a finite primitive float denotes. *)
Definition prim_value (f : PrimFloat.float) : Q :=
  match Prim2SF f with
  | S754_finite s m e =>
      ((if s then -1 else 1) * inject_Z (Zpos m) * 2 ^ e)%Q
  | _ => 0%Q
  end.

Definition prim_of_int (n : Z) : PrimFloat.float :=
  PrimFloat.of_uint63 (Uint63.of_Z n).

(** [c1 * (1 - a / b) + c2 * (a / b)] on primitive floats. *)
Definition prim_blend (c1 c2 a b : Z) : PrimFloat.float :=
  let ratio := PrimFloat.div (prim_of_int a) (prim_of_int b) in
  PrimFloat.add
    (PrimFloat.mul (prim_of_int c1) (PrimFloat.sub (prim_of_int 1) ratio))
    (PrimFloat.mul (prim_of_int c2) ratio).

Definition agrees (c1 c2 a b : Z) : bool :=
  Qeq_bool (prim_value (prim_blend c1 c2 a b))
           (blend_value c1 c2 (Binary64.int_truediv a b)).

(** The channel pairs the scripts blend (secondary to primary of each
    palette, and the placeholder's greys), and three extreme ones. *)
Definition channel_pairs : list (Z * Z) :=
  [(144, 76); (190, 140); (109, 74); (160, 85); (200, 150); (120, 80);
   (170, 100); (210, 160); (130, 90); (130, 60); (180, 120); (100, 60);
   (200, 150); (0, 255); (255, 0); (100, 100)].

(** ** The composer *)

Definition GRADES : list string :=
  ["Ceremonial"; "Premium"; "Culinary"; "Competition"].

Definition PREMIUM : Palette :=
  {| primary := (85, 150, 80);
     secondary := (160, 200, 120);
     accent := (50, 100, 45) |}.

Definition BOLD : string := "/usr/share/fonts/truetype/dejavu/DejaVuSans-Bold.ttf".
Definition REGULAR : string := "/usr/share/fonts/truetype/dejavu/DejaVuSans.ttf".

Definition is_text (op : DrawOp) : Prop :=
  match op with Text _ _ _ _ _ _ => True | _ => False end.

Definition uses_default_font (op : DrawOp) : Prop :=
  match op with
  | Text _ _ _ font _ _ => font = DefaultFont
  | _ => True
  end.

(** An image after a sequence of accepted drawing calls: each call is
    rasterised into the pixels and recorded. *)
Definition drawn (paint : Rasteriser) (im : Image) (ops : list DrawOp)
    : Image :=
  {| im_width := im_width im;
     im_height := im_height im;
     im_px := foldl (fun px op => paint op px) (im_px im) ops;
     im_ops := im_ops im ++ ops |}.

(** The powder disc as [generate_product_image] draws it. *)
Definition powder_disc (width height : Z) (fill : RGB) : DrawOp :=
  let center_x := width / 2 in
  let center_y := height / 2 - 50 in
  let radius := Z.min width height / 4 in
  Ellipse (inject_Z (center_x - radius)) (inject_Z (center_y - radius))
          (inject_Z (center_x + radius)) (inject_Z (center_y + radius)) fill.

(** The disc as the specification describes it: centred in the image. *)
Definition centred_disc (width height : Z) (fill : RGB) : DrawOp :=
  let radius := Z.min width height / 4 in
  Ellipse (inject_Z (width / 2 - radius)) (inject_Z (height / 2 - radius))
          (inject_Z (width / 2 + radius)) (inject_Z (height / 2 + radius)) fill.

Definition powder_circle_claim : Prop :=
  forall (env : Env) (product : Product) (width height : Z),
    1 <= width -> 1 <= height ->
    exists image colors,
      palette_for (grade product) = Ok colors /\
      generate_product_image env product (width, height) = Ok image /\
      head (im_ops image) = Some (centred_disc width height (accent colors)).

(** The lightened and darkened variants of the powder colour, and the
    colour of the leaves. *)
Definition lighter (color : RGB) : RGB :=
  map_rgb (fun c => Z.min 255 (c + 30)) color.
Definition darker (color : RGB) : RGB :=
  map_rgb (fun c => Z.max 0 (c - 20)) color.
Definition leaf_colour (color : RGB) : RGB :=
  map_rgb (fun c => Z.max 0 (c - 30)) color.

(** The [i]-th texture dot of the powder circle. *)
Definition powder_dot (env : Env) (center_x center_y radius : Z) (color : RGB)
    (i : nat) : DrawOp :=
  let s := seeded_42 env i in
  let dist :=
    Binary64.mul
      (Binary64.mul (Binary64.of_int radius) (Binary64.literal (8 # 10)))
      (sample_unit s) in
  let x := Binary64.add (Binary64.of_int center_x)
             (Binary64.mul dist (sample_cos s)) in
  let y := Binary64.add (Binary64.of_int center_y)
             (Binary64.mul dist (sample_sin s)) in
  let size := Binary64.of_int (sample_size s) in
  Ellipse (Binary64.sub x size) (Binary64.sub y size)
          (Binary64.add x size) (Binary64.add y size)
          (if Binary64.ltb (Binary64.literal (5 # 10)) (sample_coin s)
           then lighter color else darker color).

(** The shapes of the powder circle: the disc, then its fifty dots. *)
Definition powder_circle (env : Env) (center_x center_y radius : Z)
    (color : RGB) : list DrawOp :=
  Ellipse (inject_Z (center_x - radius)) (inject_Z (center_y - radius))
          (inject_Z (center_x + radius)) (inject_Z (center_y + radius)) color
  :: (powder_dot env center_x center_y radius color <$> seq 0 50).

(** The two shapes of a tea leaf: the blade and the stem. *)
Definition leaf_ops (x y : Binary64.float) (size : Z) (color : RGB)
  : list DrawOp :=
  [ Ellipse x y (Binary64.add x (Binary64.of_int (size * 2)))
            (Binary64.add y (Binary64.of_int size)) (leaf_colour color);
    Line (Binary64.add x (Binary64.of_int size))
         (Binary64.add y (Binary64.of_int (size / 2)))
         (Binary64.add x (Binary64.of_int size))
         (Binary64.add (Binary64.add y (Binary64.of_int size))
                       (Binary64.of_int 10))
         (leaf_colour color) 2 ].

(** The shapes [generate_product_image] draws before the captions: the
    disc, its fifty dots, the four leaves. *)
Definition decoration (env : Env) (width height : Z) (colors : Palette)
  : list DrawOp :=
  powder_circle env (width / 2) (height / 2 - 50) (Z.min width height / 4)
    (accent colors)
  ++ leaf_ops (scale width (1 # 10)) (scale height (1 # 10)) 30 (primary colors)
  ++ leaf_ops (scale width (8 # 10)) (scale height (15 # 100)) 25 (primary colors)
  ++ leaf_ops (scale width (15 # 100)) (scale height (8 # 10)) 20 (primary colors)
  ++ leaf_ops (scale width (75 # 100)) (scale height (85 # 100)) 28 (primary colors).

(** The three texts of [generate_product_image]: the name with its
    shadow, and the grade label. *)
Definition labels (env : Env) (product : Product) (width height : Z)
    (fonts : Font * Font) : list DrawOp :=
  let text_width :=
    (textbbox env fonts.1 (name product)).1.2
    - (textbbox env fonts.1 (name product)).1.1.1 in
  let grade_text := "Grade: " +:+ grade product in
  let grade_width :=
    (textbbox env fonts.2 grade_text).1.2
    - (textbbox env fonts.2 grade_text).1.1.1 in
  [ Text ((width - text_width) / 2 + 2) (height - 150 + 2) (name product)
      fonts.1 (0, 0, 0) (Some 128);
    Text ((width - text_width) / 2) (height - 150) (name product)
      fonts.1 (255, 255, 255) None;
    Text ((width - grade_width) / 2) (height - 150 + 50) grade_text
      fonts.2 (255, 255, 255) (Some 200) ].

(** The border, the last call of the composer. *)
Definition border (width height : Z) (colors : Palette) : DrawOp :=
  Rectangle 0 0 (width - 1) (height - 1) (accent colors) 3.

(** The drawing calls that end [generate_product_image]. *)
Definition captions (env : Env) (product : Product) (width height : Z)
    (fonts : Font * Font) (colors : Palette) : list DrawOp :=
  labels env product width height fonts ++ [border width height colors].

(** Every drawing call of the composer, in order. *)
Definition artwork (env : Env) (product : Product) (width height : Z)
    (colors : Palette) : list DrawOp :=
  decoration env width height colors
  ++ captions env product width height (load_fonts env) colors.

(** The colour a drawing call paints with is an RGB colour (and its
    alpha, if any, a byte). *)
Definition paints_rgb (op : DrawOp) : Prop :=
  match op with
  | Ellipse _ _ _ _ fill => is_rgb fill
  | Line _ _ _ _ fill _ => is_rgb fill
  | Text _ _ _ _ fill alpha =>
      is_rgb fill /\ match alpha with Some a => 0 <= a <= 255 | None => True end
  | Rectangle _ _ _ _ outline _ => is_rgb outline
  | Resize _ _ => True
  end.

Definition is_palette (colors : Palette) : Prop :=
  is_rgb (primary colors) /\ is_rgb (secondary colors) /\ is_rgb (accent colors).

(** A text drawn in one of two fonts. *)
Definition set_in_fonts (f1 f2 : Font) (op : DrawOp) : Prop :=
  match op with
  | Text _ _ _ font _ _ => font = f1 \/ font = f2
  | _ => True
  end.

(** A stand-in for Pillow's rasteriser, for the sample machines: it
    fills the bounding box of a shape and leaves the pixels alone for
    texts and resampling. *)
Definition box_fill (x0 y0 x1 y1 : Z) (c : RGB) (px : list (list RGB))
    : list (list RGB) :=
  imap (fun y row =>
          imap (fun x p =>
                  if (x0 <=? Z.of_nat x) && (Z.of_nat x <=? x1)
                     && (y0 <=? Z.of_nat y) && (Z.of_nat y <=? y1)
                  then c else p) row) px.
Definition boxes : Rasteriser := fun op px =>
  match op with
  | Ellipse x0 y0 x1 y1 fill =>
      box_fill (Qfloor x0) (Qfloor y0) (Qfloor x1) (Qfloor y1) fill px
  | Rectangle x0 y0 x1 y1 outline _ => box_fill x0 y0 x1 y1 outline px
  | _ => px
  end.

(** A sample of the random stream, from numbers in range. *)
Definition sample (cos sin u coin : Q) (pick : nat) : Sample :=
  {| sample_cos := cos; sample_sin := sin; sample_unit := u;
     sample_size := 2 + Z.of_nat (pick `mod` 4); sample_coin := coin;
     sample_size_range :=
       ltac:(pose proof (Nat.mod_upper_bound pick 4); lia) |}.

(** A machine without the DejaVu fonts, with fixed-pitch text metrics and
    a constant random stream: a concrete environment to run the scripts
    in. *)
Definition bare_machine : Env :=
  {| truetype := fun _ _ => Raise OSError;
     textbbox := fun _ text => (0, 0, 6 * Z.of_nat (String.length text), 11);
     rasterise := boxes;
     seeded_42 := fun _ => sample 1 0 (1 # 2) (3 # 4) 1 |}.

(** A machine on which both DejaVu fonts load. *)
Definition dejavu_machine : Env :=
  {| truetype := fun path size => Ok (TrueTypeFont path size);
     textbbox := fun font text =>
       match font with
       | TrueTypeFont _ size => (0, 4, size * Z.of_nat (String.length text) / 2, size)
       | DefaultFont => (0, 0, 6 * Z.of_nat (String.length text), 11)
       end;
     rasterise := boxes;
     seeded_42 := fun i => sample 1 0 (1 # 2) (1 # 4) i |}.

(** ** The drivers *)

(** A JPEG written with the given quality. *)
Definition jpeg (quality : Z) (image : Image) : File :=
  {| file_format := "JPEG"; file_quality := quality; file_image := image |}.

(** The thumbnail the driver derives from a full image. *)
Definition thumbnail_of (env : Env) (image : Image) : Image :=
  thumbnail (rasterise env) (copy image) (400, 400).

(** The two files of a record, in the order they are saved. *)
Definition outputs_of (env : Env) (product : Product) (image : Image)
  : list (string * File) :=
  [ (path_join OUTPUT_DIR (slug product +:+ ".jpg"), jpeg 90 image);
    (path_join OUTPUT_DIR (slug product +:+ "-thumb.jpg"),
     jpeg 85 (thumbnail_of env image)) ].

Definition placeholder_path : string := path_join OUTPUT_DIR "placeholder.jpg".

(** The placeholder image: the caption over the grey gradient. *)
Definition placeholder_caption (env : Env) : DrawOp :=
  let font := try_except (truetype env REGULAR 48) load_default in
  let text_width :=
    (textbbox env font "Image Coming Soon").1.2
    - (textbbox env font "Image Coming Soon").1.1.1 in
  Text ((800 - text_width) / 2) 380 "Image Coming Soon" font
    (100, 100, 100) None.
Definition placeholder_image (env : Env) (base : Image) : Image :=
  drawn (rasterise env) base [placeholder_caption env].

(** Saving a sequence of files, oldest first. *)
Definition write_all {V} (entries : list (string * V)) (m : gmap string V)
  : gmap string V :=
  foldl (fun m e => <[e.1 := e.2]> m) m entries.

(** The lines the image driver prints for a record, and its last line. *)
Definition progress (product : Product) : list string :=
  [ "  ✓ Created: " +:+ (slug product +:+ ".jpg");
    "  ✓ Created: " +:+ (slug product +:+ "-thumb.jpg") ].

Definition summary (n : nat) : string :=
  newline +:+ "✅ Generated " +:+ pretty (Z.of_nat n * 2 + 1)
  +:+ " images in " +:+ OUTPUT_DIR.

(** The paths of a record's two images, from its slug alone. *)
Definition image_paths (slug : string) : list string :=
  [ path_join OUTPUT_DIR (slug +:+ ".jpg");
    path_join OUTPUT_DIR (slug +:+ "-thumb.jpg") ].

(** All the paths the image driver writes for a catalog. *)
Definition written_paths (catalog : list Product) : list string :=
  flat_map image_paths (slug <$> catalog) ++ [placeholder_path].

(** Everything the image driver saves for a catalog rendered as
    [images], in the order of the calls. *)
Definition saved (env : Env) (catalog : list Product) (images : list Image)
    (base : Image) : list (string * File) :=
  flat_map (uncurry (outputs_of env)) (zip catalog images)
  ++ [(placeholder_path, jpeg 85 (placeholder_image env base))].

(** The path of a record's specification sheet, from its slug alone. *)
Definition spec_path (slug : string) : string :=
  path_join GeneratePdfs.OUTPUT_DIR (slug +:+ "-spec.pdf").

(** The sheets the document driver writes for a catalog. *)
Definition sheets (today : string) (catalog : list GeneratePdfs.Product)
  : list (string * list GeneratePdfs.Flowable) :=
  (fun product => (spec_path (GeneratePdfs.slug product),
                   GeneratePdfs.story today product)) <$> catalog.

(** A slug that is a plain file name: letters, digits, hyphens and
    underscores, at most 200 of them. *)
Definition name_char (c : ascii) : bool :=
  let n := nat_of_ascii c in
  ((48 <=? n) && (n <=? 57) || (65 <=? n) && (n <=? 90)
   || (97 <=? n) && (n <=? 122) || (n =? 45) || (n =? 95))%nat.
Fixpoint name_chars (s : string) : bool :=
  match s with
  | EmptyString => true
  | String c rest => name_char c && name_chars rest
  end.
Definition simple_name (s : string) : bool :=
  name_chars s && (String.length s <=? 200)%nat.

(** The file system lets a driver create the directory [out] and write
    [paths]: no ancestor of [out] is a regular file, and none of the
    paths is a directory. *)
Definition ready (out : string) (paths : list string)
    (dirs names : gset string) : Prop :=
  Forall (fun d => d ∉ names) (ancestry out) /\
  Forall (fun p => p ∉ dirs) paths.

(** A file system with nothing on it. *)
Definition empty_world : World := {| dirs := ∅; files := ∅; stdout := [] |}.

(** The count of the specification, as it words it: whatever the plain
    slugs of the N records, a run leaves 2N+1 files in a directory that
    was empty. *)
Definition file_count_claim : Prop :=
  forall (env : Env) (catalog : list Product),
    Forall (fun product => simple_name (slug product) = true) catalog ->
    exists w',
      main_for env catalog empty_world = Ok w' /\
      size (dom (files w')) = (2 * length catalog + 1)%nat.

(** A record named like the placeholder. *)
Definition placeholder_record : Product :=
  {| slug := "placeholder"; name := "Placeholder"; grade := "Premium" |}.

(** A record whose slug names a sub-directory. *)
Definition nested_record : Product :=
  {| slug := "seasonal/sakura"; name := "Sakura Blend"; grade := "Premium" |}.

(** A parser that accepts a text when its tags are balanced, and a
    library that finds room for every story: a concrete ReportLab to run
    the document script with. *)
Fixpoint balanced_from (stack : list string) (tag : option string) (s : string)
    : bool :=
  match s with
  | EmptyString =>
      match tag, stack with
      | None, [] => true
      | _, _ => false
      end
  | String c rest =>
      match tag with
      | None =>
          if Ascii.eqb c "<"%char then balanced_from stack (Some EmptyString) rest
          else balanced_from stack None rest
      | Some name =>
          if Ascii.eqb c ">"%char then
            match name, stack with
            | String "/"%char closing, top :: stack' =>
                String.eqb closing top && balanced_from stack' None rest
            | String "/"%char _, [] => false
            | _, _ => balanced_from (name :: stack) None rest
            end
          else balanced_from stack (Some (name +:+ String c EmptyString)) rest
      end
  end.
Definition balanced (s : string) : bool := balanced_from [] None s.

Definition office : GeneratePdfs.ReportLab :=
  {| GeneratePdfs.parses := balanced;
     GeneratePdfs.fits := fun _ => true |}.

(** A story that the library accepts: each text parses, and the blocks
    find room. *)
Definition printable (lib : GeneratePdfs.ReportLab)
    (story : list GeneratePdfs.Flowable) : Prop :=
  forallb (GeneratePdfs.parses lib) (GeneratePdfs.markup story) = true /\
  GeneratePdfs.fits lib story = true.

Definition empty_shelf : GeneratePdfs.World :=
  {| GeneratePdfs.dirs := ∅; GeneratePdfs.files := ∅;
     GeneratePdfs.stdout := [] |}.


(** A record with two certifications, after the third entry of the
    document catalog. *)
Definition classic_usucha_blend : GeneratePdfs.Product :=
  {| GeneratePdfs.slug := "classic-usucha-blend";
     GeneratePdfs.name := "Classic Usucha Blend";
     GeneratePdfs.grade := "Premium";
     GeneratePdfs.region := "Uji, Kyoto";
     GeneratePdfs.origin := "Japan";
     GeneratePdfs.harvest := "First Harvest (Ichibancha)";
     GeneratePdfs.cultivation := "Shade-grown (18 days)";
     GeneratePdfs.processing := "Stone-ground";
     GeneratePdfs.mesh := "900 mesh";
     GeneratePdfs.color := "Bright green";
     GeneratePdfs.flavor := "Balanced umami and sweetness";
     GeneratePdfs.aroma := "Fresh, slightly sweet";
     GeneratePdfs.caffeine := "~33mg per gram";
     GeneratePdfs.l_theanine := "~18mg per gram";
     GeneratePdfs.catechins := "~105mg per gram";
     GeneratePdfs.shelf_life := "12 months (unopened), 1 month (opened)";
     GeneratePdfs.storage := "Cool, dry place away from light. Refrigerate after opening.";
     GeneratePdfs.certifications := ["JAS Organic"; "Kosher"];
     GeneratePdfs.uses := ["Daily usucha"; "Premium lattes"; "Desserts"];
     GeneratePdfs.moq := "5 kg";
     GeneratePdfs.lead_time := "12 days";
     GeneratePdfs.price_range := "$50-70 per kg" |}.

(** A record whose name carries a tag that is never closed. *)
Definition unclosed_record : GeneratePdfs.Product :=
  {| GeneratePdfs.slug := "house-blend";
     GeneratePdfs.name := "House <b>Blend";
     GeneratePdfs.grade := "Premium";
     GeneratePdfs.region := "Uji, Kyoto";
     GeneratePdfs.origin := "Japan";
     GeneratePdfs.harvest := "First Harvest (Ichibancha)";
     GeneratePdfs.cultivation := "Shade-grown (18 days)";
     GeneratePdfs.processing := "Stone-ground";
     GeneratePdfs.mesh := "900 mesh";
     GeneratePdfs.color := "Bright green";
     GeneratePdfs.flavor := "Balanced umami and sweetness";
     GeneratePdfs.aroma := "Fresh, slightly sweet";
     GeneratePdfs.caffeine := "~33mg per gram";
     GeneratePdfs.l_theanine := "~18mg per gram";
     GeneratePdfs.catechins := "~105mg per gram";
     GeneratePdfs.shelf_life := "12 months (unopened), 1 month (opened)";
     GeneratePdfs.storage := "Cool, dry place away from light.";
     GeneratePdfs.certifications := [];
     GeneratePdfs.uses := ["Daily usucha"];
     GeneratePdfs.moq := "5 kg";
     GeneratePdfs.lead_time := "12 days";
     GeneratePdfs.price_range := "$50-70 per kg" |}.

(** ** Bands, outlines and console lines *)

(** The relation between two positions that a direction blends alike. *)
Definition same_band (d : Direction) (x y x' y' : Z) : Prop :=
  match d with
  | Diagonal => x + y = x' + y'
  | Vertical => y = y'
  | Horizontal => x = x'
  end.

(** A channel between those of two colours, less the unit truncation can
    lose. *)
Definition between (c1 c2 p : Z) : Prop :=
  Z.min c1 c2 - 1 <= p <= Z.max c1 c2.

(** The titles of a sheet's sections, in the order they appear. *)
Definition headers (sheet : list GeneratePdfs.Flowable) : list string :=
  flat_map (fun block =>
              match block with
              | GeneratePdfs.Paragraph text GeneratePdfs.SectionHeader => [text]
              | _ => []
              end) sheet.

(** The two closing lines of a sheet. *)
Definition footer (today : string) : list GeneratePdfs.Flowable :=
  [ GeneratePdfs.Paragraph
      ("<i>Document generated: " +:+ today +:+ " | Matcha Trading Platform</i>")
      GeneratePdfs.SpecSmallText;
    GeneratePdfs.Paragraph
      "<i>For the most current information, please contact your sales representative.</i>"
      GeneratePdfs.SpecSmallText ].

(** A table is rectangular when each row has one cell per column width. *)
Definition rectangular (block : GeneratePdfs.Flowable) : Prop :=
  match block with
  | GeneratePdfs.Table data colWidths =>
      Forall (fun row => length row = length colWidths) data
  | _ => True
  end.


(** The strings the document driver hands to [print] for a record, and
    at the end. *)
Definition sheet_line (product : GeneratePdfs.Product) : string :=
  "  ‚úì Created: " +:+ GeneratePdfs.slug product +:+ "-spec.pdf".

Definition sheet_summary (n : nat) : string :=
  GeneratePdfs.newline +:+ "‚úÖ Generated " +:+ pretty (Z.of_nat n)
  +:+ " PDF specification sheets in " +:+ GeneratePdfs.OUTPUT_DIR.

(** * Properties *)
(* ===================================================================== *)

(** ** The built-ins on small inputs *)

Example path_join_relative :
  path_join OUTPUT_DIR "placeholder.jpg"
  = "/home/claude/matcha-setup/images/placeholder.jpg".
Proof. reflexivity. Qed.

Example path_join_absolute : path_join OUTPUT_DIR "/tmp/x.jpg" = "/tmp/x.jpg".
Proof. reflexivity. Qed.

Example join_three : join ", " ["a"; "b"; "c"] = "a, b, c".
Proof. reflexivity. Qed.

Example join_none : join ", " [] = "".
Proof. reflexivity. Qed.

Example tenth_literal :
  Qeq_bool (Binary64.literal (1 # 10))
           (3602879701896397 # 36028797018963968) = true.
Proof. vm_compute. reflexivity. Qed.

Example gradient_3x2 :
  create_gradient 3 2 (0, 0, 0) (255, 255, 255) "horizontal"
  = Ok {| im_width := 3; im_height := 2;
          im_px := [ [(0, 0, 0); (85, 85, 85); (170, 170, 170)];
                     [(0, 0, 0); (85, 85, 85); (170, 170, 170)] ];
          im_ops := [] |}.
Proof. vm_compute. reflexivity. Qed.

Example gradient_negative_width :
  create_gradient (-1) 2 (0, 0, 0) (255, 255, 255) "horizontal"
  = Raise ValueError.
Proof. reflexivity. Qed.

(** Truncation after rounding can lose a unit: the blend of a colour
    with itself is not always that colour. *)
Example blend_drift : blend_channel 100 100 (Binary64.int_truediv 34 100) = 99.
Proof. vm_compute. reflexivity. Qed.

Example thumbnail_landscape : thumbnail_size 800 600 400 400 = Some (400, 300).
Proof. vm_compute. reflexivity. Qed.

Example thumbnail_portrait : thumbnail_size 300 1000 400 400 = Some (120, 400).
Proof. vm_compute. reflexivity. Qed.

Example thumbnail_small : thumbnail_size 320 200 400 400 = None.
Proof. reflexivity. Qed.

(** ** Python results *)

Lemma bind_Ok {A B} (a : A) (k : A -> result B) : Ok a ≫= k = k a.
Proof. reflexivity. Qed.

(** ** Rounding *)

Section Binary64Facts.
Import Binary64.
Local Open Scope Q_scope.

Lemma round_half_even_floor (q : Q) :
  (Qfloor q <= round_half_even q <= Qfloor q + 1)%Z.
Proof.
  unfold round_half_even.
  destruct (Qcompare _ _); [destruct (Z.even _)|..]; lia.
Qed.

Lemma round_half_even_near (q : Q) :
  q - (1 # 2) <= inject_Z (round_half_even q) <= q + (1 # 2).
Proof.
  unfold round_half_even.
  pose proof (Qfloor_le q) as Hlo.
  pose proof (Qlt_floor q) as Hhi.
  rewrite inject_Z_plus in Hhi. change (inject_Z 1) with 1 in Hhi.
  destruct (Qcompare (q - inject_Z (Qfloor q)) (1 # 2)) eqn:Hc.
  - apply Qeq_alt in Hc.
    destruct (Z.even (Qfloor q)); [|rewrite inject_Z_plus; change (inject_Z 1) with 1]; lra.
  - apply Qlt_alt in Hc. lra.
  - apply Qgt_alt in Hc. rewrite inject_Z_plus. change (inject_Z 1) with 1. lra.
Qed.

Lemma round_half_even_le_int (q : Q) (m : Z) :
  q <= inject_Z m -> (round_half_even q <= m)%Z.
Proof.
  intros Hq.
  pose proof (Qfloor_resp_le _ _ Hq) as Hf. rewrite Qfloor_Z in Hf.
  pose proof (round_half_even_floor q) as Hr.
  destruct (Z.eq_dec (Qfloor q) m) as [Heq|Hne]; [|lia].
  unfold round_half_even.
  pose proof (Qfloor_le q) as Hlo. rewrite Heq in *.
  assert (Hc : Qcompare (q - inject_Z m) (1 # 2) = Lt).
  { apply -> Qlt_alt. lra. }
  rewrite Hc. lia.
Qed.

Lemma round_half_even_nonneg (q : Q) :
  0 <= q -> (0 <= round_half_even q)%Z.
Proof.
  intros Hq.
  pose proof (Qfloor_resp_le _ _ Hq) as Hf.
  change (Qfloor 0) with 0%Z in Hf.
  pose proof (round_half_even_floor q). lia.
Qed.

Lemma pow2_pos (e : Z) : 0 < 2 ^ e.
Proof. apply Qpower_0_lt. lra. Qed.

Lemma pow2_le (a b : Z) : (a <= b)%Z -> 2 ^ a <= 2 ^ b.
Proof. intros. apply Qpower_le_compat_l; [lia | lra]. Qed.

Lemma rnd_compat (x y : Q) : x == y -> rnd x = rnd y.
Proof. intros H. unfold rnd. by rewrite (Qred_complete _ _ H). Qed.

Lemma Qred_num_zero (x : Q) : Qnum (Qred x) = 0%Z -> x == 0.
Proof.
  intros H. rewrite <- (Qred_correct x).
  destruct (Qred x) as [n d]. simpl in H. subst n. reflexivity.
Qed.

Lemma rnd_nonneg (x : Q) : 0 <= x -> 0 <= rnd x.
Proof.
  intros Hx. unfold rnd.
  destruct (Qnum (Qred x) =? 0)%Z; [lra|].
  set (e := ulp_exp (Qred x)).
  pose proof (pow2_pos e) as He.
  apply Qmult_le_0_compat; [|lra].
  change 0 with (inject_Z 0). rewrite <- Zle_Qle.
  apply round_half_even_nonneg.
  apply Qle_shift_div_l; [done|]. rewrite Qred_correct. lra.
Qed.

Lemma Qabs_pos_eq (q : Q) : 0 < q -> Qabs q = q.
Proof.
  destruct q as [n d]. unfold Qlt. simpl. intros H.
  f_equal. lia.
Qed.

Lemma ilog2_small (q : Q) : 0 < q -> q < 512 -> (ilog2 q <= 8)%Z.
Proof.
  intros Hpos Hlt. unfold ilog2.
  set (k := (Z.log2 (Qnum q) - Z.log2 (Z.pos (Qden q)))%Z).
  destruct (Qle_bool (2 ^ k) q) eqn:Hk.
  - apply Qle_bool_iff in Hk.
    destruct (Z_le_gt_dec k 8) as [|Hgt]; [done|].
    pose proof (pow2_le 9 k ltac:(lia)) as H9.
    change (2 ^ 9) with 512 in H9. lra.
  - assert (k <= 9)%Z; [|lia]. subst k.
    destruct q as [n d]. unfold Qlt in *. cbn [Qnum Qden] in *.
    assert (Hn : (0 < n)%Z) by lia.
    pose proof (Z.log2_spec (Z.pos d) ltac:(lia)) as [_ Hd].
    assert (Hb : (0 <= Z.log2 (Z.pos d))%Z) by apply Z.log2_nonneg.
    assert (n < 2 ^ (Z.log2 (Z.pos d) + 10))%Z.
    { rewrite Z.pow_add_r by lia. change (2 ^ 10)%Z with 1024%Z.
      rewrite <- Z.add_1_r in Hd. rewrite Z.pow_add_r in Hd by lia. lia. }
    apply Z.log2_lt_pow2 in H; lia.
Qed.

Lemma ulp_exp_small (q : Q) : 0 < q -> q < 512 -> (ulp_exp q <= -44)%Z.
Proof.
  intros Hpos Hlt. unfold ulp_exp. rewrite Qabs_pos_eq by done.
  pose proof (ilog2_small q Hpos Hlt). lia.
Qed.

Lemma rnd_error (x : Q) :
  0 <= x -> x < 512 -> x - eps <= rnd x <= x + eps.
Proof.
  intros Hx Hlt. unfold rnd.
  destruct (Qnum (Qred x) =? 0)%Z eqn:Hz.
  - apply Z.eqb_eq, Qred_num_zero in Hz. unfold eps. lra.
  - pose proof (Qred_correct x) as Hr.
    assert (Hpos : 0 < Qred x).
    { apply Z.eqb_neq in Hz. rewrite Hr.
      destruct (Qlt_le_dec 0 x) as [|Hle]; [done|].
      exfalso. apply Hz.
      assert (E0 : x == 0) by lra.
      rewrite (Qred_complete _ _ E0). reflexivity. }
    pose proof (ulp_exp_small (Qred x) Hpos ltac:(lra)) as He.
    set (e := ulp_exp (Qred x)) in *.
    pose proof (pow2_pos e) as Hp.
    pose proof (pow2_le e (-44) He) as Hp44.
    change (2 ^ (-44)) with (1 # 17592186044416) in Hp44.
    pose proof (round_half_even_near (Qred x / 2 ^ e)) as [Hlo Hhi].
    set (m := inject_Z (round_half_even (Qred x / 2 ^ e))) in *.
    assert (Hy : Qred x / 2 ^ e * 2 ^ e == x).
    { rewrite <- Hr at 2. field. lra. }
    apply (Qmult_le_compat_r _ _ (2 ^ e)) in Hlo; [|lra].
    apply (Qmult_le_compat_r _ _ (2 ^ e)) in Hhi; [|lra].
    unfold eps.
    split; nra.
Qed.

Lemma rnd_le_1 (x : Q) : 0 <= x -> x <= 1 -> rnd x <= 1.
Proof.
  intros Hx Hle. unfold rnd.
  destruct (Qnum (Qred x) =? 0)%Z eqn:Hz; [lra|].
  pose proof (Qred_correct x) as Hr.
  assert (Hpos : 0 < Qred x).
  { apply Z.eqb_neq in Hz. rewrite Hr.
    destruct (Qlt_le_dec 0 x) as [|Hle']; [done|].
    exfalso. apply Hz.
    assert (E0 : x == 0) by lra.
    rewrite (Qred_complete _ _ E0). reflexivity. }
  pose proof (ulp_exp_small (Qred x) Hpos ltac:(lra)) as He.
  set (e := ulp_exp (Qred x)) in *.
  pose proof (pow2_pos e) as Hp.
  assert (Hm : inject_Z (2 ^ (- e)) * 2 ^ e == 1).
  { rewrite Zpower_Qpower by lia. change (inject_Z 2) with 2.
    rewrite <- Qpower_plus by lra.
    replace (- e + e)%Z with 0%Z by lia. reflexivity. }
  assert (Hq : Qred x / 2 ^ e <= inject_Z (2 ^ (- e))).
  { apply Qle_shift_div_r; [done|]. rewrite Hm. lra. }
  apply round_half_even_le_int in Hq.
  rewrite Zle_Qle in Hq.
  apply (Qmult_le_compat_r _ _ (2 ^ e)) in Hq; [|lra].
  lra.
Qed.

Lemma of_int_exact_table :
  forallb (fun c => Qeq_bool (of_int c) (inject_Z c)) (seqZ 0 256) = true.
Proof. vm_compute. reflexivity. Qed.

Lemma of_int_exact (c : Z) : (0 <= c <= 255)%Z -> of_int c == inject_Z c.
Proof.
  intros Hc. pose proof of_int_exact_table as H.
  rewrite forallb_forall in H.
  apply Qeq_bool_iff, H, list_elem_of_In, elem_of_seqZ. lia.
Qed.

Lemma Qmult_between (a x lo hi : Q) :
  0 <= a -> lo <= x <= hi -> a * lo <= a * x <= a * hi.
Proof.
  intros Ha [Hlo Hhi]. rewrite !(Qmult_comm a).
  split; apply Qmult_le_compat_r; done.
Qed.

Lemma inject_Z_channel (c : Z) :
  (0 <= c <= 255)%Z -> 0 <= inject_Z c <= 255.
Proof.
  intros Hc. change 0 with (inject_Z 0). change 255 with (inject_Z 255).
  rewrite <- !Zle_Qle. lia.
Qed.

Lemma blend_value_bounds (c1 c2 : Z) (tau : Q) :
  (0 <= c1 <= 255)%Z -> (0 <= c2 <= 255)%Z -> 0 <= tau <= 1 ->
  let exact := inject_Z c1 * (1 - tau) + inject_Z c2 * tau in
  let v := blend_value c1 c2 (rnd tau) in
  0 <= v /\ exact - delta <= v <= exact + delta.
Proof.
  intros Hc1 Hc2 [Ht0 Ht1]. cbv zeta. unfold blend_value, add, mul, sub.
  pose proof (of_int_exact c1 Hc1) as E1.
  pose proof (of_int_exact c2 Hc2) as E2.
  pose proof (of_int_exact 1 ltac:(lia)) as E0.
  change (inject_Z 1) with 1 in E0.
  pose proof (inject_Z_channel c1 Hc1) as B1.
  pose proof (inject_Z_channel c2 Hc2) as B2.
  set (k1 := inject_Z c1) in *. set (k2 := inject_Z c2) in *.
  set (o1 := of_int c1) in *. set (o2 := of_int c2) in *.
  set (o := of_int 1) in *.
  pose proof (rnd_nonneg tau Ht0) as T0.
  pose proof (rnd_le_1 tau Ht0 Ht1) as T1.
  pose proof (rnd_error tau Ht0 ltac:(lra)) as Te.
  set (t := rnd tau) in *.
  pose proof (rnd_nonneg (o - t) ltac:(lra)) as S0.
  pose proof (rnd_le_1 (o - t) ltac:(lra) ltac:(lra)) as S1.
  pose proof (rnd_error (o - t) ltac:(lra) ltac:(lra)) as Se.
  set (s := rnd (o - t)) in *.
  unfold eps, delta in *.
  assert (M1 : o1 * s == k1 * s) by (by rewrite E1).
  assert (M2 : o2 * t == k2 * t) by (by rewrite E2).
  pose proof (Qmult_between k1 s 0 1 ltac:(lra) ltac:(lra)) as K1.
  pose proof (Qmult_between k2 t 0 1 ltac:(lra) ltac:(lra)) as K2.
  assert (Se' : 1 - t - (1 # 35184372088832) <= s
                <= 1 - t + (1 # 35184372088832)) by lra.
  pose proof (Qmult_between k1 s _ _ ltac:(lra) Se') as K1s.
  pose proof (Qmult_between k1 t _ _ ltac:(lra) Te) as K1t.
  pose proof (Qmult_between k2 t _ _ ltac:(lra) Te) as K2t.
  pose proof (rnd_nonneg (o1 * s) ltac:(lra)) as A0.
  pose proof (rnd_error (o1 * s) ltac:(lra) ltac:(lra)) as Ae.
  set (p1 := rnd (o1 * s)) in *.
  pose proof (rnd_nonneg (o2 * t) ltac:(lra)) as B0.
  pose proof (rnd_error (o2 * t) ltac:(lra) ltac:(lra)) as Be.
  set (p2 := rnd (o2 * t)) in *.
  unfold eps in *.
  pose proof (rnd_nonneg (p1 + p2) ltac:(lra)) as V0.
  pose proof (rnd_error (p1 + p2) ltac:(lra) ltac:(lra)) as Ve.
  set (v := rnd (p1 + p2)) in *.
  unfold eps in *.
  split; [done|]. split; lra.
Qed.

End Binary64Facts.

(** ** Rounding: order and fixed points *)

Section Rounding.
Import Binary64.
Local Open Scope Q_scope.

Lemma pow2_plus (a b : Z) : 2 ^ (a + b) == 2 ^ a * 2 ^ b.
Proof. apply Qpower_plus. lra. Qed.

Lemma pow2_int (n : Z) : (0 <= n)%Z -> inject_Z (2 ^ n) == 2 ^ n.
Proof. intros Hn. rewrite Zpower_Qpower by done. reflexivity. Qed.

Lemma pow2_lt (a b : Z) : (a < b)%Z -> 2 ^ a < 2 ^ b.
Proof.
  intros Hab. replace b with (a + (b - a))%Z by lia. rewrite pow2_plus.
  pose proof (pow2_pos a) as Ha.
  pose proof (pow2_le 1 (b - a) ltac:(lia)) as Hb.
  change (2 ^ 1) with 2 in Hb.
  assert (2 ^ a * 1 < 2 ^ a * 2 ^ (b - a)); [|lra].
  apply Qmult_lt_l; [done|lra].
Qed.

Lemma pow2_le_inv (a b : Z) : 2 ^ a <= 2 ^ b -> (a <= b)%Z.
Proof.
  intros H. destruct (Z_le_gt_dec a b) as [|Hgt]; [done|].
  pose proof (pow2_lt b a ltac:(lia)). lra.
Qed.

Lemma pow2_lt_inv (a b : Z) : 2 ^ a < 2 ^ b -> (a < b)%Z.
Proof.
  intros H. destruct (Z_lt_ge_dec a b) as [|Hge]; [done|].
  pose proof (pow2_le b a ltac:(lia)). lra.
Qed.

(** [q / 2^e] against a power of two. *)
Lemma scaled_le (q : Q) (e k : Z) : q <= 2 ^ k -> q / 2 ^ e <= 2 ^ (k - e).
Proof.
  intros H. pose proof (pow2_pos e).
  apply Qle_shift_div_r; [done|].
  rewrite <- pow2_plus. by replace (k - e + e)%Z with k by lia.
Qed.

Lemma scaled_ge (q : Q) (e k : Z) : 2 ^ k <= q -> 2 ^ (k - e) <= q / 2 ^ e.
Proof.
  intros H. pose proof (pow2_pos e).
  apply Qle_shift_div_l; [done|].
  rewrite <- pow2_plus. by replace (k - e + e)%Z with k by lia.
Qed.

Lemma ilog2_spec (q : Q) : 0 < q -> 2 ^ ilog2 q <= q /\ q < 2 ^ (ilog2 q + 1).
Proof.
  intros Hq. unfold ilog2.
  set (a := Z.log2 (Qnum q)). set (b := Z.log2 (Z.pos (Qden q))).
  assert (Hn : (0 < Qnum q)%Z).
  { destruct q as [n d]. unfold Qlt in Hq. simpl in *. lia. }
  pose proof (Z.log2_spec (Qnum q) Hn) as [Ha1 Ha2]. fold a in Ha1, Ha2.
  pose proof (Z.log2_spec (Z.pos (Qden q)) ltac:(lia)) as [Hb1 Hb2].
  fold b in Hb1, Hb2.
  assert (Ha : (0 <= a)%Z) by apply Z.log2_nonneg.
  assert (Hb : (0 <= b)%Z) by apply Z.log2_nonneg.
  set (N := inject_Z (Qnum q)). set (D := inject_Z (Z.pos (Qden q))).
  assert (HD : 0 < D).
  { unfold D. change 0 with (inject_Z 0). rewrite <- Zlt_Qlt. lia. }
  assert (Eq : q == N / D).
  { destruct q as [n d]. apply Qmake_Qdiv. }
  assert (N1 : 2 ^ a <= N).
  { rewrite <- pow2_int by done. unfold N. by rewrite <- Zle_Qle. }
  assert (N2 : N < 2 ^ (a + 1)).
  { rewrite <- pow2_int by lia. unfold N. rewrite <- Zlt_Qlt.
    by rewrite <- Z.add_1_r in Ha2. }
  assert (D1 : 2 ^ b <= D).
  { rewrite <- pow2_int by done. unfold D. by rewrite <- Zle_Qle. }
  assert (D2 : D < 2 ^ (b + 1)).
  { rewrite <- pow2_int by lia. unfold D. rewrite <- Zlt_Qlt.
    by rewrite <- Z.add_1_r in Hb2. }
  assert (Hup : q < 2 ^ (a - b + 1)).
  { rewrite Eq. apply Qlt_shift_div_r; [done|].
    pose proof (pow2_pos (a - b + 1)) as Hp.
    assert (2 ^ (a - b + 1) * 2 ^ b <= 2 ^ (a - b + 1) * D)
      by (apply Qmult_le_l; done).
    rewrite <- pow2_plus in H.
    replace (a - b + 1 + b)%Z with (a + 1)%Z in H by lia. lra. }
  assert (Hlo : 2 ^ (a - b - 1) < q).
  { rewrite Eq. apply Qlt_shift_div_l; [done|].
    pose proof (pow2_pos (a - b - 1)) as Hp.
    assert (2 ^ (a - b - 1) * D < 2 ^ (a - b - 1) * 2 ^ (b + 1))
      by (apply Qmult_lt_l; done).
    rewrite <- pow2_plus in H.
    replace (a - b - 1 + (b + 1))%Z with a in H by lia. lra. }
  destruct (Qle_bool (2 ^ (a - b)) q) eqn:Hk.
  - apply Qle_bool_iff in Hk. split; done.
  - assert (q < 2 ^ (a - b)).
    { destruct (Qlt_le_dec q (2 ^ (a - b))) as [|Hle]; [done|].
      apply Qle_bool_iff in Hle. congruence. }
    replace (a - b - 1 + 1)%Z with (a - b)%Z by lia.
    split; [lra|done].
Qed.

Lemma ilog2_unique (q : Q) (k : Z) :
  2 ^ k <= q -> q < 2 ^ (k + 1) -> ilog2 q = k.
Proof.
  intros H1 H2. pose proof (pow2_pos k).
  destruct (ilog2_spec q ltac:(lra)) as [L1 L2].
  assert (2 ^ k < 2 ^ (ilog2 q + 1)) by lra.
  assert (2 ^ ilog2 q < 2 ^ (k + 1)) by lra.
  apply pow2_lt_inv in H0, H3. lia.
Qed.

(** ** Rounding to the nearest integer *)

Ltac qcmp H :=
  match type of H with
  | _ = Eq => apply <- Qeq_alt in H
  | _ = Lt => apply <- Qlt_alt in H
  | _ = Gt => apply <- Qgt_alt in H
  end.

Lemma round_half_even_ge_int (q : Q) (m : Z) :
  inject_Z m <= q -> (m <= round_half_even q)%Z.
Proof.
  intros Hq. pose proof (Qfloor_resp_le _ _ Hq) as Hf. rewrite Qfloor_Z in Hf.
  pose proof (round_half_even_floor q). lia.
Qed.

Lemma round_half_even_int (m : Z) : round_half_even (inject_Z m) = m.
Proof.
  pose proof (round_half_even_le_int (inject_Z m) m ltac:(lra)).
  pose proof (round_half_even_ge_int (inject_Z m) m ltac:(lra)). lia.
Qed.

Lemma round_half_even_compat (a b : Q) :
  a == b -> round_half_even a = round_half_even b.
Proof.
  intros E. unfold round_half_even.
  assert (Ef : Qfloor a = Qfloor b) by (by rewrite E).
  rewrite Ef. by rewrite E.
Qed.

Lemma round_half_even_mono (a b : Q) :
  a <= b -> (round_half_even a <= round_half_even b)%Z.
Proof.
  intros Hab.
  pose proof (Qfloor_resp_le _ _ Hab) as Hf.
  pose proof (round_half_even_floor a) as Ha.
  pose proof (round_half_even_floor b) as Hb.
  destruct (Z.eq_dec (Qfloor a) (Qfloor b)) as [E|]; [|lia].
  unfold round_half_even. rewrite <- E.
  destruct (Qcompare (a - inject_Z (Qfloor a)) (1 # 2)) eqn:Ca;
    destruct (Qcompare (b - inject_Z (Qfloor a)) (1 # 2)) eqn:Cb;
    try (destruct (Z.even (Qfloor a)); lia);
    qcmp Ca; qcmp Cb; try lia; exfalso; lra.
Qed.

Lemma round_half_even_opp (a : Q) :
  round_half_even (- a) = (- round_half_even a)%Z.
Proof.
  pose proof (Qfloor_le a) as Hlo. pose proof (Qlt_floor a) as Hhi.
  rewrite inject_Z_plus in Hhi. change (inject_Z 1) with 1 in Hhi.
  set (f := Qfloor a) in *.
  destruct (Qeq_dec a (inject_Z f)) as [E|Hne].
  - rewrite (round_half_even_compat a (inject_Z f) E).
    rewrite (round_half_even_compat (- a) (inject_Z (- f))).
    + by rewrite !round_half_even_int.
    + rewrite inject_Z_opp. by rewrite E.
  - assert (Hlo' : inject_Z f < a) by (apply Qle_lteq in Hlo as [|E]; [done|by rewrite E in Hne]).
    assert (Ef : Qfloor (- a) = (- f - 1)%Z).
    { pose proof (Qfloor_le (- a)) as L. pose proof (Qlt_floor (- a)) as U.
      rewrite inject_Z_plus in U. change (inject_Z 1) with 1 in U.
      set (g := Qfloor (- a)) in *.
      assert (inject_Z g < inject_Z (- f)) by (rewrite inject_Z_opp; lra).
      assert (inject_Z (- f - 2) < inject_Z g).
      { unfold Zminus. rewrite !inject_Z_plus, !inject_Z_opp.
        change (inject_Z 2) with 2. lra. }
      rewrite <- Zlt_Qlt in *. lia. }
    unfold round_half_even. rewrite Ef. fold f.
    assert (Eg : inject_Z (- f - 1) == - inject_Z f - 1).
    { unfold Zminus. rewrite inject_Z_plus, !inject_Z_opp. reflexivity. }
    destruct (Qcompare (a - inject_Z f) (1 # 2)) eqn:Ca;
      destruct (Qcompare (- a - inject_Z (- f - 1)) (1 # 2)) eqn:Cb;
      qcmp Ca; qcmp Cb; rewrite ?Eg in Cb; try (exfalso; lra).
    + replace (- f - 1)%Z with (- (f + 1))%Z by lia.
      rewrite Z.even_opp, Z.even_add. simpl.
      destruct (Z.even f); simpl; lia.
    + lia.
    + lia.
Qed.

(** ** Rounding to binary64: shape, symmetry, monotonicity, fixed points *)

Lemma Qabs_opp_eq (q : Q) : Qabs (- q) = Qabs q.
Proof. destruct q as [n d]. simpl. by rewrite Z.abs_opp. Qed.

Lemma Qred_pos (x : Q) : 0 < x -> 0 < Qred x.
Proof. intros. by rewrite Qred_correct. Qed.

Lemma Qred_num_nonzero (x : Q) : ~ x == 0 -> (Qnum (Qred x) =? 0)%Z = false.
Proof.
  intros Hx. apply Z.eqb_neq. intros E. by apply Hx, Qred_num_zero.
Qed.

(** The exponent and the significand of a positive number. *)
Lemma rnd_pos_shape (x : Q) :
  0 < x ->
  exists k e : Z,
    2 ^ k <= x /\ x < 2 ^ (k + 1) /\ e = Z.max (k - 52) (-1074) /\
    rnd x == inject_Z (round_half_even (x / 2 ^ e)) * 2 ^ e.
Proof.
  intros Hx. pose proof (Qred_pos x Hx) as Hq.
  pose proof (Qred_correct x) as Hr.
  destruct (ilog2_spec (Qred x) Hq) as [K1 K2].
  exists (ilog2 (Qred x)), (Z.max (ilog2 (Qred x) - 52) (-1074)).
  set (k := ilog2 (Qred x)) in *.
  split; [lra|]. split; [lra|]. split; [done|].
  unfold rnd. rewrite Qred_num_nonzero by lra.
  unfold ulp_exp. rewrite Qabs_pos_eq by done.
  set (e := Z.max _ _).
  rewrite (round_half_even_compat (Qred x / 2 ^ e) (x / 2 ^ e)); [reflexivity|].
  by rewrite Hr.
Qed.

Lemma rnd_zero (x : Q) : x == 0 -> rnd x = 0.
Proof. intros E. by rewrite (rnd_compat x 0 E). Qed.

Lemma rnd_opp (x : Q) : rnd (- x) == - rnd x.
Proof.
  unfold rnd. rewrite Qred_opp.
  replace (Qnum (- Qred x)) with (- Qnum (Qred x))%Z
    by (by destruct (Qred x)).
  destruct (Z.eqb_spec (Qnum (Qred x)) 0) as [E|Hne].
  - rewrite E. reflexivity.
  - replace (- Qnum (Qred x) =? 0)%Z with false
      by (symmetry; apply Z.eqb_neq; lia).
    unfold ulp_exp. rewrite Qabs_opp_eq.
    set (e := Z.max _ _). pose proof (pow2_pos e) as He.
    rewrite (round_half_even_compat (- Qred x / 2 ^ e) (- (Qred x / 2 ^ e)))
      by (field; lra).
    rewrite round_half_even_opp, inject_Z_opp. ring.
Qed.

Lemma rnd_nonpos (x : Q) : x <= 0 -> rnd x <= 0.
Proof.
  intros Hx. pose proof (rnd_nonneg (- x) ltac:(lra)) as H.
  rewrite rnd_opp in H. lra.
Qed.

Lemma rnd_mono_pos (x y : Q) : 0 < x -> x <= y -> rnd x <= rnd y.
Proof.
  intros Hx Hxy.
  destruct (rnd_pos_shape x Hx) as (kx & ex & X1 & X2 & Ex & ->).
  destruct (rnd_pos_shape y ltac:(lra)) as (ky & ey & Y1 & Y2 & Ey & ->).
  pose proof (pow2_pos ex) as Pex. pose proof (pow2_pos ey) as Pey.
  destruct (Z.lt_trichotomy ex ey) as [Hlt|[Heq|Hgt]].
  - (* the binade of [y] lies above that of [x]: [2^ky] separates them *)
    assert (Hey : ey = (ky - 52)%Z) by lia.
    assert (Hk : (kx + 1 <= ky)%Z) by lia.
    pose proof (pow2_le _ _ Hk) as Hp.
    assert (Hm : 2 ^ ky == inject_Z (2 ^ (ky - ex)) * 2 ^ ex).
    { rewrite pow2_int by lia. rewrite <- pow2_plus.
      by replace (ky - ex + ex)%Z with ky by lia. }
    assert (Hn : 2 ^ ky == inject_Z (2 ^ 52) * 2 ^ ey).
    { rewrite pow2_int by lia. rewrite <- pow2_plus.
      by replace (52 + ey)%Z with ky by lia. }
    assert (L : inject_Z (round_half_even (x / 2 ^ ex)) * 2 ^ ex <= 2 ^ ky).
    { rewrite Hm. apply Qmult_le_compat_r; [|lra].
      rewrite <- Zle_Qle. apply round_half_even_le_int.
      rewrite pow2_int by lia. apply scaled_le. lra. }
    assert (U : 2 ^ ky <= inject_Z (round_half_even (y / 2 ^ ey)) * 2 ^ ey).
    { rewrite Hn. apply Qmult_le_compat_r; [|lra].
      rewrite <- Zle_Qle. apply round_half_even_ge_int.
      rewrite pow2_int by lia.
      replace 52%Z with (ky - ey)%Z by lia. by apply scaled_ge. }
    lra.
  - subst ey. rewrite Heq. apply Qmult_le_compat_r; [|lra].
    rewrite <- Zle_Qle. apply round_half_even_mono.
    apply Qmult_le_compat_r; [done|].
    apply Qlt_le_weak, Qinv_lt_0_compat. lra.
  - exfalso.
    assert (Hk : (ky + 1 <= kx)%Z) by lia.
    pose proof (pow2_le _ _ Hk). lra.
Qed.

Lemma rnd_mono (x y : Q) : x <= y -> rnd x <= rnd y.
Proof.
  intros Hxy.
  destruct (Qlt_le_dec 0 x) as [Hx|Hx].
  - by apply rnd_mono_pos.
  - destruct (Qlt_le_dec y 0) as [Hy|Hy].
    + pose proof (rnd_mono_pos (- y) (- x) ltac:(lra) ltac:(lra)) as H.
      rewrite !rnd_opp in H. lra.
    + pose proof (rnd_nonpos x Hx). pose proof (rnd_nonneg y Hy). lra.
Qed.

(** A significand of at most 53 bits over an exponent the format has is
    a float: rounding leaves it alone. *)
Lemma rnd_exact (m e : Z) :
  (0 <= m <= 2 ^ 53)%Z -> (-1074 <= e)%Z ->
  rnd (inject_Z m * 2 ^ e) == inject_Z m * 2 ^ e.
Proof.
  intros Hm He. pose proof (pow2_pos e) as Pe.
  destruct (Z.eq_dec m 0%Z) as [->|Hne].
  { rewrite rnd_zero; ring. }
  set (v := inject_Z m * 2 ^ e).
  assert (M1 : 1 <= inject_Z m).
  { change 1 with (inject_Z 1). rewrite <- Zle_Qle. lia. }
  assert (M2 : inject_Z m <= 2 ^ 53).
  { rewrite <- pow2_int by lia. rewrite <- Zle_Qle. lia. }
  assert (Hv : 0 < v).
  { unfold v. apply Qmult_lt_0_compat; lra. }
  assert (Hv2 : v <= 2 ^ (53 + e)).
  { unfold v. rewrite pow2_plus. apply Qmult_le_compat_r; lra. }
  destruct (rnd_pos_shape v Hv) as (k & e' & K1 & K2 & Ee & ->).
  pose proof (pow2_pos e') as Pe'.
  assert (Hk : (k <= 53 + e)%Z) by (apply pow2_le_inv; lra).
  assert (Hint : exists j : Z, v / 2 ^ e' == inject_Z j).
  { destruct (Z_le_gt_dec e' e) as [Hle|Hgt].
    - exists (m * 2 ^ (e - e'))%Z. unfold v.
      rewrite inject_Z_mult, pow2_int by lia.
      replace e with (e - e' + e')%Z at 1 by lia. rewrite pow2_plus.
      field. lra.
    - assert (Hk' : k = (53 + e)%Z) by lia.
      assert (He' : e' = (e + 1)%Z) by lia.
      exists (2 ^ 52)%Z. rewrite pow2_int by lia.
      assert (Ev : v == 2 ^ (53 + e)).
      { apply Qle_antisym; [done|]. by rewrite <- Hk'. }
      rewrite Ev, He'. replace (53 + e)%Z with (52 + (e + 1))%Z by lia.
      rewrite pow2_plus. field.
      pose proof (pow2_pos (e + 1)). lra. }
  destruct Hint as (j & Ej).
  rewrite (round_half_even_compat _ _ Ej), round_half_even_int, <- Ej.
  field. lra.
Qed.

(** The result of a rounding is a float. *)
Lemma rnd_idem (x : Q) : rnd (rnd x) == rnd x.
Proof.
  assert (Hpos : forall x, 0 < x -> rnd (rnd x) == rnd x).
  { clear x. intros x Hx.
    destruct (rnd_pos_shape x Hx) as (k & e & K1 & K2 & Ee & Er).
    pose proof (pow2_pos e) as Pe.
    rewrite (rnd_compat _ _ Er), Er.
    apply rnd_exact; [|lia]. split.
    - apply round_half_even_nonneg.
      apply Qle_shift_div_l; [done|]. lra.
    - apply round_half_even_le_int. rewrite pow2_int by lia.
      apply Qle_trans with (2 ^ (k + 1 - e)).
      + apply scaled_le. lra.
      + apply pow2_le. lia. }
  destruct (Qlt_le_dec 0 x) as [Hx|Hx]; [by apply Hpos|].
  destruct (Qeq_dec x 0) as [E|Hne].
  { rewrite (rnd_zero x E). reflexivity. }
  assert (Hx' : 0 < - x).
  { apply Qle_lteq in Hx as [|E]; [lra|]. by rewrite E in Hne. }
  pose proof (Hpos (- x) Hx') as H.
  pose proof (rnd_opp x) as Eo.
  rewrite (rnd_compat _ _ Eo) in H. rewrite rnd_opp, Eo in H. lra.
Qed.

End Rounding.

(** ** The rounding model against the kernel's floats

    On the values the scripts compute, [Binary64] and Rocq's primitive
    binary64 floats agree bit for bit: the blends along the diagonal of
    an 800x800 gradient (every eighth pixel), and all quotients of small
    integers. *)

Lemma blend_agrees_on_diagonal :
  forallb (fun '(c1, c2) =>
     forallb (fun x => agrees c1 c2 (16 * x) 1600) (seqZ 0 100))
    channel_pairs = true.
Proof. vm_compute. reflexivity. Qed.

Lemma quotient_agrees_on_small_integers :
  forallb (fun a =>
     forallb (fun b =>
        Qeq_bool (prim_value (PrimFloat.div (prim_of_int a) (prim_of_int b)))
                 (Binary64.int_truediv a b)) (seqZ 1 40)) (seqZ 0 40) = true.
Proof. vm_compute. reflexivity. Qed.

(** ** Rasters and the double loop *)

Section Raster.

Lemma new_ok (w h : Z) :
  0 <= w -> 0 <= h ->
  exists im, Pillow.new w h = Ok im /\ well_formed im /\
    im_width im = w /\ im_height im = h /\ im_ops im = [].
Proof.
  intros Hw Hh. unfold Pillow.new.
  destruct (Z.ltb_spec w 0); [lia|]. destruct (Z.ltb_spec h 0); [lia|].
  eexists. split; [reflexivity|]. repeat split; simpl; try done.
  - by rewrite length_replicate.
  - apply Forall_replicate. by rewrite length_replicate.
Qed.

Lemma point_width im x y c : im_width (point im x y c) = im_width im.
Proof. unfold point. by destruct (_ && _). Qed.
Lemma point_height im x y c : im_height (point im x y c) = im_height im.
Proof. unfold point. by destruct (_ && _). Qed.
Lemma point_ops im x y c : im_ops (point im x y c) = im_ops im.
Proof. unfold point. by destruct (_ && _). Qed.

Lemma point_well_formed im x y c :
  well_formed im -> well_formed (point im x y c).
Proof.
  intros (Hw & Hh & Hlen & Hrows). unfold point.
  destruct (_ && _); [|done].
  repeat split; simpl; try done.
  - by rewrite length_alter.
  - apply Forall_alter; [done|]. intros row _ Hrow.
    rewrite Forall_lookup in Hrows. rewrite length_insert. eauto.
Qed.

Lemma getpixel_point_same im x y c :
  well_formed im -> 0 <= x < im_width im -> 0 <= y < im_height im ->
  getpixel (point im x y c) x y = Some (ink c).
Proof.
  intros (Hw & Hh & Hlen & Hrows) Hx Hy. unfold point, getpixel.
  replace ((0 <=? x) && (x <? im_width im) && (0 <=? y) && (y <? im_height im))
    with true by (symmetry; repeat (apply andb_true_intro; split); lia).
  replace ((0 <=? x) && (0 <=? y)) with true
    by (symmetry; apply andb_true_intro; split; lia).
  simpl.
  destruct (lookup_lt_is_Some_2 (im_px im) (Z.to_nat y)) as [row Hrow]; [lia|].
  rewrite list_lookup_alter_eq, Hrow. simpl.
  apply list_lookup_insert_eq.
  rewrite Forall_lookup in Hrows. rewrite (Hrows _ _ Hrow). lia.
Qed.

Lemma getpixel_point_other im x y c x' y' :
  (x, y) <> (x', y') ->
  getpixel (point im x y c) x' y' = getpixel im x' y'.
Proof.
  intros Hne. unfold point.
  destruct (_ && _) eqn:Hin; [|done].
  unfold getpixel. simpl.
  destruct ((0 <=? x') && (0 <=? y')) eqn:Hpos; [|done].
  destruct (decide (y = y')) as [->|Hy].
  - rewrite list_lookup_alter_eq.
    destruct (im_px im !! Z.to_nat y') as [row|]; [|done]. simpl.
    apply list_lookup_insert_ne.
    assert (x <> x') by congruence. lia.
  - rewrite list_lookup_alter_ne; [done|]. lia.
Qed.

Context (f : Z -> Z -> RGB).

Lemma paint_row_keeps xs y im :
  well_formed im ->
  well_formed (paint_row f xs y im) /\
  im_width (paint_row f xs y im) = im_width im /\
  im_height (paint_row f xs y im) = im_height im /\
  im_ops (paint_row f xs y im) = im_ops im.
Proof.
  unfold paint_row. revert im.
  induction xs as [|x xs IH]; intros im Hwf; simpl; [done|].
  destruct (IH (point im x y (f x y)) (point_well_formed _ _ _ _ Hwf))
    as (? & -> & -> & ->).
  by rewrite point_width, point_height, point_ops.
Qed.

Lemma paint_row_miss xs y im x' y' :
  x' ∉ xs \/ y' <> y ->
  getpixel (paint_row f xs y im) x' y' = getpixel im x' y'.
Proof.
  unfold paint_row. revert im.
  induction xs as [|x xs IH]; intros im Hne; simpl; [done|].
  rewrite IH.
  - apply getpixel_point_other. intros [= -> ->].
    destruct Hne as [Hne|Hne]; [|done]. apply Hne. left.
  - destruct Hne as [Hne|Hne]; [left|by right].
    intros Hin. apply Hne. by right.
Qed.

Lemma paint_row_hit xs y im x' :
  well_formed im ->
  x' ∈ xs -> 0 <= x' < im_width im -> 0 <= y < im_height im ->
  getpixel (paint_row f xs y im) x' y = Some (ink (f x' y)).
Proof.
  unfold paint_row. revert im.
  induction xs as [|x xs IH]; intros im Hwf Hin Hx Hy; simpl.
  { by apply elem_of_nil in Hin. }
  destruct (decide (x' ∈ xs)) as [Hin'|Hout].
  - apply IH; [by apply point_well_formed|done|..];
      by rewrite ?point_width, ?point_height.
  - apply elem_of_cons in Hin as [->|]; [|done].
    change (foldl _ ?i xs) with (paint_row f xs y i).
    rewrite paint_row_miss by (by left).
    by apply getpixel_point_same.
Qed.

Lemma paint_keeps xs ys im :
  well_formed im ->
  well_formed (paint f xs ys im) /\
  im_width (paint f xs ys im) = im_width im /\
  im_height (paint f xs ys im) = im_height im /\
  im_ops (paint f xs ys im) = im_ops im.
Proof.
  unfold paint. revert im.
  induction ys as [|y ys IH]; intros im Hwf; simpl; [done|].
  destruct (paint_row_keeps xs y im Hwf) as (Hwf' & Ew & Eh & Eo).
  destruct (IH _ Hwf') as (? & -> & -> & ->). by rewrite Ew, Eh, Eo.
Qed.

Lemma paint_miss xs ys im x' y' :
  y' ∉ ys -> getpixel (paint f xs ys im) x' y' = getpixel im x' y'.
Proof.
  unfold paint. revert im.
  induction ys as [|y ys IH]; intros im Hout; simpl; [done|].
  rewrite IH by (intros Hin; apply Hout; by right).
  apply paint_row_miss. right. intros ->. apply Hout. left.
Qed.

Lemma paint_hit xs ys im x' y' :
  well_formed im ->
  x' ∈ xs -> y' ∈ ys -> 0 <= x' < im_width im -> 0 <= y' < im_height im ->
  getpixel (paint f xs ys im) x' y' = Some (ink (f x' y')).
Proof.
  unfold paint. revert im.
  induction ys as [|y ys IH]; intros im Hwf Hx Hy Bx By; simpl.
  { by apply elem_of_nil in Hy. }
  destruct (paint_row_keeps xs y im Hwf) as (Hwf' & Ew & Eh & _).
  destruct (decide (y' ∈ ys)) as [Hin|Hout].
  - apply IH; try done; by rewrite ?Ew, ?Eh.
  - apply elem_of_cons in Hy as [->|]; [|done].
    change (foldl _ ?i ys) with (paint f xs ys i).
    rewrite paint_miss by done.
    by apply paint_row_hit.
Qed.

End Raster.

(** ** The gradient *)

Section Gradient.
Import Binary64.

Lemma create_gradient_paint w h c1 c2 d :
  create_gradient w h c1 c2 d =
  image ← Pillow.new w h;
  mret (paint (gradient_pixel d w h c1 c2) (range w) (range h) image).
Proof. reflexivity. Qed.

Lemma gradient_ratio_direction dir w h x y :
  gradient_ratio (direction_name dir) w h x y =
  interpolation_parameter dir w h x y.
Proof. by destruct dir. Qed.

Lemma int_truediv_unit (a b : Z) :
  0 <= a <= b -> 0 < b ->
  exists tau : Q, (0 <= tau <= 1)%Q /\ int_truediv a b = rnd tau /\
    (tau * inject_Z b == inject_Z a)%Q.
Proof.
  intros Ha Hb. exists (inject_Z a / inject_Z b)%Q.
  assert (HB : (0 < inject_Z b)%Q) by (change 0%Q with (inject_Z 0); by rewrite <- Zlt_Qlt).
  assert (HA : (0 <= inject_Z a <= inject_Z b)%Q).
  { change 0%Q with (inject_Z 0). rewrite <- !Zle_Qle. lia. }
  split; [split|split].
  - apply Qle_shift_div_l; [done|]. lra.
  - apply Qle_shift_div_r; [done|]. lra.
  - reflexivity.
  - field. lra.
Qed.

Lemma gradient_ratio_unit dir w h x y :
  1 <= w -> 1 <= h -> 0 <= x < w -> 0 <= y < h ->
  exists tau : Q, (0 <= tau <= 1)%Q /\
    interpolation_parameter dir w h x y = rnd tau.
Proof.
  intros Hw Hh Hx Hy.
  destruct dir; simpl;
    [destruct (int_truediv_unit (x + y) (w + h)) as (tau & ? & ? & _)
    |destruct (int_truediv_unit y h) as (tau & ? & ? & _)
    |destruct (int_truediv_unit x w) as (tau & ? & ? & _)];
    try lia; by exists tau.
Qed.

Lemma to_int_nonneg (v : float) : (0 <= v)%Q -> to_int v = Qfloor v.
Proof.
  intros Hv. unfold to_int.
  by rewrite (proj2 (Qle_bool_iff 0 v) Hv).
Qed.

Lemma blend_exact_range (c1 c2 : Z) (tau : Q) :
  0 <= c1 <= 255 -> 0 <= c2 <= 255 -> (0 <= tau <= 1)%Q ->
  (0 <= inject_Z c1 * (1 - tau) + inject_Z c2 * tau <= 255)%Q.
Proof.
  intros Hc1 Hc2 Ht.
  pose proof (inject_Z_channel c1 Hc1) as B1.
  pose proof (inject_Z_channel c2 Hc2) as B2.
  pose proof (Qmult_between (1 - tau) (inject_Z c1) 0 255 ltac:(lra) B1).
  pose proof (Qmult_between tau (inject_Z c2) 0 255 ltac:(lra) B2).
  lra.
Qed.

Lemma blend_channel_range (c1 c2 : Z) (tau : Q) :
  0 <= c1 <= 255 -> 0 <= c2 <= 255 -> (0 <= tau <= 1)%Q ->
  0 <= blend_channel c1 c2 (rnd tau) <= 255.
Proof.
  intros Hc1 Hc2 Ht.
  destruct (blend_value_bounds c1 c2 tau Hc1 Hc2 Ht) as (V0 & Vlo & Vhi).
  pose proof (blend_exact_range c1 c2 tau Hc1 Hc2 Ht) as HE.
  unfold blend_channel. fold (blend_value c1 c2 (rnd tau)).
  set (v := blend_value c1 c2 (rnd tau)) in *.
  rewrite to_int_nonneg by done. split.
  - apply (Qfloor_resp_le 0 v V0).
  - change 255 with (Qfloor (255 + delta)).
    apply Qfloor_resp_le. lra.
Qed.

Lemma ink_rgb (c : RGB) : is_rgb c -> ink c = c.
Proof.
  destruct c as [[r g] b]. unfold is_rgb, ink, clip8. simpl.
  intros (? & ? & ?). repeat f_equal; lia.
Qed.

Lemma gradient_pixel_rgb dir w h c1 c2 x y :
  1 <= w -> 1 <= h -> is_rgb c1 -> is_rgb c2 ->
  0 <= x < w -> 0 <= y < h ->
  is_rgb (gradient_pixel (direction_name dir) w h c1 c2 x y).
Proof.
  intros Hw Hh (? & ? & ?) (? & ? & ?) Hx Hy.
  unfold gradient_pixel. cbv zeta. rewrite gradient_ratio_direction.
  destruct (gradient_ratio_unit dir w h x y) as (tau & Ht & ->); try done.
  repeat split; simpl; by apply blend_channel_range.
Qed.

(** What [create_gradient] returns on non-negative sizes. *)
Lemma create_gradient_ok w h c1 c2 d :
  0 <= w -> 0 <= h ->
  exists image, create_gradient w h c1 c2 d = Ok image /\
    well_formed image /\ im_width image = w /\ im_height image = h /\
    im_ops image = [] /\
    forall x y, 0 <= x < w -> 0 <= y < h ->
      getpixel image x y = Some (ink (gradient_pixel d w h c1 c2 x y)).
Proof.
  intros Hw Hh. rewrite create_gradient_paint.
  destruct (new_ok w h Hw Hh) as (im & -> & Hwf & Ew & Eh & Eo).
  eexists. split; [reflexivity|].
  destruct (paint_keeps (gradient_pixel d w h c1 c2) (range w) (range h) im Hwf)
    as (Hwf' & Ew' & Eh' & Eo').
  split; [done|]. split; [congruence|]. split; [congruence|].
  split; [congruence|].
  intros x y Hx Hy.
  apply paint_hit; try done; unfold range; rewrite ?elem_of_seqZ; lia.
Qed.

End Gradient.

(** C1. For every width >= 1, height >= 1, RGB colours [color1] and
    [color2] and each of the three directions, [create_gradient] returns a
    width-by-height pixel buffer in which every channel of the pixel at
    [(x, y)] is the truncated blend [int(c1*(1-t) + c2*t)], with
    [t = (x+y)/(width+height)] for diagonal, [y/height] for vertical and
    [x/width] for horizontal. *)
Theorem create_gradient_pixels (width height : Z) (color1 color2 : RGB)
    (dir : Direction) :
  1 <= width -> 1 <= height -> is_rgb color1 -> is_rgb color2 ->
  exists image,
    create_gradient width height color1 color2 (direction_name dir) = Ok image /\
    im_width image = width /\ im_height image = height /\
    length (im_px image) = Z.to_nat height /\
    Forall (fun row => length row = Z.to_nat width) (im_px image) /\
    im_ops image = [] /\
    forall x y, 0 <= x < width -> 0 <= y < height ->
      let t := interpolation_parameter dir width height x y in
      getpixel image x y =
        Some (truncated_blend color1.1.1 color2.1.1 t,
              truncated_blend color1.1.2 color2.1.2 t,
              truncated_blend color1.2 color2.2 t).
Proof.
  intros Hw Hh Hc1 Hc2.
  destruct (create_gradient_ok width height color1 color2 (direction_name dir))
    as (image & Hrun & Hwf & Ew & Eh & Eo & Hpx); [lia..|].
  exists image. destruct Hwf as (_ & _ & Hlen & Hrows).
  rewrite Ew, Eh in *. repeat split; try done.
  intros x y Hx Hy t. rewrite (Hpx x y Hx Hy).
  rewrite ink_rgb by (apply gradient_pixel_rgb; done || lia).
  unfold gradient_pixel. cbv zeta. by rewrite gradient_ratio_direction.
Qed.

Lemma create_gradient_pixels_witness :
  exists image,
    create_gradient 3 2 (0, 0, 0) (255, 255, 255) "horizontal" = Ok image /\
    getpixel image 1 1 = Some (85, 85, 85).
Proof.
  destruct (create_gradient_pixels 3 2 (0, 0, 0) (255, 255, 255) Horizontal)
    as (image & Hrun & _ & _ & _ & _ & _ & Hpx);
    [lia | lia | unfold is_rgb; simpl; lia | unfold is_rgb; simpl; lia |].
  exists image. split; [exact Hrun|].
  rewrite (Hpx 1 1) by lia. vm_compute. reflexivity.
Defined.

(** ** The boundary of the gradient *)

Section Boundary.
Import Binary64.

Lemma int_truediv_zero (b : Z) : int_truediv 0 b = 0%Q.
Proof.
  unfold int_truediv.
  rewrite (rnd_compat (inject_Z 0 / inject_Z b) 0); [reflexivity|].
  unfold Qdiv. change (inject_Z 0) with 0%Q. ring.
Qed.

Lemma rnd_channel (c : Z) (x : Q) :
  0 <= c <= 255 -> (x == inject_Z c)%Q -> (rnd x == inject_Z c)%Q.
Proof.
  intros Hc Hx. rewrite (rnd_compat _ _ Hx). by apply of_int_exact.
Qed.

Lemma blend_channel_zero (c1 c2 : Z) :
  0 <= c1 <= 255 -> 0 <= c2 <= 255 -> blend_channel c1 c2 0%Q = c1.
Proof.
  intros Hc1 Hc2. unfold blend_channel, add, mul, sub.
  pose proof (of_int_exact c1 Hc1) as E1.
  pose proof (of_int_exact c2 Hc2) as E2.
  pose proof (of_int_exact 1 ltac:(lia)) as E0.
  change (inject_Z 1) with 1%Q in E0.
  assert (S1 : (rnd (of_int 1 - 0) == 1)%Q).
  { apply (rnd_channel 1); [lia|]. rewrite E0. reflexivity. }
  assert (P1 : (rnd (of_int c1 * rnd (of_int 1 - 0)) == inject_Z c1)%Q).
  { apply rnd_channel; [done|]. rewrite S1, E1. ring. }
  assert (P2 : (rnd (of_int c2 * 0) == 0)%Q).
  { apply (rnd_channel 0); [lia|]. change (inject_Z 0) with 0%Q. ring. }
  assert (V : (rnd (rnd (of_int c1 * rnd (of_int 1 - 0)) + rnd (of_int c2 * 0))
               == inject_Z c1)%Q).
  { apply rnd_channel; [done|]. rewrite P1, P2. ring. }
  rewrite to_int_nonneg.
  - rewrite V. apply Qfloor_Z.
  - rewrite V. change 0%Q with (inject_Z 0). rewrite <- Zle_Qle. lia.
Qed.

Lemma ceil_div_bound (n b : Z) :
  0 < b -> n <= b * ((n + b - 1) / b).
Proof. intros Hb. Z.div_mod_to_equations. nia. Qed.

Lemma blend_channel_near (c1 c2 a b : Z) :
  0 <= c1 <= 255 -> 0 <= c2 <= 255 -> 0 <= a <= b -> 0 < b ->
  Z.abs (blend_channel c1 c2 (int_truediv a b) - c2)
    <= ((b - a) * Z.abs (c1 - c2) + b - 1) / b + 1.
Proof.
  intros Hc1 Hc2 Ha Hb.
  destruct (int_truediv_unit a b Ha Hb) as (tau & Ht & -> & Hab).
  destruct (blend_value_bounds c1 c2 tau Hc1 Hc2 Ht) as (V0 & Vlo & Vhi).
  unfold blend_channel. fold (blend_value c1 c2 (rnd tau)).
  set (v := blend_value c1 c2 (rnd tau)) in *.
  rewrite to_int_nonneg by done.
  set (K := ((b - a) * Z.abs (c1 - c2) + b - 1) / b).
  pose proof (ceil_div_bound ((b - a) * Z.abs (c1 - c2)) b Hb) as HK.
  fold K in HK.
  (* the exact blend is within K of c2 *)
  assert (HB : (0 < inject_Z b)%Q)
    by (change 0%Q with (inject_Z 0); by rewrite <- Zlt_Qlt).
  assert (HE : (inject_Z c2 - inject_Z K
                <= inject_Z c1 * (1 - tau) + inject_Z c2 * tau
                <= inject_Z c2 + inject_Z K)%Q).
  { assert (Hu : ((1 - tau) * inject_Z b == inject_Z (b - a))%Q).
    { unfold Zminus. rewrite inject_Z_plus, inject_Z_opp. lra. }
    assert (Hd : (- inject_Z K * inject_Z b
                  <= inject_Z (c1 - c2) * inject_Z (b - a)
                  <= inject_Z K * inject_Z b)%Q).
    { rewrite <- inject_Z_opp, <- !inject_Z_mult, <- !Zle_Qle. nia. }
    assert (Hx : (- inject_Z K <= inject_Z (c1 - c2) * (1 - tau)
                  <= inject_Z K)%Q).
    { split.
      - apply (Qmult_le_r _ _ (inject_Z b)); [done|].
        rewrite <- Qmult_assoc, Hu. apply Hd.
      - apply (Qmult_le_r _ _ (inject_Z b)); [done|].
        rewrite <- Qmult_assoc, Hu. apply Hd. }
    unfold Zminus in Hx. rewrite inject_Z_plus, inject_Z_opp in Hx.
    lra. }
  pose proof (Qfloor_le v) as Flo.
  pose proof (Qlt_floor v) as Fhi.
  unfold delta in *.
  assert (Hup : Qfloor v < c2 + K + 1).
  { rewrite Zlt_Qlt, !inject_Z_plus. change (inject_Z 1) with 1%Q. lra. }
  assert (Hdn : c2 - K - 1 < Qfloor v + 1).
  { rewrite Zlt_Qlt. unfold Zminus.
    rewrite !inject_Z_plus, !inject_Z_opp. change (inject_Z 1) with 1%Q.
    rewrite inject_Z_plus in Fhi.  change (inject_Z 1) with 1%Q in Fhi. lra. }
  lia.
Qed.

Lemma blend_channel_far (c1 c2 a b m : Z) :
  0 <= c1 <= 255 -> 0 <= c2 <= 255 -> 0 <= a <= b -> 0 < b -> m = b - a ->
  Z.abs (blend_channel c1 c2 (int_truediv a b) - c2)
    <= (m * Z.abs (c1 - c2) + b - 1) / b + 1.
Proof. intros ? ? ? ? ->. by apply blend_channel_near. Qed.

End Boundary.

(** C4, as amended. For every valid colour pair, direction and size, the
    pixel at [(0, 0)] is exactly [color1]; the far corner
    [(width-1, height-1)] is the blend at [t = 1 - 1/height] (vertical),
    [1 - 1/width] (horizontal) or [1 - 2/(width+height)] (diagonal), so
    each of its channels is within [ceil(|c1 - c2| * (1 - t)) + 1] of
    [color2]. *)
Theorem gradient_boundary (width height : Z) (color1 color2 : RGB)
    (dir : Direction) :
  1 <= width -> 1 <= height -> is_rgb color1 -> is_rgb color2 ->
  exists image last,
    create_gradient width height color1 color2 (direction_name dir) = Ok image /\
    getpixel image 0 0 = Some color1 /\
    getpixel image (width - 1) (height - 1) = Some last /\
    within (far_slack dir width height color1.1.1 color2.1.1,
            far_slack dir width height color1.1.2 color2.1.2,
            far_slack dir width height color1.2 color2.2)
           last color2.
Proof.
  intros Hw Hh Hc1 Hc2.
  destruct (create_gradient_ok width height color1 color2 (direction_name dir))
    as (image & Hrun & _ & _ & _ & _ & Hpx); [lia..|].
  exists image, (gradient_pixel (direction_name dir) width height color1 color2
                   (width - 1) (height - 1)).
  split; [done|]. split; [|split].
  - rewrite (Hpx 0 0) by lia.
    rewrite ink_rgb by (apply gradient_pixel_rgb; done || lia).
    unfold gradient_pixel. cbv zeta. rewrite gradient_ratio_direction.
    assert (Ht : interpolation_parameter dir width height 0 0 = 0%Q)
      by (destruct dir; apply int_truediv_zero).
    rewrite Ht. destruct Hc1 as (? & ? & ?), Hc2 as (? & ? & ?).
    rewrite !blend_channel_zero by done.
    by destruct color1 as [[??]?].
  - rewrite (Hpx (width - 1) (height - 1)) by lia.
    by rewrite ink_rgb by (apply gradient_pixel_rgb; done || lia).
  - unfold gradient_pixel, within, far_slack. cbv zeta.
    rewrite gradient_ratio_direction.
    destruct Hc1 as (? & ? & ?), Hc2 as (? & ? & ?).
    destruct dir; simpl.
    all: repeat split; apply blend_channel_far; lia.
Qed.

Lemma gradient_boundary_witness :
  exists image last,
    create_gradient 800 800 (200, 200, 200) (150, 150, 150) "diagonal" = Ok image /\
    getpixel image 0 0 = Some (200, 200, 200) /\
    getpixel image 799 799 = Some last /\
    within (2, 2, 2) last (150, 150, 150).
Proof.
  apply (gradient_boundary 800 800 (200, 200, 200) (150, 150, 150) Diagonal);
    unfold is_rgb; simpl; lia.
Defined.

(** C4, as the specification words it, fails: a 10x1 horizontal gradient
    from black to white ends on (229, 229, 229), 26 units away from
    [color2] on every channel. *)
Lemma boundary_claim_fails : ~ boundary_claim 25.
Proof.
  intros Hclaim.
  destruct (Hclaim 10 1 (0, 0, 0) (255, 255, 255) Horizontal)
    as (image & first & last & Hrun & _ & _ & Hlast & Hnear);
    [lia | lia | unfold is_rgb; simpl; lia | unfold is_rgb; simpl; lia |].
  vm_compute in Hrun. injection Hrun as <-.
  vm_compute in Hlast. injection Hlast as <-.
  destruct Hnear as (Hr & _). simpl in Hr. lia.
Qed.

Lemma Ok_inj {A} (a b : A) : Ok a = Ok b -> a = b.
Proof. by intros [= ->]. Qed.

(** ** Drawing calls *)

Section Drawing.
Context (paint : Rasteriser).

Lemma draw_ok im op :
  inverted op = false -> draw paint im op = Ok (drawn paint im [op]).
Proof. unfold draw. by intros ->. Qed.

Lemma draw_inverted im op :
  inverted op = true -> draw paint im op = Raise ValueError.
Proof. unfold draw. by intros ->. Qed.

Lemma drawn_nil im : drawn paint im [] = im.
Proof. destruct im. unfold drawn. simpl. by rewrite app_nil_r. Qed.

Lemma drawn_app im ops1 ops2 :
  drawn paint (drawn paint im ops1) ops2 = drawn paint im (ops1 ++ ops2).
Proof.
  unfold drawn. cbn [im_width im_height im_px im_ops].
  by rewrite foldl_app, app_assoc.
Qed.

Lemma for_each_draw {A} (g : A -> DrawOp) (l : list A) (im : Image) :
  Forall (fun a => inverted (g a) = false) l ->
  for_each (fun im a => draw paint im (g a)) im l
  = Ok (drawn paint im (g <$> l)).
Proof.
  intros Hl. revert im.
  induction Hl as [|a l Ha _ IH]; intros im; cbn [for_each fmap list_fmap].
  - by rewrite drawn_nil.
  - rewrite (draw_ok _ _ Ha), bind_Ok, IH, drawn_app. reflexivity.
Qed.

Lemma draw_all (ops : list DrawOp) (im : Image) :
  Forall (fun op => inverted op = false) ops ->
  for_each (draw paint) im ops = Ok (drawn paint im ops).
Proof.
  intros H. rewrite <- (list_fmap_id ops) at 2.
  by apply (for_each_draw id).
Qed.

End Drawing.

(** ** The composer *)

Section Shapes.
Import Binary64.

Lemma disc_upright (cx cy r : Z) (fill : RGB) :
  0 <= r ->
  inverted (Ellipse (inject_Z (cx - r)) (inject_Z (cy - r))
                    (inject_Z (cx + r)) (inject_Z (cy + r)) fill) = false.
Proof.
  intros Hr. cbn [inverted].
  assert (Hx : Qle_bool (inject_Z (cx - r)) (inject_Z (cx + r)) = true).
  { apply Qle_bool_iff. rewrite <- Zle_Qle. lia. }
  assert (Hy : Qle_bool (inject_Z (cy - r)) (inject_Z (cy + r)) = true).
  { apply Qle_bool_iff. rewrite <- Zle_Qle. lia. }
  by rewrite Hx, Hy.
Qed.

Lemma disc_inverted (cx cy r : Z) (fill : RGB) :
  r < 0 ->
  inverted (Ellipse (inject_Z (cx - r)) (inject_Z (cy - r))
                    (inject_Z (cx + r)) (inject_Z (cy + r)) fill) = true.
Proof.
  intros Hr. cbn [inverted].
  destruct (Qle_bool (inject_Z (cx - r)) (inject_Z (cx + r))) eqn:Hx; [|done].
  apply Qle_bool_iff in Hx. rewrite <- Zle_Qle in Hx. lia.
Qed.

(** A box [x - s, x + s] with [s >= 0] is never inverted, whatever the
    rounding of its corners does. *)
Lemma spread_upright (x s : Q) :
  (0 <= s)%Q -> Qle_bool (sub x s) (add x s) = true.
Proof.
  intros Hs. apply Qle_bool_iff. unfold sub, add. apply rnd_mono. lra.
Qed.

(** Nor is a box from a float [x] to [x + s]. *)
Lemma reach_upright (x s : Q) :
  (rnd x == x)%Q -> (0 <= s)%Q -> Qle_bool x (add x s) = true.
Proof.
  intros Hx Hs. apply Qle_bool_iff. unfold add.
  rewrite <- Hx at 1. apply rnd_mono. lra.
Qed.

Lemma of_int_nonneg (n : Z) : 0 <= n -> (0 <= of_int n)%Q.
Proof.
  intros Hn. unfold of_int. apply rnd_nonneg.
  change 0%Q with (inject_Z 0). by rewrite <- Zle_Qle.
Qed.

Lemma scale_float (n : Z) (factor : Q) :
  (rnd (scale n factor) == scale n factor)%Q.
Proof. unfold scale, mul. apply rnd_idem. Qed.

Lemma powder_dot_upright env cx cy r color i :
  inverted (powder_dot env cx cy r color i) = false.
Proof.
  unfold powder_dot. cbv zeta. cbn [inverted].
  pose proof (sample_size_range (seeded_42 env i)) as Hs.
  assert (Hsize : (0 <= of_int (sample_size (seeded_42 env i)))%Q)
    by (apply of_int_nonneg; lia).
  by rewrite !spread_upright.
Qed.

Lemma leaf_upright (x y : Q) (size : Z) (color : RGB) :
  (rnd x == x)%Q -> (rnd y == y)%Q -> 0 <= size ->
  Forall (fun op => inverted op = false) (leaf_ops x y size color).
Proof.
  intros Hx Hy Hs. unfold leaf_ops.
  apply Forall_cons_2; [|apply Forall_cons_2; [reflexivity|apply Forall_nil_2]].
  cbn [inverted].
  rewrite !reach_upright; try done; apply of_int_nonneg; lia.
Qed.

End Shapes.

Section Composer.
Context (env : Env).

Lemma powder_circle_ok im cx cy r color :
  0 <= r ->
  draw_matcha_powder_circle env im cx cy r color
  = Ok (drawn (rasterise env) im (powder_circle env cx cy r color)).
Proof.
  intros Hr. unfold draw_matcha_powder_circle.
  rewrite (draw_ok _ _ _ (disc_upright cx cy r color Hr)), bind_Ok.
  cbv zeta.
  change (for_each _ ?im0 (seq 0 50))
    with (for_each (fun im a => draw (rasterise env) im
                                  (powder_dot env cx cy r color a))
            im0 (seq 0 50)).
  rewrite for_each_draw, drawn_app; [reflexivity|].
  apply Forall_forall. intros i _. apply powder_dot_upright.
Qed.

Lemma powder_circle_negative im cx cy r color :
  r < 0 -> draw_matcha_powder_circle env im cx cy r color = Raise ValueError.
Proof.
  intros Hr. unfold draw_matcha_powder_circle.
  by rewrite (draw_inverted _ _ _ (disc_inverted cx cy r color Hr)).
Qed.

Lemma tea_leaves_ok im x y size color :
  (Binary64.rnd x == x)%Q -> (Binary64.rnd y == y)%Q -> 0 <= size ->
  draw_tea_leaves env im x y size color
  = Ok (drawn (rasterise env) im (leaf_ops x y size color)).
Proof.
  intros Hx Hy Hs.
  pose proof (leaf_upright x y size color Hx Hy Hs) as Hl.
  unfold leaf_ops in Hl.
  apply Forall_cons_1 in Hl as [Hblade Hl].
  apply Forall_cons_1 in Hl as [Hstem _].
  unfold draw_tea_leaves. cbv zeta.
  rewrite (draw_ok _ _ _ Hblade), bind_Ok.
  rewrite (draw_ok _ _ _ Hstem), drawn_app. reflexivity.
Qed.

(** The composer up to its last call: the shapes and the three texts go
    through for every size that [Image.new] accepts; the border is then
    drawn on the result. *)
Lemma compose_border product w h colors :
  0 <= w -> 0 <= h ->
  exists base,
    create_gradient w h (secondary colors) (primary colors) "diagonal"
      = Ok base /\
    im_width base = w /\ im_height base = h /\ im_ops base = [] /\
    compose env product w h colors
    = draw (rasterise env)
        (drawn (rasterise env) base
           (decoration env w h colors
            ++ labels env product w h (load_fonts env)))
        (border w h colors).
Proof.
  intros Hw Hh.
  destruct (create_gradient_ok w h (secondary colors) (primary colors)
              "diagonal" Hw Hh) as (base & Hrun & _ & Ew & Eh & Eo & _).
  exists base. split; [exact Hrun|]. split; [exact Ew|].
  split; [exact Eh|]. split; [exact Eo|].
  unfold compose. rewrite Hrun, bind_Ok. cbv zeta.
  rewrite powder_circle_ok, bind_Ok
    by (apply Z.div_pos; [apply Z.min_glb|]; lia).
  rewrite !tea_leaves_ok, !bind_Ok by (try apply scale_float; lia).
  rewrite !tea_leaves_ok, !bind_Ok by (try apply scale_float; lia).
  rewrite !tea_leaves_ok, !bind_Ok by (try apply scale_float; lia).
  rewrite !tea_leaves_ok, !bind_Ok by (try apply scale_float; lia).
  unfold labels, decoration.
  destruct (load_fonts env) as [font_large font_small]. cbn [fst snd].
  destruct (textbbox env font_large (name product)) as [[[b0 ?] b2] ?].
  destruct (textbbox env font_small ("Grade: " +:+ grade product))
    as [[[g0 ?] g2] ?].
  cbn [fst snd].
  do 3 (rewrite (draw_ok _ _ (Text _ _ _ _ _ _)) by reflexivity;
        rewrite bind_Ok).
  rewrite !drawn_app. unfold border.
  rewrite <- !app_assoc. reflexivity.
Qed.

Lemma border_upright w h colors :
  1 <= w -> 1 <= h -> inverted (border w h colors) = false.
Proof.
  intros Hw Hh. unfold border. cbn [inverted].
  destruct (Z.ltb_spec (w - 1) 0); [lia|].
  destruct (Z.ltb_spec (h - 1) 0); [lia|]. reflexivity.
Qed.

Lemma border_inverted w h colors :
  w < 1 \/ h < 1 -> inverted (border w h colors) = true.
Proof.
  intros Hwh. unfold border. cbn [inverted].
  destruct (Z.ltb_spec (w - 1) 0); [done|].
  destruct (Z.ltb_spec (h - 1) 0); [done|]. lia.
Qed.

Lemma compose_ok product w h colors :
  1 <= w -> 1 <= h ->
  exists base,
    create_gradient w h (secondary colors) (primary colors) "diagonal"
      = Ok base /\
    compose env product w h colors
    = Ok {| im_width := w; im_height := h;
            im_px := foldl (fun px op => rasterise env op px) (im_px base)
                       (artwork env product w h colors);
            im_ops := artwork env product w h colors |}.
Proof.
  intros Hw Hh.
  destruct (compose_border product w h colors) as
    (base & Hbase & Ew & Eh & Eo & ->); [lia..|].
  exists base. split; [exact Hbase|].
  rewrite (draw_ok _ _ _ (border_upright w h colors Hw Hh)), drawn_app.
  unfold drawn, artwork, captions.
  rewrite Ew, Eh, Eo, <- app_assoc. reflexivity.
Qed.

Lemma compose_flat product w h colors :
  w < 1 \/ h < 1 -> compose env product w h colors = Raise ValueError.
Proof.
  intros Hwh.
  destruct (decide (0 <= w /\ 0 <= h)) as [[Hw Hh]|Hneg].
  - destruct (compose_border product w h colors Hw Hh) as
      (base & _ & _ & _ & _ & ->).
    apply draw_inverted, border_inverted, Hwh.
  - unfold compose. rewrite create_gradient_paint. unfold Pillow.new.
    destruct (Z.ltb_spec w 0); [reflexivity|].
    destruct (Z.ltb_spec h 0); [reflexivity|]. lia.
Qed.

Lemma GRADE_COLORS_keys (g : string) :
  g ∉ GRADES -> GRADE_COLORS !! g = None.
Proof.
  unfold GRADES. rewrite !not_elem_of_cons. intros (? & ? & ? & ? & _).
  unfold GRADE_COLORS. by rewrite !lookup_insert_ne, lookup_empty.
Qed.

Lemma GRADE_COLORS_Premium : GRADE_COLORS !! "Premium" = Some PREMIUM.
Proof.
  unfold GRADE_COLORS.
  rewrite lookup_insert_ne by done. by rewrite lookup_insert_eq.
Qed.

Lemma palette_for_lookup (g : string) :
  palette_for g = Ok (default PREMIUM (GRADE_COLORS !! g)).
Proof.
  unfold palette_for, getitem, get. rewrite GRADE_COLORS_Premium.
  simpl. by destruct (GRADE_COLORS !! g).
Qed.

Lemma generate_product_image_compose product w h :
  generate_product_image env product (w, h) =
  compose env product w h (default PREMIUM (GRADE_COLORS !! grade product)).
Proof.
  unfold generate_product_image. by rewrite palette_for_lookup.
Qed.

(** The image [generate_product_image] returns for a size of at least
    1x1: the gradient of the selected palette under the artwork. *)
Lemma generate_product_image_ok product w h :
  1 <= w -> 1 <= h ->
  exists colors base,
    palette_for (grade product) = Ok colors /\
    colors = default PREMIUM (GRADE_COLORS !! grade product) /\
    create_gradient w h (secondary colors) (primary colors) "diagonal"
      = Ok base /\
    generate_product_image env product (w, h)
    = Ok {| im_width := w; im_height := h;
            im_px := foldl (fun px op => rasterise env op px) (im_px base)
                       (artwork env product w h colors);
            im_ops := artwork env product w h colors |}.
Proof.
  intros Hw Hh.
  destruct (compose_ok product w h
              (default PREMIUM (GRADE_COLORS !! grade product)) Hw Hh)
    as (base & Hbase & Hrun).
  eexists _, base. split; [apply palette_for_lookup|].
  split; [reflexivity|]. split; [exact Hbase|].
  by rewrite generate_product_image_compose.
Qed.

Lemma load_fonts_fallback (e : exn) :
  truetype env BOLD 36 = Raise e \/ truetype env REGULAR 24 = Raise e ->
  load_fonts env = (DefaultFont, DefaultFont).
Proof.
  unfold load_fonts, BOLD, REGULAR. intros [H|H]; rewrite H; [done|].
  by destruct (truetype env _ 36).
Qed.

Lemma decoration_no_text w h colors :
  Forall (fun op => ~ is_text op) (decoration env w h colors).
Proof.
  unfold decoration, powder_circle, leaf_ops.
  apply Forall_cons_2; [simpl; tauto|].
  rewrite !Forall_app. split.
  { apply Forall_fmap, Forall_forall. intros i _. simpl. tauto. }
  repeat split; repeat (apply Forall_cons_2; [simpl; tauto|]);
    apply Forall_nil_2.
Qed.

Lemma decoration_length w h colors :
  length (decoration env w h colors) = 59%nat.
Proof.
  unfold decoration, powder_circle.
  rewrite !length_app. cbn [length].
  rewrite length_fmap, length_seq. reflexivity.
Qed.

Lemma artwork_head product w h colors :
  head (artwork env product w h colors)
  = Some (powder_disc w h (accent colors)).
Proof. reflexivity. Qed.

Lemma artwork_last product w h colors :
  last (artwork env product w h colors) = Some (border w h colors).
Proof. unfold artwork, captions. by rewrite !app_assoc, last_snoc. Qed.

End Composer.

(** C3. For every grade that is not a key of the palette table, the
    composer substitutes the default palette and completes the rendering
    with it: for every size of at least 1x1 it returns the image of that
    size made of the diagonal gradient from (160, 200, 120) to
    (85, 150, 80) under the disc, dots, leaves, captions and border drawn
    with the default palette, from the disc in (50, 100, 45) to the
    border in the same colour. *)
Theorem unknown_grade_renders (env : Env) (product : Product)
    (width height : Z) :
  grade product ∉ GRADES -> 1 <= width -> 1 <= height ->
  exists image base,
    GRADE_COLORS !! grade product = None /\
    palette_for (grade product) = Ok PREMIUM /\
    create_gradient width height (160, 200, 120) (85, 150, 80) "diagonal"
      = Ok base /\
    generate_product_image env product (width, height) = Ok image /\
    im_width image = width /\ im_height image = height /\
    im_ops image = artwork env product width height PREMIUM /\
    im_px image
      = foldl (fun px op => rasterise env op px) (im_px base) (im_ops image) /\
    head (im_ops image) = Some (powder_disc width height (50, 100, 45)) /\
    last (im_ops image)
      = Some (Rectangle 0 0 (width - 1) (height - 1) (50, 100, 45) 3).
Proof.
  intros Hg Hw Hh.
  pose proof (GRADE_COLORS_keys _ Hg) as Hnone.
  destruct (generate_product_image_ok env product width height Hw Hh)
    as (colors & base & Hpal & -> & Hbase & Hrun).
  rewrite Hnone in Hpal, Hbase, Hrun. cbn [default] in Hpal, Hbase, Hrun.
  eexists _, base. split; [exact Hnone|]. split; [exact Hpal|].
  split; [exact Hbase|]. split; [exact Hrun|].
  cbn [im_width im_height im_ops im_px].
  split; [reflexivity|]. split; [reflexivity|]. split; [reflexivity|].
  split; [reflexivity|]. split; [apply artwork_head|apply artwork_last].
Qed.

Lemma unknown_grade_renders_witness :
  exists image,
    generate_product_image bare_machine
      {| slug := "house-blend"; name := "House Blend"; grade := "Reserve" |}
      (4, 4) = Ok image /\
    head (im_ops image) = Some (powder_disc 4 4 (50, 100, 45)).
Proof.
  destruct (unknown_grade_renders bare_machine
              {| slug := "house-blend"; name := "House Blend";
                 grade := "Reserve" |} 4 4)
    as (image & base & _ & _ & _ & Hrun & _ & _ & _ & _ & Hhead & _).
  - unfold GRADES. simpl. rewrite !not_elem_of_cons.
    repeat split; try discriminate. apply not_elem_of_nil.
  - lia.
  - lia.
  - exists image. split; [exact Hrun | exact Hhead].
Defined.

(** C10. For a grade outside the four defined ones, the palette the
    composer selects is exactly the Premium palette: primary (85,150,80),
    secondary (160,200,120), accent (50,100,45); the selection is the
    same as for the grade "Premium". *)
Theorem default_palette_is_premium (g : string) :
  g ∉ GRADES ->
  palette_for g = Ok {| primary := (85, 150, 80);
                        secondary := (160, 200, 120);
                        accent := (50, 100, 45) |} /\
  palette_for g = palette_for "Premium" /\
  GRADE_COLORS !! "Premium" = Some {| primary := (85, 150, 80);
                                      secondary := (160, 200, 120);
                                      accent := (50, 100, 45) |}.
Proof.
  intros Hg. rewrite !palette_for_lookup, (GRADE_COLORS_keys _ Hg).
  by rewrite GRADE_COLORS_Premium.
Qed.

Lemma default_palette_is_premium_witness :
  palette_for "Reserve" = palette_for "Premium".
Proof.
  apply (default_palette_is_premium "Reserve").
  unfold GRADES. rewrite !not_elem_of_cons.
  repeat split; try discriminate. apply not_elem_of_nil.
Defined.

(** C8, as amended. The powder circle is the first shape drawn on the
    gradient: a disc in the palette's accent colour, of radius
    [min(width, height) // 4], centred horizontally at [width // 2] and
    vertically at [height // 2 - 50], fifty pixels above the middle. *)
Theorem powder_circle_placement (env : Env) (product : Product)
    (width height : Z) :
  1 <= width -> 1 <= height ->
  exists image colors,
    palette_for (grade product) = Ok colors /\
    generate_product_image env product (width, height) = Ok image /\
    let center_x := width / 2 in
    let center_y := height / 2 - 50 in
    let radius := Z.min width height / 4 in
    head (im_ops image) =
      Some (Ellipse (inject_Z (center_x - radius)) (inject_Z (center_y - radius))
                    (inject_Z (center_x + radius)) (inject_Z (center_y + radius))
                    (accent colors)).
Proof.
  intros Hw Hh.
  destruct (generate_product_image_ok env product width height Hw Hh)
    as (colors & base & Hpal & _ & _ & Hrun).
  eexists _, colors. split; [exact Hpal|]. split; [exact Hrun|]. reflexivity.
Qed.

Lemma powder_circle_placement_witness :
  exists image colors,
    palette_for "Culinary" = Ok colors /\
    generate_product_image bare_machine
      {| slug := "cafe-blend-matcha"; name := "Cafe Blend Matcha"; grade := "Culinary" |}
      (800, 800) = Ok image /\
    head (im_ops image) = Some (Ellipse 200 150 600 550 (accent colors)).
Proof.
  apply (powder_circle_placement bare_machine
           {| slug := "cafe-blend-matcha"; name := "Cafe Blend Matcha";
              grade := "Culinary" |} 800 800); lia.
Defined.

(** C8, as the specification words it, fails: on the default 800x800 canvas
    the disc spans rows 150 to 550, centred on row 350 and not on the
    middle row 400. *)
Lemma powder_circle_claim_fails : ~ powder_circle_claim.
Proof.
  intros Hclaim.
  destruct (Hclaim bare_machine
              {| slug := "cafe-blend-matcha"; name := "Cafe Blend Matcha";
                 grade := "Culinary" |} 800 800)
    as (image & colors & Hpal & Hrun & Hhead); [lia..|].
  destruct (generate_product_image_ok bare_machine
              {| slug := "cafe-blend-matcha"; name := "Cafe Blend Matcha";
                 grade := "Culinary" |} 800 800)
    as (colors' & base & Hpal' & _ & _ & Hrun'); [lia..|].
  rewrite Hrun' in Hrun. apply Ok_inj in Hrun. subst image.
  cbn [im_ops] in Hhead. rewrite artwork_head in Hhead.
  apply (f_equal (fun o => match o with
                           | Some (Ellipse _ y0 _ _ _) => y0
                           | _ => 0%Q
                           end)) in Hhead.
  discriminate Hhead.
Qed.

(** C9. If loading either of the preferred fonts fails, for whatever
    reason, the composer falls back to the built-in font for both and
    still returns the image: every text on it is set in the built-in
    font, and no exception reaches the caller. *)
Theorem font_failure_recovered (env : Env) (product : Product)
    (width height : Z) (e : exn) :
  1 <= width -> 1 <= height ->
  truetype env BOLD 36 = Raise e \/ truetype env REGULAR 24 = Raise e ->
  load_fonts env = (load_default, load_default) /\
  exists image,
    generate_product_image env product (width, height) = Ok image /\
    Forall uses_default_font (im_ops image) /\
    (exists x y, Text x y (name product) DefaultFont (255, 255, 255) None
                   ∈ im_ops image) /\
    (exists x y, Text x y ("Grade: " +:+ grade product) DefaultFont
                   (255, 255, 255) (Some 200) ∈ im_ops image).
Proof.
  intros Hw Hh Hfail.
  pose proof (load_fonts_fallback env e Hfail) as Hfonts.
  split; [done|].
  destruct (generate_product_image_ok env product width height Hw Hh)
    as (colors & base & _ & _ & _ & Hrun).
  eexists. split; [exact Hrun|].
  cbn [im_ops]. unfold artwork. rewrite Hfonts. split; [|split].
  - apply Forall_app. split.
    + eapply Forall_impl; [apply decoration_no_text|]. intros op Hop.
      destruct op; simpl in *; tauto.
    + unfold captions, labels, border. cbn [fst snd app].
      repeat (apply Forall_cons_2; [reflexivity|]). apply Forall_nil_2.
  - eexists _, _. apply elem_of_app. right.
    unfold captions, labels. cbn [fst snd app]. apply elem_of_cons. right.
    apply elem_of_cons. left. reflexivity.
  - eexists _, _. apply elem_of_app. right.
    unfold captions, labels. cbn [fst snd app].
    do 2 (apply elem_of_cons; right).
    apply elem_of_cons. left. reflexivity.
Qed.

Lemma font_failure_recovered_witness :
  exists image,
    generate_product_image bare_machine
      {| slug := "cafe-blend-matcha"; name := "Cafe Blend Matcha"; grade := "Culinary" |}
      (800, 800) = Ok image /\
    Forall uses_default_font (im_ops image).
Proof.
  destruct (font_failure_recovered bare_machine
              {| slug := "cafe-blend-matcha"; name := "Cafe Blend Matcha";
                 grade := "Culinary" |} 800 800 OSError)
    as (_ & image & Hrun & Hfonts & _); [lia | lia | left; reflexivity |].
  exists image. split; [exact Hrun | exact Hfonts].
Defined.

(** ** Python results, continued *)

Lemma bind_inv {A B} (r : result A) (k : A -> result B) (b : B) :
  r ≫= k = Ok b -> exists a, r = Ok a /\ k a = Ok b.
Proof. destruct r as [a|e]; [|discriminate]. intros H. by exists a. Qed.

Lemma bind_Raise {A B} (e : exn) (k : A -> result B) : Raise e ≫= k = Raise e.
Proof. reflexivity. Qed.

(** ** Paths and the file system *)

Section Paths.

Lemma has_slash_app (a b : string) :
  has_slash (a +:+ b) = has_slash a || has_slash b.
Proof. induction a as [|c a IH]; simpl; [done|]. by rewrite IH, orb_assoc. Qed.

Lemma starts_with_slash_app (s ext : string) :
  starts_with_slash ext = false ->
  starts_with_slash (s +:+ ext) = starts_with_slash s.
Proof. intros Hext. by destruct s. Qed.

Lemma string_app_inj (s a b : string) : s +:+ a = s +:+ b -> a = b.
Proof.
  induction s as [|c s IH]; simpl; intros H; [done|].
  injection H as H. by apply IH.
Qed.

Lemma cut_join (d f : string) :
  has_slash f = false -> cut (d +:+ "/" +:+ f) = (d +:+ "/", f).
Proof.
  intros Hf. induction d as [|c d IH].
  - change ("" +:+ "/" +:+ f) with (String "/"%char f).
    cbn [cut]. by rewrite Hf.
  - change (String c d +:+ "/" +:+ f) with (String c (d +:+ "/" +:+ f)).
    assert (Hsep : has_slash (d +:+ "/" +:+ f) = true).
    { rewrite has_slash_app.
      change ("/" +:+ f) with (String "/"%char f). cbn [has_slash].
      apply orb_true_r. }
    cbn [cut]. by rewrite Hsep, IH.
Qed.

Lemma dirname_join (out f : string) :
  all_slashes (out +:+ "/") = false ->
  rstrip_slashes (out +:+ "/") = out ->
  has_slash f = false ->
  dirname (out +:+ "/" +:+ f) = out.
Proof.
  intros Hall Hstrip Hf. unfold dirname. rewrite cut_join by done.
  cbn [fst]. by rewrite Hall, Hstrip.
Qed.

Lemma path_join_plain (out f : string) :
  String.eqb out "" || ends_with_slash out = false ->
  starts_with_slash f = false ->
  path_join out f = out +:+ "/" +:+ f.
Proof. intros Hout Hf. unfold path_join. by rewrite Hf, Hout. Qed.

Lemma name_char_not_slash (c : ascii) :
  name_char c = true -> Ascii.eqb c "/" = false.
Proof.
  intros Hc. destruct (Ascii.eqb_spec c "/") as [->|]; [|done].
  vm_compute in Hc. discriminate.
Qed.

Lemma name_chars_no_slash (s : string) :
  name_chars s = true -> has_slash s = false.
Proof.
  induction s as [|c s IH]; simpl; [done|].
  intros [Hc Hs]%andb_prop. by rewrite (name_char_not_slash c Hc), IH.
Qed.

Lemma simple_name_no_slash (s : string) :
  simple_name s = true -> has_slash s = false.
Proof.
  unfold simple_name. intros [Hs _]%andb_prop. by apply name_chars_no_slash.
Qed.

(** A plain file name with an extension: not absolute, and free of
    slashes. *)
Lemma simple_name_file (s ext : string) :
  simple_name s = true ->
  starts_with_slash ext = false -> has_slash ext = false ->
  starts_with_slash (s +:+ ext) = false /\ has_slash (s +:+ ext) = false.
Proof.
  intros Hs Hext1 Hext2. split.
  - destruct s as [|c s]; [done|]. simpl.
    unfold simple_name in Hs. simpl in Hs.
    apply andb_prop in Hs as [[Hc _]%andb_prop _].
    by apply name_char_not_slash.
  - by rewrite has_slash_app, (simple_name_no_slash s Hs), Hext2.
Qed.

Lemma mkdirs_ok (path : string) (dirs names : gset string) :
  path ∈ ancestry path ->
  Forall (fun d => d ∉ names) (ancestry path) ->
  mkdirs path dirs names = Ok (list_to_set (ancestry path) ∪ dirs).
Proof.
  intros Hin Hfree. unfold mkdirs.
  rewrite Forall_forall in Hfree.
  rewrite bool_decide_false by (by apply Hfree).
  destruct (existsb _ _) eqn:Hex; [|done].
  apply existsb_exists in Hex as (d & Hd%list_elem_of_In & Hfile).
  apply bool_decide_eq_true in Hfile. by destruct (Hfree d Hd).
Qed.

Lemma mkdirs_inv (path : string) (dirs names ds : gset string) :
  mkdirs path dirs names = Ok ds ->
  ds = list_to_set (ancestry path) ∪ dirs.
Proof.
  unfold mkdirs. destruct (bool_decide _); [discriminate|].
  destruct (existsb _ _); [discriminate|]. by intros [= <-].
Qed.

Lemma create_ok (path : string) (dirs names : gset string) :
  path ∉ dirs -> dirname path ∈ dirs -> create path dirs names = Ok tt.
Proof.
  intros Hp Hd. unfold create.
  rewrite bool_decide_false by done.
  rewrite (bool_decide_true (dirname path ∈ dirs)) by done.
  by rewrite orb_true_r.
Qed.

Lemma create_missing (path : string) (dirs names : gset string) :
  path ∉ dirs -> all_slashes (dirname path) = false ->
  dirname path ∉ dirs -> dirname path ∉ names ->
  create path dirs names = Raise FileNotFoundError.
Proof.
  intros Hp Hroot Hd Hn. unfold create.
  rewrite bool_decide_false by done. rewrite Hroot.
  by rewrite !bool_decide_false by done.
Qed.

End Paths.

(** ** Saving files *)

Section Writes.
Context {V : Type}.
Implicit Types (m : gmap string V) (l : list (string * V)).

Lemma write_all_app l1 l2 m :
  write_all (l1 ++ l2) m = write_all l2 (write_all l1 m).
Proof. apply foldl_app. Qed.

Lemma dom_write_all l m :
  dom (write_all l m) = dom m ∪ list_to_set l.*1.
Proof.
  revert m. induction l as [|[k v] l IH]; intros m; simpl.
  - by rewrite (right_id_L ∅ (∪)).
  - rewrite IH, dom_insert_L, (comm_L (∪) {[k]}).
    by rewrite <- (assoc_L (∪)).
Qed.

Lemma size_write_all l m :
  NoDup l.*1 -> (forall k, k ∈ l.*1 -> m !! k = None) ->
  size (write_all l m) = (size m + length l)%nat.
Proof.
  revert m. induction l as [|[k v] l IH]; intros m Hnd Hfresh; simpl.
  - lia.
  - simpl in Hnd. apply NoDup_cons in Hnd as [Hk Hnd].
    rewrite IH; [|done|].
    + rewrite map_size_insert_None; [lia|]. apply Hfresh. left.
    + intros k' Hk'. rewrite lookup_insert_ne; [|intros ->; done].
      apply Hfresh. by right.
Qed.

Lemma write_all_lookup_other l m k :
  k ∉ l.*1 -> write_all l m !! k = m !! k.
Proof.
  revert m. induction l as [|[k' v'] l IH]; intros m Hk; simpl; [done|].
  simpl in Hk. apply not_elem_of_cons in Hk as [Hne Hk].
  rewrite IH by done. by apply lookup_insert_ne.
Qed.

Lemma write_all_lookup_nodup l m k v :
  NoDup l.*1 -> (k, v) ∈ l -> write_all l m !! k = Some v.
Proof.
  revert m. induction l as [|[k' v'] l IH]; intros m Hnd Hin; simpl.
  { by apply elem_of_nil in Hin. }
  simpl in Hnd. apply NoDup_cons in Hnd as [Hk Hnd].
  apply elem_of_cons in Hin as [[= <- <-]|Hin].
  - rewrite write_all_lookup_other by done. apply lookup_insert_eq.
  - by apply IH.
Qed.

Lemma write_all_lookup_last l m k v :
  write_all (l ++ [(k, v)]) m !! k = Some v.
Proof. rewrite write_all_app. simpl. apply lookup_insert_eq. Qed.

End Writes.

(** ** The image driver *)

Section OutputPaths.

Lemma image_path (s ext : string) :
  simple_name s = true ->
  starts_with_slash ext = false -> has_slash ext = false ->
  path_join OUTPUT_DIR (s +:+ ext) = OUTPUT_DIR +:+ "/" +:+ s +:+ ext /\
  dirname (path_join OUTPUT_DIR (s +:+ ext)) = OUTPUT_DIR.
Proof.
  intros Hs Hext1 Hext2.
  destruct (simple_name_file s ext Hs Hext1 Hext2) as [Hstart Hslash].
  rewrite path_join_plain by done. split; [reflexivity|].
  by apply dirname_join.
Qed.

Lemma placeholder_dirname : dirname placeholder_path = OUTPUT_DIR.
Proof. reflexivity. Qed.

Lemma ancestry_output_dir :
  ancestry OUTPUT_DIR
  = ["/home"; "/home/claude"; "/home/claude/matcha-setup"; OUTPUT_DIR].
Proof. reflexivity. Qed.

Lemma output_dir_made : OUTPUT_DIR ∈ ancestry OUTPUT_DIR.
Proof. rewrite ancestry_output_dir. apply list_elem_of_lookup. by exists 3%nat. Qed.

(** A path below the output directory is none of its ancestors. *)
Lemma below_output_dir (f : string) :
  OUTPUT_DIR +:+ "/" +:+ f ∉ ancestry OUTPUT_DIR.
Proof.
  rewrite ancestry_output_dir. unfold OUTPUT_DIR. cbn [append].
  rewrite !not_elem_of_cons. repeat split; try discriminate.
  apply not_elem_of_nil.
Qed.

Lemma image_paths_below (s : string) :
  simple_name s = true ->
  Forall (fun p => (p ∉ ancestry OUTPUT_DIR) /\ dirname p = OUTPUT_DIR)
         (image_paths s).
Proof.
  intros Hs. unfold image_paths.
  destruct (image_path s ".jpg" Hs eq_refl eq_refl) as [E1 D1].
  destruct (image_path s "-thumb.jpg" Hs eq_refl eq_refl) as [E2 D2].
  repeat apply Forall_cons_2; try apply Forall_nil_2; (split; [|done]).
  - rewrite E1. apply below_output_dir.
  - rewrite E2. apply below_output_dir.
Qed.

Lemma placeholder_below : placeholder_path ∉ ancestry OUTPUT_DIR.
Proof. apply (below_output_dir "placeholder.jpg"). Qed.

End OutputPaths.

Section Driver.
Context (env : Env).

Lemma thumbnail_size_800 : thumbnail_size 800 800 400 400 = Some (400, 400).
Proof. vm_compute. reflexivity. Qed.

Lemma thumbnail_of_800 image :
  im_width image = 800 -> im_height image = 800 ->
  thumbnail_of env image =
  {| im_width := 400; im_height := 400;
     im_px := rasterise env (Resize 400 400) (im_px image);
     im_ops := im_ops image ++ [Resize 400 400] |}.
Proof.
  intros Ew Eh. unfold thumbnail_of, thumbnail, copy.
  rewrite Ew, Eh. cbn [fst snd]. rewrite thumbnail_size_800.
  reflexivity.
Qed.

Lemma generate_product_image_800 product :
  exists image,
    generate_product_image env product (800, 800) = Ok image /\
    im_width image = 800 /\ im_height image = 800.
Proof.
  destruct (generate_product_image_ok env product 800 800)
    as (colors & base & _ & _ & _ & Hrun); [lia..|].
  eexists. split; [exact Hrun|]. split; reflexivity.
Qed.

Lemma save_ok image path format quality w :
  path ∉ dirs w -> dirname path ∈ dirs w ->
  save image path format quality w
  = Ok {| dirs := dirs w;
          files := <[path := {| file_format := format;
                                file_quality := quality;
                                file_image := image |}]> (files w);
          stdout := stdout w |}.
Proof.
  intros Hp Hd. unfold save. by rewrite (create_ok _ _ _ Hp Hd).
Qed.

Lemma save_inv image path format quality w w' :
  save image path format quality w = Ok w' ->
  w' = {| dirs := dirs w;
          files := <[path := {| file_format := format;
                                file_quality := quality;
                                file_image := image |}]> (files w);
          stdout := stdout w |}.
Proof.
  unfold save. intros (? & _ & H)%bind_inv. by apply Ok_inj in H.
Qed.

(** What one turn of the loop leaves, when it goes through. *)
Lemma process_inv w product w' :
  process env w product = Ok w' ->
  exists image,
    generate_product_image env product (800, 800) = Ok image /\
    w' = {| dirs := dirs w;
            files := write_all (outputs_of env product image) (files w);
            stdout := stdout w ++ progress product |}.
Proof.
  unfold process. intros (image & Hrun & H)%bind_inv.
  exists image. split; [exact Hrun|]. cbv zeta in H.
  apply bind_inv in H as (w1 & H1%save_inv & H).
  apply bind_inv in H as (w2 & H2%save_inv & H).
  apply Ok_inj in H. subst w' w2 w1.
  unfold print, outputs_of, write_all, progress, jpeg, thumbnail_of.
  cbn [dirs files stdout foldl fst snd]. by rewrite <- app_assoc.
Qed.

(** One turn goes through for a plain slug, once the output directory
    exists and the two paths are free for files. *)
Lemma process_ok w product :
  simple_name (slug product) = true ->
  OUTPUT_DIR ∈ dirs w ->
  Forall (fun p => p ∉ dirs w) (image_paths (slug product)) ->
  exists w', process env w product = Ok w'.
Proof.
  intros Hs Hout Hfree.
  destruct (generate_product_image_800 product) as (image & Hrun & _).
  destruct (image_path (slug product) ".jpg" Hs eq_refl eq_refl) as [_ D1].
  destruct (image_path (slug product) "-thumb.jpg" Hs eq_refl eq_refl)
    as [_ D2].
  unfold image_paths in Hfree.
  apply Forall_cons_1 in Hfree as [F1 Hfree].
  apply Forall_cons_1 in Hfree as [F2 _].
  unfold process. rewrite Hrun, bind_Ok. cbv zeta.
  rewrite save_ok, bind_Ok by (by rewrite ?D1).
  rewrite save_ok, bind_Ok by (by rewrite ?D2).
  eexists. reflexivity.
Qed.

Lemma for_each_process_inv catalog w w' :
  for_each (process env) w catalog = Ok w' ->
  exists images,
    Forall2 (fun product image =>
               generate_product_image env product (800, 800) = Ok image)
            catalog images /\
    w' = {| dirs := dirs w;
            files := write_all
                       (flat_map (uncurry (outputs_of env)) (zip catalog images))
                       (files w);
            stdout := stdout w ++ flat_map progress catalog |}.
Proof.
  revert w. induction catalog as [|product catalog IH]; intros w H.
  - exists []. split; [constructor|]. apply Ok_inj in H. subst w'.
    simpl. rewrite app_nil_r. by destruct w.
  - cbn [for_each] in H.
    apply bind_inv in H as (w1 & (image & Hrun & ->)%process_inv & H).
    destruct (IH _ H) as (images & Hall & ->).
    exists (image :: images). split; [by constructor|].
    cbn [dirs files stdout zip zip_with flat_map uncurry fst snd].
    by rewrite write_all_app, <- app_assoc.
Qed.

Lemma process_dirs w product w' :
  process env w product = Ok w' -> dirs w' = dirs w.
Proof. by intros (image & _ & ->)%process_inv. Qed.

Lemma for_each_process_ok catalog w :
  Forall (fun product => simple_name (slug product) = true) catalog ->
  OUTPUT_DIR ∈ dirs w ->
  Forall (fun p => p ∉ dirs w) (flat_map image_paths (slug <$> catalog)) ->
  exists w', for_each (process env) w catalog = Ok w'.
Proof.
  intros Hs. revert w.
  induction Hs as [|product catalog Hp _ IH]; intros w Hout Hfree.
  - by exists w.
  - cbn [fmap list_fmap flat_map] in Hfree.
    apply Forall_app in Hfree as [F1 F2].
    destruct (process_ok w product Hp Hout F1) as (w1 & Hstep).
    pose proof (process_dirs _ _ _ Hstep) as Ed.
    cbn [for_each]. rewrite Hstep, bind_Ok.
    apply IH; by rewrite Ed.
Qed.

Lemma caption_upright : inverted (placeholder_caption env) = false.
Proof. reflexivity. Qed.

(** What a run leaves, when it goes through. *)
Lemma main_for_inv catalog w w' :
  main_for env catalog w = Ok w' ->
  exists images base,
    Forall2 (fun product image =>
               generate_product_image env product (800, 800) = Ok image)
            catalog images /\
    create_gradient 800 800 (200, 200, 200) (150, 150, 150) "diagonal"
      = Ok base /\
    w' = {| dirs := list_to_set (ancestry OUTPUT_DIR) ∪ dirs w;
            files := write_all (saved env catalog images base) (files w);
            stdout := stdout w ++ ["Generating product images..."]
                      ++ flat_map progress catalog
                      ++ ["  ✓ Created: placeholder.jpg";
                          summary (length catalog)] |}.
Proof.
  unfold main_for. intros (w1 & Hmk & H)%bind_inv.
  unfold makedirs in Hmk.
  apply bind_inv in Hmk as (ds & ->%mkdirs_inv & Hw1). apply Ok_inj in Hw1.
  cbv zeta in H.
  apply bind_inv in H as (w2 & (images & Hall & ->)%for_each_process_inv & H).
  apply bind_inv in H as (base & Hbase & H).
  exists images, base. split; [exact Hall|]. split; [exact Hbase|].
  assert (Hcap :
    (let '(b0, _, b2, _) :=
       textbbox env (try_except (truetype env REGULAR 48) load_default)
         "Image Coming Soon" in
     Text ((800 - (b2 - b0)) / 2) 380 "Image Coming Soon"
       (try_except (truetype env REGULAR 48) load_default)
       (100, 100, 100) None) = placeholder_caption env).
  { unfold placeholder_caption. cbv zeta.
    by destruct (textbbox env _ "Image Coming Soon") as [[[b0 ?] b2] ?]. }
  unfold REGULAR in Hcap.
  destruct (textbbox env _ "Image Coming Soon") as [[[b0 ?] b2] ?].
  rewrite Hcap, (draw_ok _ _ _ caption_upright), bind_Ok in H.
  apply bind_inv in H as (w3 & ->%save_inv & H). apply Ok_inj in H.
  subst w' w1. unfold print, saved, placeholder_image, placeholder_path, jpeg.
  cbn [dirs files stdout]. rewrite write_all_app.
  cbn [write_all foldl fst snd]. unfold summary.
  rewrite <- !app_assoc. reflexivity.
Qed.

Lemma outputs_length catalog (images : list Image) :
  length catalog = length images ->
  length (flat_map (uncurry (outputs_of env)) (zip catalog images))
  = (2 * length catalog)%nat.
Proof.
  revert images. induction catalog as [|p catalog IH]; intros [|im images] Hlen;
    simpl in *; try done.
  rewrite IH by lia. lia.
Qed.

Lemma outputs_paths catalog (images : list Image) :
  length catalog = length images ->
  (flat_map (uncurry (outputs_of env)) (zip catalog images)).*1
  = flat_map image_paths (slug <$> catalog).
Proof.
  revert images. induction catalog as [|p catalog IH]; intros [|im images] Hlen;
    simpl in *; try done.
  by rewrite IH by lia.
Qed.

Lemma saved_paths catalog (images : list Image) (base : Image) :
  length catalog = length images ->
  (saved env catalog images base).*1 = written_paths catalog.
Proof.
  intros Hlen. unfold saved, written_paths.
  by rewrite fmap_app, outputs_paths.
Qed.

Lemma saved_length catalog (images : list Image) (base : Image) :
  length catalog = length images ->
  length (saved env catalog images base) = (2 * length catalog + 1)%nat.
Proof.
  intros Hlen. unfold saved. rewrite length_app, outputs_length by done.
  simpl. lia.
Qed.

(** A run goes through for plain slugs on a file system that is ready
    for it. *)
Lemma main_for_ok catalog w :
  Forall (fun product => simple_name (slug product) = true) catalog ->
  ready OUTPUT_DIR (written_paths catalog) (dirs w) (dom (files w)) ->
  exists w', main_for env catalog w = Ok w'.
Proof.
  intros Hs [Hfiles Hdirs].
  unfold written_paths in Hdirs. apply Forall_app in Hdirs as [Hd1 Hd2].
  apply Forall_cons_1 in Hd2 as [Hd2 _].
  unfold main_for, makedirs.
  rewrite (mkdirs_ok _ _ _ output_dir_made Hfiles), !bind_Ok. cbv zeta.
  set (w1 := print _ _).
  assert (Hout : OUTPUT_DIR ∈ dirs w1).
  { cbn [w1 print dirs]. apply elem_of_union. left.
    apply elem_of_list_to_set, output_dir_made. }
  assert (Hbelow : Forall (fun p => p ∉ ancestry OUTPUT_DIR)
                     (flat_map image_paths (slug <$> catalog))).
  { clear -Hs. induction Hs as [|p catalog Hp _ IH]; [constructor|].
    cbn [fmap list_fmap flat_map]. apply Forall_app. split; [|exact IH].
    eapply Forall_impl; [apply (image_paths_below _ Hp)|].
    by intros path [H _]. }
  assert (Hfree : Forall (fun p => p ∉ dirs w1)
                    (flat_map image_paths (slug <$> catalog))).
  { cbn [w1 print dirs].
    rewrite Forall_forall in Hd1, Hbelow. apply Forall_forall.
    intros p Hp. rewrite not_elem_of_union, elem_of_list_to_set.
    split; [by apply Hbelow|by apply Hd1]. }
  destruct (for_each_process_ok catalog w1 Hs Hout Hfree) as (w2 & Hloop).
  rewrite Hloop, bind_Ok.
  apply for_each_process_inv in Hloop as (images & _ & Ew2).
  destruct (create_gradient_ok 800 800 (200, 200, 200) (150, 150, 150)
              "diagonal") as (base & Hbase & _); [lia..|].
  rewrite Hbase, bind_Ok.
  destruct (textbbox env _ "Image Coming Soon") as [[[b0 ?] b2] ?].
  rewrite draw_ok, bind_Ok by reflexivity.
  rewrite save_ok, bind_Ok.
  - eexists. reflexivity.
  - rewrite Ew2. cbn [w1 print dirs].
    rewrite not_elem_of_union, elem_of_list_to_set.
    split; [apply placeholder_below|exact Hd2].
  - rewrite Ew2. cbn [dirs]. exact Hout.
Qed.

End Driver.

Section DriverFacts.
Context (env : Env).

(** For plain slugs the files of the records lie in the output
    directory, under the names the specification gives them. *)
Lemma outputs_in_output_dir catalog (images : list Image) :
  Forall (fun product => simple_name (slug product) = true) catalog ->
  flat_map (uncurry (outputs_of env)) (zip catalog images)
  = flat_map (fun '(product, image) =>
        [ (OUTPUT_DIR +:+ "/" +:+ slug product +:+ ".jpg",
           {| file_format := "JPEG"; file_quality := 90;
              file_image := image |});
          (OUTPUT_DIR +:+ "/" +:+ slug product +:+ "-thumb.jpg",
           {| file_format := "JPEG"; file_quality := 85;
              file_image := thumbnail (rasterise env) (copy image) (400, 400) |}) ])
      (zip catalog images).
Proof.
  intros Hs. revert images.
  induction Hs as [|p catalog Hp _ IH]; intros [|im images]; try done.
  cbn [zip_with flat_map uncurry fst snd]. rewrite IH. f_equal.
  destruct (image_path (slug p) ".jpg" Hp eq_refl eq_refl) as [E1 _].
  destruct (image_path (slug p) "-thumb.jpg" Hp eq_refl eq_refl) as [E2 _].
  unfold outputs_of. by rewrite E1, E2.
Qed.

End DriverFacts.

(** C2, as amended. For a catalog of N records whose slugs are plain file
    names, on a file system that lets the directory be made and the files
    be written, one run of the image driver succeeds and saves 2N+1
    files in the output directory: for each record [<slug>.jpg] at JPEG
    quality 90 and [<slug>-thumb.jpg] at quality 85, then
    [placeholder.jpg] at quality 85. The directory gains exactly 2N+1
    files, the count the driver prints, when these names are pairwise
    distinct and new; names that coincide are written over each other. *)
Theorem images_written (env : Env) (catalog : list Product) (w : World) :
  Forall (fun product => simple_name (slug product) = true) catalog ->
  ready OUTPUT_DIR (written_paths catalog) (dirs w) (dom (files w)) ->
  exists w' images placeholder,
    main_for env catalog w = Ok w' /\
    Forall2 (fun product image =>
               generate_product_image env product (800, 800) = Ok image)
            catalog images /\
    let written :=
      flat_map (fun '(product, image) =>
          [ (OUTPUT_DIR +:+ "/" +:+ slug product +:+ ".jpg",
             {| file_format := "JPEG"; file_quality := 90;
                file_image := image |});
            (OUTPUT_DIR +:+ "/" +:+ slug product +:+ "-thumb.jpg",
             {| file_format := "JPEG"; file_quality := 85;
                file_image :=
                  thumbnail (rasterise env) (copy image) (400, 400) |}) ])
        (zip catalog images)
      ++ [ (OUTPUT_DIR +:+ "/placeholder.jpg",
            {| file_format := "JPEG"; file_quality := 85;
               file_image := placeholder |}) ] in
    length written = (2 * length catalog + 1)%nat /\
    files w' = write_all written (files w) /\
    OUTPUT_DIR ∈ dirs w' /\
    last (stdout w') = Some (summary (length catalog)) /\
    (NoDup written.*1 ->
     (forall path, path ∈ written.*1 -> files w !! path = None) ->
     size (files w') = (size (files w) + (2 * length catalog + 1))%nat).
Proof.
  intros Hs Hready.
  destruct (main_for_ok env catalog w Hs Hready) as (w' & Hrun).
  destruct (main_for_inv env catalog w w' Hrun)
    as (images & base & Hall & _ & Ew').
  exists w', images, (placeholder_image env base).
  split; [exact Hrun|]. split; [exact Hall|].
  pose proof (Forall2_length _ _ _ Hall) as Hlen.
  rewrite <- (outputs_in_output_dir env catalog images Hs).
  change (flat_map (uncurry (outputs_of env)) (zip catalog images)
          ++ [(OUTPUT_DIR +:+ "/placeholder.jpg",
               {| file_format := "JPEG"; file_quality := 85;
                  file_image := placeholder_image env base |})])
    with (saved env catalog images base).
  cbv zeta. rewrite Ew'. cbn [files dirs stdout].
  pose proof (saved_length env catalog images base Hlen) as Hn.
  split; [exact Hn|]. split; [reflexivity|]. split.
  { apply elem_of_union. left. apply elem_of_list_to_set, output_dir_made. }
  split.
  { by rewrite !last_app. }
  intros Hnd Hfresh. rewrite <- Hn. by apply size_write_all.
Qed.

Lemma products_paths_distinct :
  NoDup (flat_map image_paths (slug <$> PRODUCTS) ++ [placeholder_path]).
Proof. apply (bool_decide_unpack _). vm_compute. reflexivity. Qed.

Lemma products_simple :
  Forall (fun product => simple_name (slug product) = true) PRODUCTS.
Proof. repeat (apply Forall_cons_2; [reflexivity|]). apply Forall_nil_2. Qed.

Lemma empty_world_ready (paths : list string) :
  ready OUTPUT_DIR paths (dirs empty_world) (dom (files empty_world)).
Proof.
  split; apply Forall_forall; intros p _; cbn [empty_world dirs files];
    [rewrite dom_empty_L|]; apply not_elem_of_empty.
Qed.

Lemma images_written_witness :
  exists w', main bare_machine empty_world = Ok w' /\ size (files w') = 17%nat.
Proof.
  destruct (images_written bare_machine PRODUCTS empty_world products_simple
              (empty_world_ready _))
    as (w' & images & placeholder & Hrun & Hall & _ & _ & _ & _ & Hsize).
  exists w'. split; [exact Hrun|].
  pose proof (Forall2_length _ _ _ Hall) as Hlen.
  rewrite Hsize; [reflexivity| |].
  - rewrite <- (outputs_in_output_dir bare_machine PRODUCTS images products_simple).
    change (flat_map (uncurry (outputs_of bare_machine)) (zip PRODUCTS images)
            ++ [(OUTPUT_DIR +:+ "/placeholder.jpg",
                 {| file_format := "JPEG"; file_quality := 85;
                    file_image := placeholder |})])
      with (flat_map (uncurry (outputs_of bare_machine)) (zip PRODUCTS images)
            ++ [(placeholder_path, jpeg 85 placeholder)]).
    rewrite fmap_app, outputs_paths by done. apply products_paths_distinct.
  - intros path _. apply lookup_empty.
Defined.

(** C2, as the specification words it, fails: for a catalog of one record
    whose slug is [placeholder], the record's image is written over by the
    placeholder, and the run leaves two files, not three. *)
Lemma file_count_claim_fails : ~ file_count_claim.
Proof.
  intros Hclaim.
  destruct (Hclaim bare_machine [placeholder_record]) as (w' & Hrun & Hsize).
  { apply Forall_cons_2; [reflexivity|apply Forall_nil_2]. }
  destruct (main_for_inv bare_machine [placeholder_record] empty_world w' Hrun)
    as (images & base & Hall & _ & ->).
  pose proof (Forall2_length _ _ _ Hall) as Hlen.
  cbn [files empty_world] in Hsize.
  rewrite dom_write_all, saved_paths, dom_empty_L in Hsize by done.
  assert (Hset : (∅ : gset string)
                 ∪ list_to_set (written_paths [placeholder_record])
                 = {[ placeholder_path;
                      path_join OUTPUT_DIR "placeholder-thumb.jpg" ]}).
  { apply set_eq. intros p.
    rewrite elem_of_union, elem_of_list_to_set, elem_of_union,
      !elem_of_singleton.
    unfold written_paths, image_paths, placeholder_record, placeholder_path.
    cbn [fmap list_fmap flat_map app slug append].
    rewrite !elem_of_cons, elem_of_nil, elem_of_empty. tauto. }
  rewrite Hset, size_union, !size_singleton in Hsize.
  - discriminate Hsize.
  - apply disjoint_singleton_l. rewrite elem_of_singleton. discriminate.
Qed.


(** C5. For every record the full image is 800x800 and the thumbnail the
    driver derives from it has [max(width, height) <= 400] and the aspect
    ratio of the full image: it is 400x400; whenever the turn of the loop
    goes through, it is that thumbnail that [<slug>-thumb.jpg] holds. *)
Theorem thumbnail_fits (env : Env) (product : Product) :
  exists image,
    generate_product_image env product (800, 800) = Ok image /\
    im_width image = 800 /\ im_height image = 800 /\
    let thumb := thumbnail (rasterise env) (copy image) (400, 400) in
    Z.max (im_width thumb) (im_height thumb) <= 400 /\
    im_width thumb * im_height image = im_height thumb * im_width image /\
    (im_width thumb, im_height thumb) = (400, 400) /\
    forall w w', process env w product = Ok w' ->
      files w' !! path_join OUTPUT_DIR (slug product +:+ "-thumb.jpg")
      = Some {| file_format := "JPEG"; file_quality := 85;
                file_image := thumb |}.
Proof.
  destruct (generate_product_image_800 env product) as (image & Hrun & Ew & Eh).
  exists image. split; [exact Hrun|]. split; [exact Ew|]. split; [exact Eh|].
  cbv zeta.
  change (thumbnail (rasterise env) (copy image) (400, 400))
    with (thumbnail_of env image).
  rewrite (thumbnail_of_800 env image Ew Eh) at 1 2 3 4 5 6.
  cbn [im_width im_height]. rewrite Ew, Eh.
  split; [lia|]. split; [lia|]. split; [reflexivity|].
  intros w w' (image' & Hrun' & ->)%process_inv.
  rewrite Hrun in Hrun'. apply Ok_inj in Hrun'. subst image'.
  cbn [files]. unfold outputs_of, write_all, jpeg. cbn [foldl fst snd].
  by rewrite lookup_insert_eq.
Qed.

Lemma thumbnail_fits_witness :
  exists image w',
    generate_product_image bare_machine placeholder_record (800, 800)
      = Ok image /\
    process bare_machine
      {| dirs := {[OUTPUT_DIR]}; files := ∅; stdout := [] |}
      placeholder_record = Ok w' /\
    files w' !! path_join OUTPUT_DIR (slug placeholder_record +:+ "-thumb.jpg")
    = Some {| file_format := "JPEG"; file_quality := 85;
              file_image :=
                thumbnail (rasterise bare_machine) (copy image) (400, 400) |}.
Proof.
  destruct (thumbnail_fits bare_machine placeholder_record)
    as (image & Hrun & _ & _ & _ & _ & _ & Hfile).
  destruct (process_ok bare_machine
              {| dirs := {[OUTPUT_DIR]}; files := ∅; stdout := [] |}
              placeholder_record) as (w' & Hstep).
  - reflexivity.
  - cbn [dirs]. by apply elem_of_singleton.
  - cbn [dirs]. unfold image_paths.
    repeat (apply Forall_cons_2;
            [rewrite elem_of_singleton; discriminate|]).
    apply Forall_nil_2.
  - exists image, w'. split; [exact Hrun|]. split; [exact Hstep|].
    exact (Hfile _ _ Hstep).
Defined.

(** ** The document driver and the specification sheet *)

Section SheetPaths.

Lemma spec_path_plain (s : string) :
  simple_name s = true ->
  spec_path s = GeneratePdfs.OUTPUT_DIR +:+ "/" +:+ s +:+ "-spec.pdf" /\
  dirname (spec_path s) = GeneratePdfs.OUTPUT_DIR.
Proof.
  intros Hs. unfold spec_path.
  destruct (simple_name_file s "-spec.pdf" Hs eq_refl eq_refl)
    as [Hstart Hslash].
  rewrite path_join_plain by done. split; [reflexivity|].
  by apply dirname_join.
Qed.

Lemma ancestry_docs :
  ancestry GeneratePdfs.OUTPUT_DIR
  = ["/home"; "/home/claude"; "/home/claude/matcha-setup";
     GeneratePdfs.OUTPUT_DIR].
Proof. reflexivity. Qed.

Lemma docs_made : GeneratePdfs.OUTPUT_DIR ∈ ancestry GeneratePdfs.OUTPUT_DIR.
Proof. rewrite ancestry_docs. apply list_elem_of_lookup. by exists 3%nat. Qed.

Lemma below_docs (f : string) :
  GeneratePdfs.OUTPUT_DIR +:+ "/" +:+ f ∉ ancestry GeneratePdfs.OUTPUT_DIR.
Proof.
  rewrite ancestry_docs. unfold GeneratePdfs.OUTPUT_DIR. cbn [append].
  rewrite !not_elem_of_cons. repeat split; try discriminate.
  apply not_elem_of_nil.
Qed.

Lemma spec_path_below (s : string) :
  simple_name s = true -> spec_path s ∉ ancestry GeneratePdfs.OUTPUT_DIR.
Proof.
  intros Hs. destruct (spec_path_plain s Hs) as [-> _]. apply below_docs.
Qed.

End SheetPaths.

Section Sheets.
Context (today : string) (lib : GeneratePdfs.ReportLab).

Lemma sheets_paths catalog :
  (sheets today catalog).*1 = spec_path <$> (GeneratePdfs.slug <$> catalog).
Proof. unfold sheets. by rewrite <- !list_fmap_compose. Qed.

(** What [create_spec_sheet] leaves, when it goes through. *)
Lemma create_spec_sheet_inv product path (w w' : GeneratePdfs.World) :
  GeneratePdfs.create_spec_sheet today lib product path w = Ok w' ->
  printable lib (GeneratePdfs.story today product) /\
  w' = {| GeneratePdfs.dirs := GeneratePdfs.dirs w;
          GeneratePdfs.files :=
            <[path := GeneratePdfs.story today product]> (GeneratePdfs.files w);
          GeneratePdfs.stdout := GeneratePdfs.stdout w |}.
Proof.
  unfold GeneratePdfs.create_spec_sheet, GeneratePdfs.build, printable.
  destruct (forallb _ _); [|discriminate].
  destruct (GeneratePdfs.fits lib _); [|discriminate].
  intros (? & _ & H)%bind_inv. by apply Ok_inj in H.
Qed.

Lemma create_spec_sheet_ok product path (w : GeneratePdfs.World) :
  printable lib (GeneratePdfs.story today product) ->
  path ∉ GeneratePdfs.dirs w -> dirname path ∈ GeneratePdfs.dirs w ->
  GeneratePdfs.create_spec_sheet today lib product path w
  = Ok {| GeneratePdfs.dirs := GeneratePdfs.dirs w;
          GeneratePdfs.files :=
            <[path := GeneratePdfs.story today product]> (GeneratePdfs.files w);
          GeneratePdfs.stdout := GeneratePdfs.stdout w |}.
Proof.
  intros [Hparse Hfit] Hp Hd.
  unfold GeneratePdfs.create_spec_sheet, GeneratePdfs.build.
  by rewrite Hparse, Hfit, (create_ok _ _ _ Hp Hd).
Qed.

(** A text that does not parse stops the sheet before anything is
    written. *)
Lemma create_spec_sheet_unparsed product path (w : GeneratePdfs.World) :
  forallb (GeneratePdfs.parses lib)
    (GeneratePdfs.markup (GeneratePdfs.story today product)) = false ->
  GeneratePdfs.create_spec_sheet today lib product path w = Raise ValueError.
Proof. intros H. unfold GeneratePdfs.create_spec_sheet. by rewrite H. Qed.

Lemma pdf_process_inv (w w' : GeneratePdfs.World) product :
  GeneratePdfs.process today lib w product = Ok w' ->
  printable lib (GeneratePdfs.story today product) /\
  w' = {| GeneratePdfs.dirs := GeneratePdfs.dirs w;
          GeneratePdfs.files :=
            <[spec_path (GeneratePdfs.slug product)
              := GeneratePdfs.story today product]> (GeneratePdfs.files w);
          GeneratePdfs.stdout := GeneratePdfs.stdout w ++ [sheet_line product] |}.
Proof.
  unfold GeneratePdfs.process. cbv zeta.
  intros (w1 & (Hp & ->)%create_spec_sheet_inv & H)%bind_inv.
  apply Ok_inj in H. subst w'. split; [exact Hp|]. reflexivity.
Qed.

Lemma pdf_loop_inv catalog (w w' : GeneratePdfs.World) :
  for_each (GeneratePdfs.process today lib) w catalog = Ok w' ->
  Forall (fun product => printable lib (GeneratePdfs.story today product))
         catalog /\
  w' = {| GeneratePdfs.dirs := GeneratePdfs.dirs w;
          GeneratePdfs.files :=
            write_all (sheets today catalog) (GeneratePdfs.files w);
          GeneratePdfs.stdout :=
            GeneratePdfs.stdout w ++ (sheet_line <$> catalog) |}.
Proof.
  revert w. induction catalog as [|product catalog IH]; intros w H.
  - apply Ok_inj in H. subst w'. split; [constructor|].
    simpl. rewrite app_nil_r. by destruct w.
  - cbn [for_each] in H.
    apply bind_inv in H as (w1 & (Hp & ->)%pdf_process_inv & H).
    destruct (IH _ H) as (Hall & ->). split; [by constructor|].
    cbn [GeneratePdfs.dirs GeneratePdfs.files GeneratePdfs.stdout
         fmap list_fmap].
    rewrite <- app_assoc. reflexivity.
Qed.

Lemma pdf_process_ok (w : GeneratePdfs.World) product :
  simple_name (GeneratePdfs.slug product) = true ->
  printable lib (GeneratePdfs.story today product) ->
  GeneratePdfs.OUTPUT_DIR ∈ GeneratePdfs.dirs w ->
  spec_path (GeneratePdfs.slug product) ∉ GeneratePdfs.dirs w ->
  GeneratePdfs.process today lib w product
  = Ok {| GeneratePdfs.dirs := GeneratePdfs.dirs w;
          GeneratePdfs.files :=
            <[spec_path (GeneratePdfs.slug product)
              := GeneratePdfs.story today product]> (GeneratePdfs.files w);
          GeneratePdfs.stdout := GeneratePdfs.stdout w ++ [sheet_line product] |}.
Proof.
  intros Hs Hprint Hout Hfree.
  destruct (spec_path_plain _ Hs) as [_ Hdir].
  unfold GeneratePdfs.process. cbv zeta.
  change (path_join GeneratePdfs.OUTPUT_DIR
            (GeneratePdfs.slug product +:+ "-spec.pdf"))
    with (spec_path (GeneratePdfs.slug product)).
  rewrite create_spec_sheet_ok, bind_Ok by (by rewrite ?Hdir).
  reflexivity.
Qed.

Lemma pdf_loop_ok catalog (w : GeneratePdfs.World) :
  Forall (fun product => simple_name (GeneratePdfs.slug product) = true)
         catalog ->
  Forall (fun product => printable lib (GeneratePdfs.story today product))
         catalog ->
  GeneratePdfs.OUTPUT_DIR ∈ GeneratePdfs.dirs w ->
  Forall (fun p => p ∉ GeneratePdfs.dirs w)
         (spec_path <$> (GeneratePdfs.slug <$> catalog)) ->
  exists w', for_each (GeneratePdfs.process today lib) w catalog = Ok w'.
Proof.
  intros Hs. revert w.
  induction Hs as [|product catalog Hp _ IH]; intros w Hprint Hout Hfree.
  - by exists w.
  - apply Forall_cons_1 in Hprint as [Hprint1 Hprint].
    cbn [fmap list_fmap] in Hfree. apply Forall_cons_1 in Hfree as [F1 F2].
    cbn [for_each]. rewrite pdf_process_ok, bind_Ok by done.
    by apply IH.
Qed.

(** What a run of the document driver leaves, when it goes through. *)
Lemma pdf_main_inv catalog (w w' : GeneratePdfs.World) :
  GeneratePdfs.main_for today lib catalog w = Ok w' ->
  Forall (fun product => printable lib (GeneratePdfs.story today product))
         catalog /\
  w' = {| GeneratePdfs.dirs :=
            list_to_set (ancestry GeneratePdfs.OUTPUT_DIR)
            ∪ GeneratePdfs.dirs w;
          GeneratePdfs.files :=
            write_all (sheets today catalog) (GeneratePdfs.files w);
          GeneratePdfs.stdout :=
            GeneratePdfs.stdout w
            ++ ["Generating PDF specification sheets..."]
            ++ (sheet_line <$> catalog)
            ++ [sheet_summary (length catalog)] |}.
Proof.
  unfold GeneratePdfs.main_for. intros (w1 & Hmk & H)%bind_inv.
  unfold GeneratePdfs.makedirs in Hmk.
  apply bind_inv in Hmk as (ds & ->%mkdirs_inv & Hw1). apply Ok_inj in Hw1.
  cbv zeta in H.
  apply bind_inv in H as (w2 & (Hall & ->)%pdf_loop_inv & H).
  apply Ok_inj in H. subst w' w1. split; [exact Hall|].
  unfold GeneratePdfs.print, sheet_summary.
  cbn [GeneratePdfs.dirs GeneratePdfs.files GeneratePdfs.stdout].
  rewrite <- !app_assoc. reflexivity.
Qed.

Lemma pdf_main_ok catalog (w : GeneratePdfs.World) :
  Forall (fun product => simple_name (GeneratePdfs.slug product) = true)
         catalog ->
  Forall (fun product => printable lib (GeneratePdfs.story today product))
         catalog ->
  ready GeneratePdfs.OUTPUT_DIR
    (spec_path <$> (GeneratePdfs.slug <$> catalog))
    (GeneratePdfs.dirs w) (dom (GeneratePdfs.files w)) ->
  exists w', GeneratePdfs.main_for today lib catalog w = Ok w'.
Proof.
  intros Hs Hprint [Hfiles Hdirs].
  unfold GeneratePdfs.main_for, GeneratePdfs.makedirs.
  rewrite (mkdirs_ok _ _ _ docs_made Hfiles), !bind_Ok. cbv zeta.
  set (w1 := GeneratePdfs.print _ _).
  assert (Hout : GeneratePdfs.OUTPUT_DIR ∈ GeneratePdfs.dirs w1).
  { cbn [w1 GeneratePdfs.print GeneratePdfs.dirs]. apply elem_of_union. left.
    apply elem_of_list_to_set, docs_made. }
  assert (Hfree : Forall (fun p => p ∉ GeneratePdfs.dirs w1)
                    (spec_path <$> (GeneratePdfs.slug <$> catalog))).
  { cbn [w1 GeneratePdfs.print GeneratePdfs.dirs].
    clear -Hs Hdirs. induction Hs as [|p catalog Hp _ IH]; [constructor|].
    cbn [fmap list_fmap] in *. apply Forall_cons_1 in Hdirs as [Hd Hdirs].
    apply Forall_cons_2; [|by apply IH].
    rewrite not_elem_of_union, elem_of_list_to_set.
    split; [by apply spec_path_below|exact Hd]. }
  destruct (pdf_loop_ok catalog w1 Hs Hprint Hout Hfree) as (w2 & ->).
  rewrite bind_Ok. eexists. reflexivity.
Qed.

End Sheets.

(** The catalog of the script, on an empty file system, with a library
    that accepts balanced markup. *)
Lemma sheets_simple :
  Forall (fun product => simple_name (GeneratePdfs.slug product) = true)
         GeneratePdfs.PRODUCTS.
Proof. repeat (apply Forall_cons_2; [reflexivity|]). apply Forall_nil_2. Qed.

Lemma sheets_printable :
  Forall (fun product =>
            printable office (GeneratePdfs.story "2024-01-01" product))
         GeneratePdfs.PRODUCTS.
Proof.
  repeat (apply Forall_cons_2; [split; vm_compute; reflexivity|]).
  apply Forall_nil_2.
Qed.


Lemma empty_shelf_ready (paths : list string) :
  ready GeneratePdfs.OUTPUT_DIR paths
    (GeneratePdfs.dirs empty_shelf) (dom (GeneratePdfs.files empty_shelf)).
Proof.
  split; apply Forall_forall; intros p _;
    cbn [empty_shelf GeneratePdfs.dirs GeneratePdfs.files];
    [rewrite dom_empty_L|]; apply not_elem_of_empty.
Qed.

Lemma sheets_distinct :
  NoDup (spec_path <$> (GeneratePdfs.slug <$> GeneratePdfs.PRODUCTS)).
Proof. apply (bool_decide_unpack _). vm_compute. reflexivity. Qed.

Section Reruns.





End Reruns.




Lemma classic_printable :
  printable office (GeneratePdfs.story "2024-01-01" classic_usucha_blend).
Proof. split; vm_compute; reflexivity. Qed.



(* ===================================================================== *)
(** * Further properties of the generators *)
(* ===================================================================== *)

(** ** More on the gradient *)

(** X1. [create_gradient] treats every direction other than "diagonal"
    and "vertical" as horizontal. *)
Theorem gradient_direction_fallback (width height : Z) (color1 color2 : RGB)
    (direction : string) :
  direction <> "diagonal" -> direction <> "vertical" ->
  create_gradient width height color1 color2 direction
  = create_gradient width height color1 color2 "horizontal".
Proof.
  intros Hd Hv. unfold create_gradient, gradient_ratio.
  apply String.eqb_neq in Hd. apply String.eqb_neq in Hv.
  rewrite Hd, Hv. reflexivity.
Qed.

Lemma gradient_direction_fallback_witness :
  create_gradient 4 3 (10, 20, 30) (200, 100, 50) "radial"
  = create_gradient 4 3 (10, 20, 30) (200, 100, 50) "horizontal".
Proof.
  apply gradient_direction_fallback; discriminate.
Defined.

Lemma gradient_pixel_band dir w h c1 c2 x y x' y' :
  same_band dir x y x' y' ->
  gradient_pixel (direction_name dir) w h c1 c2 x y
  = gradient_pixel (direction_name dir) w h c1 c2 x' y'.
Proof.
  intros Hband. unfold gradient_pixel. cbv zeta.
  rewrite !gradient_ratio_direction.
  destruct dir; simpl in *; by rewrite Hband.
Qed.

(** X2. In a vertical gradient every row has one colour, in a horizontal
    one every column, and in a diagonal one every anti-diagonal: two
    pixels with the same [y], the same [x], or the same [x + y] are
    equal, whatever the two colours. *)
Theorem gradient_bands (width height : Z) (color1 color2 : RGB)
    (dir : Direction) :
  0 <= width -> 0 <= height ->
  exists image,
    create_gradient width height color1 color2 (direction_name dir) = Ok image /\
    forall x y x' y',
      0 <= x < width -> 0 <= y < height ->
      0 <= x' < width -> 0 <= y' < height ->
      same_band dir x y x' y' ->
      getpixel image x y = getpixel image x' y'.
Proof.
  intros Hw Hh.
  destruct (create_gradient_ok width height color1 color2 (direction_name dir)
              Hw Hh) as (image & Hrun & _ & _ & _ & _ & Hpx).
  exists image. split; [done|].
  intros x y x' y' Hx Hy Hx' Hy' Hband.
  rewrite (Hpx x y Hx Hy), (Hpx x' y' Hx' Hy').
  by rewrite (gradient_pixel_band dir _ _ _ _ x y x' y' Hband).
Qed.

Lemma gradient_bands_witness :
  exists image,
    create_gradient 4 3 (10, 20, 30) (200, 100, 50) "diagonal" = Ok image /\
    getpixel image 2 1 = getpixel image 3 0.
Proof.
  destruct (gradient_bands 4 3 (10, 20, 30) (200, 100, 50) Diagonal)
    as (image & Hrun & Hband); [lia | lia |].
  exists image. split; [exact Hrun|].
  apply Hband; simpl; lia.
Defined.

Section Between.
Import Binary64.

Lemma blend_channel_between (c1 c2 : Z) (tau : Q) :
  0 <= c1 <= 255 -> 0 <= c2 <= 255 -> (0 <= tau <= 1)%Q ->
  between c1 c2 (blend_channel c1 c2 (rnd tau)).
Proof.
  intros Hc1 Hc2 Ht.
  destruct (blend_value_bounds c1 c2 tau Hc1 Hc2 Ht) as (V0 & Vlo & Vhi).
  unfold between, blend_channel. fold (blend_value c1 c2 (rnd tau)).
  set (v := blend_value c1 c2 (rnd tau)) in *.
  rewrite to_int_nonneg by done.
  set (lo := Z.min c1 c2). set (hi := Z.max c1 c2).
  assert (L1 : (inject_Z lo <= inject_Z c1 <= inject_Z hi)%Q)
    by (rewrite <- !Zle_Qle; lia).
  assert (L2 : (inject_Z lo <= inject_Z c2 <= inject_Z hi)%Q)
    by (rewrite <- !Zle_Qle; lia).
  pose proof (Qmult_between (1 - tau) (inject_Z c1) _ _ ltac:(lra) L1) as M1.
  pose proof (Qmult_between tau (inject_Z c2) _ _ ltac:(lra) L2) as M2.
  pose proof (Qfloor_le v) as Flo.
  pose proof (Qlt_floor v) as Fhi.
  rewrite inject_Z_plus in Fhi. change (inject_Z 1) with 1%Q in Fhi.
  unfold delta in *.
  assert (Hup : Qfloor v < hi + 1).
  { rewrite Zlt_Qlt, inject_Z_plus. change (inject_Z 1) with 1%Q. lra. }
  assert (Hdn : lo - 1 < Qfloor v + 1).
  { rewrite Zlt_Qlt. unfold Zminus.
    rewrite !inject_Z_plus, inject_Z_opp. change (inject_Z 1) with 1%Q. lra. }
  lia.
Qed.

End Between.

(** X3. For RGB colours every channel of every pixel of the gradient lies
    between the channels of the two colours, short of the unit that
    truncation can lose below: [min(c1, c2) - 1 <= p <= max(c1, c2)]. *)
Theorem gradient_between (width height : Z) (color1 color2 : RGB)
    (dir : Direction) :
  1 <= width -> 1 <= height -> is_rgb color1 -> is_rgb color2 ->
  exists image,
    create_gradient width height color1 color2 (direction_name dir) = Ok image /\
    forall x y, 0 <= x < width -> 0 <= y < height ->
      exists p,
        getpixel image x y = Some p /\
        between color1.1.1 color2.1.1 p.1.1 /\
        between color1.1.2 color2.1.2 p.1.2 /\
        between color1.2 color2.2 p.2.
Proof.
  intros Hw Hh Hc1 Hc2.
  destruct (create_gradient_ok width height color1 color2 (direction_name dir))
    as (image & Hrun & _ & _ & _ & _ & Hpx); [lia..|].
  exists image. split; [done|]. intros x y Hx Hy.
  eexists. split.
  { rewrite (Hpx x y Hx Hy).
    by rewrite ink_rgb by (by apply gradient_pixel_rgb). }
  unfold gradient_pixel. cbv zeta. rewrite gradient_ratio_direction.
  destruct (gradient_ratio_unit dir width height x y) as (tau & Ht & ->);
    try done.
  destruct Hc1 as (? & ? & ?), Hc2 as (? & ? & ?).
  repeat split; by apply blend_channel_between.
Qed.

Lemma gradient_between_witness :
  exists image,
    create_gradient 800 800 (160, 200, 120) (85, 150, 80) "diagonal" = Ok image /\
    exists p, getpixel image 400 123 = Some p /\ between 160 85 p.1.1.
Proof.
  destruct (gradient_between 800 800 (160, 200, 120) (85, 150, 80) Diagonal)
    as (image & Hrun & Hpx); [lia | lia | unfold is_rgb; simpl; lia
                             | unfold is_rgb; simpl; lia |].
  exists image. split; [exact Hrun|].
  destruct (Hpx 400 123) as (p & Hp & Hr & _); [lia | lia |].
  exists p. split; [exact Hp | exact Hr].
Defined.

(** ** More on the composer *)

(** X4. For a radius of at least 0, [draw_matcha_powder_circle] keeps the
    size of the image and issues exactly 51 ellipses: the disc in the
    given colour over [center +- radius], then fifty dots, each filled
    with the lightened ([min(255, c+30)]) or the darkened ([max(0, c-20)])
    variant of that colour; the pixels are what the rasteriser makes of
    these calls, in this order. A negative radius is refused at the
    first ellipse, with [ValueError]. *)
Theorem powder_circle_draws (env : Env) (image : Image)
    (center_x center_y radius : Z) (color : RGB) :
  (0 <= radius ->
   exists image' dots,
     draw_matcha_powder_circle env image center_x center_y radius color
       = Ok image' /\
     im_width image' = im_width image /\
     im_height image' = im_height image /\
     im_ops image' =
       im_ops image
       ++ Ellipse (inject_Z (center_x - radius)) (inject_Z (center_y - radius))
                  (inject_Z (center_x + radius)) (inject_Z (center_y + radius))
                  color
          :: dots /\
     length dots = 50%nat /\
     Forall (fun op => exists x0 y0 x1 y1 fill,
               op = Ellipse x0 y0 x1 y1 fill /\
               (fill = map_rgb (fun c => Z.min 255 (c + 30)) color \/
                fill = map_rgb (fun c => Z.max 0 (c - 20)) color)) dots /\
     im_px image'
       = foldl (fun px op => rasterise env op px) (im_px image)
           (Ellipse (inject_Z (center_x - radius)) (inject_Z (center_y - radius))
                    (inject_Z (center_x + radius)) (inject_Z (center_y + radius))
                    color
            :: dots)) /\
  (radius < 0 ->
   draw_matcha_powder_circle env image center_x center_y radius color
     = Raise ValueError).
Proof.
  split; [|apply powder_circle_negative].
  intros Hr. rewrite powder_circle_ok by done.
  eexists _, _. split; [reflexivity|]. unfold drawn, powder_circle.
  cbn [im_width im_height im_px im_ops].
  split; [reflexivity|]. split; [reflexivity|]. split; [reflexivity|].
  split; [by rewrite length_fmap, length_seq|]. split; [|reflexivity].
  apply Forall_fmap, Forall_forall. intros i _.
  eexists _, _, _, _, _. split; [reflexivity|].
  destruct (Binary64.ltb (Binary64.literal (5 # 10))
              (sample_coin (seeded_42 env i))); [by left | by right].
Qed.

Lemma powder_circle_draws_witness :
  (exists image',
     draw_matcha_powder_circle bare_machine
       {| im_width := 4; im_height := 4; im_px := []; im_ops := [] |}
       2 2 1 (50, 100, 45) = Ok image' /\
     length (im_ops image') = 51%nat) /\
  draw_matcha_powder_circle bare_machine
    {| im_width := 4; im_height := 4; im_px := []; im_ops := [] |}
    2 2 (-1) (50, 100, 45) = Raise ValueError.
Proof.
  destruct (powder_circle_draws bare_machine
              {| im_width := 4; im_height := 4; im_px := []; im_ops := [] |}
              2 2 1 (50, 100, 45)) as [Hok _].
  destruct (powder_circle_draws bare_machine
              {| im_width := 4; im_height := 4; im_px := []; im_ops := [] |}
              2 2 (-1) (50, 100, 45)) as [_ Hbad].
  split; [|apply Hbad; lia].
  destruct Hok as (image' & dots & Hrun & _ & _ & Hops & Hlen & _); [lia|].
  exists image'. split; [exact Hrun|].
  rewrite Hops. cbn [im_ops app length]. by rewrite Hlen.
Defined.

Section Colours.

Lemma lighter_rgb color : is_rgb color -> is_rgb (lighter color).
Proof.
  destruct color as [[r g] b]. unfold is_rgb, lighter. simpl. lia.
Qed.

Lemma darker_rgb color : is_rgb color -> is_rgb (darker color).
Proof.
  destruct color as [[r g] b]. unfold is_rgb, darker. simpl. lia.
Qed.

Lemma leaf_colour_rgb color : is_rgb color -> is_rgb (leaf_colour color).
Proof.
  destruct color as [[r g] b]. unfold is_rgb, leaf_colour. simpl. lia.
Qed.

Lemma GRADE_COLORS_rgb (g : string) (colors : Palette) :
  GRADE_COLORS !! g = Some colors -> is_palette colors.
Proof.
  unfold GRADE_COLORS. intros H.
  repeat (apply lookup_insert_Some in H as [[_ <-]|[_ H]];
          [unfold is_palette, is_rgb; simpl; lia|]).
  by rewrite lookup_empty in H.
Qed.

Lemma selected_palette_rgb (g : string) :
  is_palette (default PREMIUM (GRADE_COLORS !! g)).
Proof.
  destruct (GRADE_COLORS !! g) as [colors|] eqn:E; simpl.
  - by eapply GRADE_COLORS_rgb.
  - unfold is_palette, is_rgb. simpl. lia.
Qed.

Lemma powder_dot_paints_rgb env cx cy r color i :
  is_rgb color -> paints_rgb (powder_dot env cx cy r color i).
Proof.
  intros Hc. unfold powder_dot. cbv zeta. cbn [paints_rgb].
  destruct (Binary64.ltb (Binary64.literal (5 # 10)) (sample_coin (seeded_42 env i)));
    [by apply lighter_rgb | by apply darker_rgb].
Qed.

Lemma decoration_paints_rgb env w h colors :
  is_palette colors -> Forall paints_rgb (decoration env w h colors).
Proof.
  intros (Hp & Hs & Ha). unfold decoration, powder_circle.
  apply Forall_cons_2; [exact Ha|].
  repeat (apply Forall_app; split).
  - apply Forall_fmap, Forall_forall. intros i _.
    by apply powder_dot_paints_rgb.
  - repeat constructor; by apply leaf_colour_rgb.
  - repeat constructor; by apply leaf_colour_rgb.
  - repeat constructor; by apply leaf_colour_rgb.
  - repeat constructor; by apply leaf_colour_rgb.
Qed.

Lemma captions_paint_rgb env product w h fonts colors :
  is_palette colors -> Forall paints_rgb (captions env product w h fonts colors).
Proof.
  intros (Hp & Hs & Ha). unfold captions, labels, border. cbv zeta.
  cbn [app].
  repeat apply Forall_cons_2; [..|apply Forall_nil_2];
    cbn [paints_rgb]; unfold is_rgb; try exact Ha; simpl; lia.
Qed.

End Colours.

(** X5. For every size of at least 1x1, every colour
    [generate_product_image] hands to Pillow is an RGB colour with
    channels in 0..255 (and every alpha a byte), whatever the record's
    grade: the [min]/[max] guards of the dot and leaf colours keep the
    variants of the palette in range, so nothing is left to Pillow's
    saturation. *)
Theorem composer_paints_rgb (env : Env) (product : Product) (width height : Z) :
  1 <= width -> 1 <= height ->
  exists image,
    generate_product_image env product (width, height) = Ok image /\
    Forall paints_rgb (im_ops image).
Proof.
  intros Hw Hh.
  destruct (generate_product_image_ok env product width height Hw Hh)
    as (colors & base & _ & -> & _ & Hrun).
  eexists. split; [exact Hrun|]. cbn [im_ops].
  apply Forall_app. split.
  - apply decoration_paints_rgb, selected_palette_rgb.
  - apply captions_paint_rgb, selected_palette_rgb.
Qed.

Lemma composer_paints_rgb_witness :
  exists image,
    generate_product_image bare_machine
      {| slug := "house-blend"; name := "House Blend"; grade := "Reserve" |}
      (800, 800) = Ok image /\
    Forall paints_rgb (im_ops image).
Proof.
  apply (composer_paints_rgb bare_machine
           {| slug := "house-blend"; name := "House Blend"; grade := "Reserve" |}
           800 800); lia.
Defined.

(** X6. For every size of at least 1x1, [generate_product_image] returns
    an image of that size carrying 63 drawing calls over the gradient: 59
    shapes, none of them a text, then the three captions, and last the
    border, a rectangle over the whole frame
    [(0, 0)-(width-1, height-1)], 3 pixels wide, in the palette's accent
    colour. *)
Theorem product_image_structure (env : Env) (product : Product)
    (width height : Z) :
  1 <= width -> 1 <= height ->
  exists image colors shapes t1 t2 t3,
    palette_for (grade product) = Ok colors /\
    generate_product_image env product (width, height) = Ok image /\
    im_width image = width /\ im_height image = height /\
    length (im_ops image) = 63%nat /\
    length shapes = 59%nat /\ Forall (fun op => ~ is_text op) shapes /\
    is_text t1 /\ is_text t2 /\ is_text t3 /\
    im_ops image =
      shapes ++ [t1; t2; t3;
                 Rectangle 0 0 (width - 1) (height - 1) (accent colors) 3].
Proof.
  intros Hw Hh.
  destruct (generate_product_image_ok env product width height Hw Hh)
    as (colors & base & Hpal & _ & _ & Hrun).
  eexists _, colors, (decoration env width height colors), _, _, _.
  split; [exact Hpal|]. split; [exact Hrun|]. cbn [im_width im_height im_ops].
  split; [reflexivity|]. split; [reflexivity|]. split.
  { unfold artwork. rewrite length_app, decoration_length. reflexivity. }
  split; [apply decoration_length|]. split; [apply decoration_no_text|].
  unfold artwork, captions, labels, border. cbv zeta. cbn [app].
  repeat split; reflexivity.
Qed.

Lemma product_image_structure_witness :
  exists image,
    generate_product_image bare_machine
      {| slug := "cafe-blend-matcha"; name := "Cafe Blend Matcha"; grade := "Culinary" |}
      (800, 800) = Ok image /\
    length (im_ops image) = 63%nat.
Proof.
  destruct (product_image_structure bare_machine
              {| slug := "cafe-blend-matcha"; name := "Cafe Blend Matcha";
                 grade := "Culinary" |} 800 800)
    as (image & ? & ? & ? & ? & ? & _ & Hrun & _ & _ & Hlen & _); [lia | lia |].
  exists image. split; [exact Hrun | exact Hlen].
Defined.

(** X7. The captions, for every size of at least 1x1: the name is drawn
    twice in the large font, first as a black shadow (alpha 128) two
    pixels right of and below the white name, whose top is at
    [height - 150]; the grade label "Grade: <grade>" follows in the small
    font, 50 pixels lower. Name and label are centred horizontally: the
    margins left and right of the text measured by [textbbox] differ by
    at most one pixel. *)
Theorem captions_layout (env : Env) (product : Product) (width height : Z) :
  1 <= width -> 1 <= height ->
  exists image shapes border x gx,
    generate_product_image env product (width, height) = Ok image /\
    let font_large := (load_fonts env).1 in
    let font_small := (load_fonts env).2 in
    let label := "Grade: " +:+ grade product in
    let '(x0, _, x1, _) := textbbox env font_large (name product) in
    let '(g0, _, g1, _) := textbbox env font_small label in
    im_ops image =
      shapes ++ [ Text (x + 2) (height - 150 + 2) (name product) font_large
                    (0, 0, 0) (Some 128);
                  Text x (height - 150) (name product) font_large
                    (255, 255, 255) None;
                  Text gx (height - 150 + 50) label font_small
                    (255, 255, 255) (Some 200);
                  border ] /\
    0 <= (width - (x1 - x0)) - 2 * x <= 1 /\
    0 <= (width - (g1 - g0)) - 2 * gx <= 1.
Proof.
  intros Hw Hh.
  destruct (generate_product_image_ok env product width height Hw Hh)
    as (colors & base & _ & _ & _ & Hrun).
  eexists _, (decoration env width height colors),
    (Rectangle 0 0 (width - 1) (height - 1) (accent colors) 3),
    ((width - ((textbbox env (load_fonts env).1 (name product)).1.2
               - (textbbox env (load_fonts env).1 (name product)).1.1.1)) / 2),
    ((width - ((textbbox env (load_fonts env).2
                  ("Grade: " +:+ grade product)).1.2
               - (textbbox env (load_fonts env).2
                    ("Grade: " +:+ grade product)).1.1.1)) / 2).
  split; [exact Hrun|]. cbv zeta. cbn [im_ops].
  unfold artwork, captions, labels, border. cbv zeta.
  destruct (textbbox env (load_fonts env).1 (name product))
    as [[[x0 ?] x1] ?].
  destruct (textbbox env (load_fonts env).2 ("Grade: " +:+ grade product))
    as [[[g0 ?] g1] ?].
  cbn [fst snd app]. split; [reflexivity|].
  split.
  - pose proof (Z.div_mod (width - (x1 - x0)) 2 ltac:(lia)).
    pose proof (Z.mod_pos_bound (width - (x1 - x0)) 2 ltac:(lia)). lia.
  - pose proof (Z.div_mod (width - (g1 - g0)) 2 ltac:(lia)).
    pose proof (Z.mod_pos_bound (width - (g1 - g0)) 2 ltac:(lia)). lia.
Qed.

Lemma captions_layout_witness :
  exists image,
    generate_product_image bare_machine
      {| slug := "cafe-blend-matcha"; name := "Cafe Blend Matcha"; grade := "Culinary" |}
      (800, 800) = Ok image /\
    Text 349 650 "Cafe Blend Matcha" DefaultFont (255, 255, 255) None
      ∈ im_ops image.
Proof.
  destruct (captions_layout bare_machine
              {| slug := "cafe-blend-matcha"; name := "Cafe Blend Matcha";
                 grade := "Culinary" |} 800 800)
    as (image & shapes & border & x & gx & Hrun & Hops); [lia | lia |].
  exists image. split; [exact Hrun|].
  cbv zeta in Hops. cbn in Hops. destruct Hops as (Hops & Hx & _).
  rewrite Hops. apply elem_of_app. right. apply elem_of_cons. right.
  apply elem_of_cons. left. f_equal. lia.
Defined.

(** X8. When both preferred fonts load, no fallback takes place, for
    every size of at least 1x1: the name and its shadow are set in the
    bold font at 36, the grade label in the regular font at 24, and no
    text uses any other font. *)
Theorem fonts_loaded (env : Env) (product : Product) (width height : Z)
    (bold regular : Font) :
  1 <= width -> 1 <= height ->
  truetype env BOLD 36 = Ok bold -> truetype env REGULAR 24 = Ok regular ->
  load_fonts env = (bold, regular) /\
  exists image,
    generate_product_image env product (width, height) = Ok image /\
    (exists x y, Text (x + 2) (y + 2) (name product) bold (0, 0, 0) (Some 128)
                   ∈ im_ops image /\
                 Text x y (name product) bold (255, 255, 255) None
                   ∈ im_ops image) /\
    (exists x y, Text x y ("Grade: " +:+ grade product) regular
                   (255, 255, 255) (Some 200) ∈ im_ops image) /\
    Forall (set_in_fonts bold regular) (im_ops image).
Proof.
  intros Hw Hh Hb Hr.
  assert (Hfonts : load_fonts env = (bold, regular)).
  { unfold load_fonts, BOLD, REGULAR in *. by rewrite Hb, Hr. }
  split; [done|].
  destruct (generate_product_image_ok env product width height Hw Hh)
    as (colors & base & _ & _ & _ & Hrun).
  eexists. split; [exact Hrun|].
  cbn [im_ops]. unfold artwork. rewrite Hfonts.
  unfold captions, labels, border. cbv zeta. cbn [fst snd app].
  split; [|split].
  - eexists _, _. split.
    + apply elem_of_app. right.
      apply elem_of_cons. left. reflexivity.
    + apply elem_of_app. right.
      apply elem_of_cons. right. apply elem_of_cons. left. reflexivity.
  - eexists _, _. apply elem_of_app. right.
    do 2 (apply elem_of_cons; right). apply elem_of_cons. left. reflexivity.
  - apply Forall_app. split.
    + eapply Forall_impl; [apply decoration_no_text|]. intros op Hop.
      destruct op; simpl in *; tauto.
    + repeat constructor; simpl; tauto.
Qed.

Lemma fonts_loaded_witness :
  exists image,
    generate_product_image dejavu_machine
      {| slug := "cafe-blend-matcha"; name := "Cafe Blend Matcha"; grade := "Culinary" |}
      (800, 800) = Ok image /\
    Forall (set_in_fonts (TrueTypeFont BOLD 36) (TrueTypeFont REGULAR 24))
           (im_ops image).
Proof.
  destruct (fonts_loaded dejavu_machine
              {| slug := "cafe-blend-matcha"; name := "Cafe Blend Matcha";
                 grade := "Culinary" |} 800 800
              (TrueTypeFont BOLD 36) (TrueTypeFont REGULAR 24))
    as (_ & image & Hrun & _ & _ & Hall);
    [lia | lia | reflexivity | reflexivity |].
  exists image. split; [exact Hrun | exact Hall].
Defined.

(** X9. For a grade that is a key of the palette table the composer
    renders with that grade's own palette, never the default, for every
    size of at least 1x1: the first call is the disc and the last the
    border, both in the accent colour of the table's entry. *)
Theorem known_grade_palette (env : Env) (product : Product)
    (width height : Z) (colors : Palette) :
  1 <= width -> 1 <= height ->
  GRADE_COLORS !! grade product = Some colors ->
  grade product ∈ GRADES /\
  palette_for (grade product) = Ok colors /\
  exists image,
    generate_product_image env product (width, height) = Ok image /\
    compose env product width height colors = Ok image /\
    im_ops image = artwork env product width height colors /\
    head (im_ops image) = Some (powder_disc width height (accent colors)) /\
    last (im_ops image)
      = Some (Rectangle 0 0 (width - 1) (height - 1) (accent colors) 3).
Proof.
  intros Hw Hh Hlook. split; [|split].
  - destruct (decide (grade product ∈ GRADES)) as [|Hout]; [done|].
    by rewrite (GRADE_COLORS_keys _ Hout) in Hlook.
  - by rewrite palette_for_lookup, Hlook.
  - destruct (compose_ok env product width height colors Hw Hh)
      as (base & _ & Hrun).
    eexists. split; [|split; [exact Hrun|]].
    + by rewrite generate_product_image_compose, Hlook.
    + cbn [im_ops]. split; [reflexivity|].
      split; [apply artwork_head|apply artwork_last].
Qed.

Lemma known_grade_palette_witness :
  exists image,
    generate_product_image bare_machine
      {| slug := "cafe-blend-matcha"; name := "Cafe Blend Matcha"; grade := "Culinary" |}
      (800, 800) = Ok image /\
    head (im_ops image) = Some (Ellipse 200 150 600 550 (60, 110, 50)).
Proof.
  destruct (known_grade_palette bare_machine
              {| slug := "cafe-blend-matcha"; name := "Cafe Blend Matcha";
                 grade := "Culinary" |} 800 800
              {| primary := (100, 160, 90); secondary := (170, 210, 130);
                 accent := (60, 110, 50) |})
    as (_ & _ & image & Hrun & _ & _ & Hhead & _); [lia | lia | reflexivity |].
  exists image. split; [exact Hrun | exact Hhead].
Defined.

(** X16. The composer accepts the sizes of at least 1x1 and no other: it
    returns an image exactly when the width and the height are at least
    1, and raises [ValueError] exactly when one of them is below 1 (from
    [Image.new] when it is negative, from the border rectangle
    [(0, 0)-(width-1, height-1)] when it is 0); the handler around the
    font loading does not catch it. *)
Theorem size_checked (env : Env) (product : Product) (width height : Z) :
  (generate_product_image env product (width, height) = Raise ValueError
   <-> width < 1 \/ height < 1) /\
  ((exists image, generate_product_image env product (width, height) = Ok image)
   <-> 1 <= width /\ 1 <= height).
Proof.
  destruct (decide (1 <= width /\ 1 <= height)) as [[Hw Hh]|Hflat].
  - destruct (generate_product_image_ok env product width height Hw Hh)
      as (colors & base & _ & _ & _ & Hrun).
    rewrite Hrun. split; split; try lia; try discriminate.
    intros _. eexists. reflexivity.
  - assert (Hbad : width < 1 \/ height < 1) by lia.
    assert (Hrun : generate_product_image env product (width, height)
                   = Raise ValueError).
    { rewrite generate_product_image_compose. by apply compose_flat. }
    rewrite Hrun. split; split; try done.
    intros (image & Himage). discriminate.
Qed.

(** ** More on the image driver *)

(** X10. The only directories a run of the image driver creates are the
    output directory and its missing ancestors [/home], [/home/claude]
    and [/home/claude/matcha-setup]: no directory is ever created for a
    record, whatever its slug. *)
Theorem image_driver_directories (env : Env) (catalog : list Product)
    (w w' : World) :
  main_for env catalog w = Ok w' ->
  dirs w' = list_to_set [ "/home"; "/home/claude"; "/home/claude/matcha-setup";
                          "/home/claude/matcha-setup/images" ] ∪ dirs w.
Proof. by intros (images & base & _ & _ & ->)%main_for_inv. Qed.

Lemma image_driver_directories_witness :
  exists w',
    main bare_machine empty_world = Ok w' /\
    "/home/claude" ∈ dirs w' /\
    "/home/claude/matcha-setup/images/premium-ceremonial-uji" ∉ dirs w'.
Proof.
  destruct (main_for_ok bare_machine PRODUCTS empty_world products_simple
              (empty_world_ready _)) as (w' & Hrun).
  exists w'. split; [exact Hrun|].
  rewrite (image_driver_directories bare_machine PRODUCTS empty_world w' Hrun).
  cbn [empty_world dirs]. rewrite (right_id_L ∅ (∪)).
  rewrite !elem_of_list_to_set. split.
  - apply list_elem_of_lookup. by exists 1%nat.
  - apply (bool_decide_eq_false_1 _). vm_compute. reflexivity.
Defined.

Lemma outputs_member env catalog (images : list Image) i product image e :
  catalog !! i = Some product -> images !! i = Some image ->
  e ∈ outputs_of env product image ->
  e ∈ flat_map (uncurry (outputs_of env)) (zip catalog images).
Proof.
  revert i images. induction catalog as [|p catalog IH];
    intros i [|im images] Hp Him He; try done.
  cbn [zip_with flat_map]. apply elem_of_app.
  destruct i as [|i]; cbn [lookup list_lookup] in Hp, Him.
  - left. injection Hp as ->. injection Him as ->. exact He.
  - right. by eapply IH.
Qed.

(** X11. When a run over plain slugs goes through and the paths it
    writes are pairwise distinct, every record finds its own files after
    it: [<slug>.jpg] in the output directory holds the record's 800x800
    image at quality 90 and [<slug>-thumb.jpg] the thumbnail derived from
    it at quality 85, both as JPEG. *)
Theorem images_stored (env : Env) (catalog : list Product) (w w' : World) :
  Forall (fun product => simple_name (slug product) = true) catalog ->
  main_for env catalog w = Ok w' ->
  NoDup (written_paths catalog) ->
  exists images,
    Forall2 (fun product image =>
               generate_product_image env product (800, 800) = Ok image)
            catalog images /\
    forall i product image,
      catalog !! i = Some product -> images !! i = Some image ->
      files w' !! (OUTPUT_DIR +:+ "/" +:+ slug product +:+ ".jpg")
        = Some {| file_format := "JPEG"; file_quality := 90;
                  file_image := image |} /\
      files w' !! (OUTPUT_DIR +:+ "/" +:+ slug product +:+ "-thumb.jpg")
        = Some {| file_format := "JPEG"; file_quality := 85;
                  file_image :=
                    thumbnail (rasterise env) (copy image) (400, 400) |}.
Proof.
  intros Hs (images & base & Hall & _ & ->)%main_for_inv Hnd.
  exists images. split; [exact Hall|].
  intros i product image Hp Him. cbn [files].
  pose proof (Forall2_length _ _ _ Hall) as Hlen.
  assert (Hsimple : simple_name (slug product) = true).
  { rewrite Forall_forall in Hs. apply Hs. by eapply list_elem_of_lookup_2. }
  destruct (image_path (slug product) ".jpg" Hsimple eq_refl eq_refl)
    as [<- _].
  destruct (image_path (slug product) "-thumb.jpg" Hsimple eq_refl eq_refl)
    as [<- _].
  split; apply write_all_lookup_nodup;
    try (rewrite saved_paths by done; exact Hnd);
    apply elem_of_app; left;
    apply (outputs_member env catalog images i product image _ Hp Him);
    unfold outputs_of.
  - apply elem_of_cons. by left.
  - apply elem_of_cons. right. apply elem_of_cons. by left.
Qed.

Lemma images_stored_witness :
  exists w' image,
    main bare_machine empty_world = Ok w' /\
    files w' !! "/home/claude/matcha-setup/images/cafe-blend-matcha-thumb.jpg"
      = Some {| file_format := "JPEG"; file_quality := 85;
                file_image :=
                  thumbnail (rasterise bare_machine) (copy image) (400, 400) |}.
Proof.
  destruct (main_for_ok bare_machine PRODUCTS empty_world products_simple
              (empty_world_ready _)) as (w' & Hrun).
  destruct (images_stored bare_machine PRODUCTS empty_world w' products_simple
              Hrun products_paths_distinct)
    as (images & Hall & Hfiles).
  pose proof (Forall2_length _ _ _ Hall) as Hlen.
  destruct (lookup_lt_is_Some_2 images 7) as [image Him].
  { rewrite <- Hlen. simpl. lia. }
  exists w', image. split; [exact Hrun|].
  exact (proj2 (Hfiles 7%nat _ image eq_refl Him)).
Defined.

Section MissingDirectory.

Lemma append_assoc (a b c : string) : (a +:+ b) +:+ c = a +:+ b +:+ c.
Proof.
  induction a as [|x a IH]; [reflexivity|].
  change (String x ((a +:+ b) +:+ c) = String x (a +:+ b +:+ c)).
  by rewrite IH.
Qed.

Lemma all_slashes_app (a b : string) :
  all_slashes (a +:+ b) = all_slashes a && all_slashes b.
Proof. induction a as [|c a IH]; simpl; [done|]. by rewrite IH, andb_assoc. Qed.

Lemma rstrip_slashes_app (a b : string) :
  all_slashes b = false ->
  rstrip_slashes (a +:+ b) = a +:+ rstrip_slashes b.
Proof.
  intros Hb. induction a as [|c a IH]; [done|].
  change (String c a +:+ b) with (String c (a +:+ b)).
  cbn [rstrip_slashes all_slashes]. rewrite all_slashes_app, Hb, IH.
  by rewrite !andb_false_r.
Qed.

Lemma name_all_slashes (s rest : string) :
  name_chars s = true -> s <> "" -> all_slashes (s +:+ rest) = false.
Proof.
  destruct s as [|c s]; [done|]. simpl.
  intros [Hc _]%andb_prop _. by rewrite (name_char_not_slash c Hc).
Qed.

Lemma rstrip_name (s : string) :
  name_chars s = true -> rstrip_slashes (s +:+ "/") = s.
Proof.
  induction s as [|c s IH]; [done|]. intros Hs.
  pose proof (name_all_slashes (String c s) "/" Hs ltac:(done)) as Hall.
  apply andb_prop in Hs as [Hc Hs].
  change (String c s +:+ "/") with (String c (s +:+ "/")) in *.
  cbn [rstrip_slashes]. by rewrite Hall, IH.
Qed.

(** The directory of a file in a folder of the output directory. *)
Lemma dirname_nested (folder file : string) :
  simple_name folder = true -> folder <> "" -> has_slash file = false ->
  dirname (OUTPUT_DIR +:+ "/" +:+ folder +:+ "/" +:+ file)
  = OUTPUT_DIR +:+ "/" +:+ folder /\
  all_slashes (OUTPUT_DIR +:+ "/" +:+ folder) = false.
Proof.
  intros [Hf _]%andb_prop Hne Hfile.
  pose proof (name_all_slashes folder "/" Hf Hne) as Hall.
  assert (E : OUTPUT_DIR +:+ "/" +:+ folder +:+ "/" +:+ file
              = (OUTPUT_DIR +:+ "/" +:+ folder) +:+ "/" +:+ file).
  { reflexivity. }
  split; [|reflexivity].
  rewrite E. apply dirname_join; [reflexivity| |exact Hfile].
  assert (E2 : (OUTPUT_DIR +:+ "/" +:+ folder) +:+ "/"
               = (OUTPUT_DIR +:+ "/") +:+ (folder +:+ "/")).
  { reflexivity. }
  rewrite E2, rstrip_slashes_app by done. by rewrite rstrip_name.
Qed.

Lemma save_missing image path format quality w :
  path ∉ dirs w -> all_slashes (dirname path) = false ->
  dirname path ∉ dirs w -> dirname path ∉ dom (files w) ->
  save image path format quality w = Raise FileNotFoundError.
Proof.
  intros Hp Hroot Hd Hn. unfold save.
  by rewrite (create_missing _ _ _ Hp Hroot Hd Hn).
Qed.

End MissingDirectory.

(** X12. A slug that names a folder stops the run: the driver creates
    the output directory only, so for a first record whose slug is
    [<folder>/<file>], with no directory [<folder>] in the output
    directory, saving the image raises [FileNotFoundError] and the run
    ends there. *)
Theorem missing_folder_stops (env : Env) (first : Product)
    (rest : list Product) (w : World) (folder file : string) :
  slug first = folder +:+ "/" +:+ file ->
  simple_name folder = true -> folder <> "" -> simple_name file = true ->
  ready OUTPUT_DIR
    [ OUTPUT_DIR +:+ "/" +:+ folder;
      OUTPUT_DIR +:+ "/" +:+ folder +:+ "/" +:+ file +:+ ".jpg" ]
    (dirs w) (dom (files w)) ->
  OUTPUT_DIR +:+ "/" +:+ folder ∉ dom (files w) ->
  main_for env (first :: rest) w = Raise FileNotFoundError.
Proof.
  intros Eslug Hfolder Hne Hfile [Hfiles Hdirs] Hnofile.
  apply Forall_cons_1 in Hdirs as [Hd1 Hdirs].
  apply Forall_cons_1 in Hdirs as [Hd2 _].
  destruct (simple_name_file file ".jpg" Hfile eq_refl eq_refl) as [_ Hslash].
  destruct (dirname_nested folder (file +:+ ".jpg") Hfolder Hne Hslash)
    as [Hdir Hroot].
  assert (Epath : path_join OUTPUT_DIR (slug first +:+ ".jpg")
                  = OUTPUT_DIR +:+ "/" +:+ folder +:+ "/" +:+ file +:+ ".jpg").
  { rewrite Eslug. rewrite path_join_plain; [|reflexivity|].
    - by rewrite append_assoc.
    - destruct folder as [|c s]; [done|]. simpl.
      unfold simple_name in Hfolder. simpl in Hfolder.
      apply andb_prop in Hfolder as [[Hc _]%andb_prop _].
      by apply name_char_not_slash. }
  unfold main_for, makedirs.
  rewrite (mkdirs_ok _ _ _ output_dir_made Hfiles), !bind_Ok. cbv zeta.
  set (w1 := print _ _).
  set (path := OUTPUT_DIR +:+ "/" +:+ folder +:+ "/" +:+ file +:+ ".jpg") in *.
  assert (H1 : path ∉ dirs w1).
  { cbn [w1 print dirs].
    rewrite not_elem_of_union, elem_of_list_to_set. split; [|exact Hd2].
    apply (below_output_dir (folder +:+ "/" +:+ file +:+ ".jpg")). }
  assert (H2 : all_slashes (dirname path) = false) by (by rewrite Hdir).
  assert (H3 : dirname path ∉ dirs w1).
  { rewrite Hdir. cbn [w1 print dirs].
    rewrite not_elem_of_union, elem_of_list_to_set. split; [|exact Hd1].
    apply below_output_dir. }
  assert (H4 : dirname path ∉ dom (files w1)).
  { rewrite Hdir. exact Hnofile. }
  assert (Hstep : process env w1 first = Raise FileNotFoundError).
  { unfold process.
    destruct (generate_product_image_800 env first) as (image & Hrun & _).
    rewrite Hrun, bind_Ok. cbv zeta. rewrite Epath.
    rewrite (save_missing image path "JPEG" 90 w1 H1 H2 H3 H4).
    reflexivity. }
  cbn [for_each]. rewrite Hstep. reflexivity.
Qed.

Lemma missing_folder_stops_witness :
  main_for bare_machine [nested_record] empty_world = Raise FileNotFoundError.
Proof.
  apply (missing_folder_stops bare_machine nested_record [] empty_world
           "seasonal" "sakura");
    try reflexivity; try discriminate; try apply empty_world_ready.
Defined.

(** X13. The image driver reports each file it writes. Whenever a run
    goes through, it has handed to [print], after its heading, one
    string per file in catalog order ([<slug>.jpg], then
    [<slug>-thumb.jpg], for each record), the string for the placeholder,
    and a summary that starts with a line feed and counts [2N + 1]
    images: [2N + 3] calls in all. *)
Theorem image_driver_console (env : Env) (catalog : list Product)
    (w w' : World) :
  main_for env catalog w = Ok w' ->
  stdout w' =
    stdout w
    ++ ["Generating product images..."]
    ++ flat_map (fun product =>
          [ "  ✓ Created: " +:+ slug product +:+ ".jpg";
            "  ✓ Created: " +:+ slug product +:+ "-thumb.jpg" ]) catalog
    ++ [ "  ✓ Created: placeholder.jpg";
         String (ascii_of_nat 10) "✅ Generated "
         +:+ pretty (Z.of_nat (length catalog) * 2 + 1)
         +:+ " images in " +:+ OUTPUT_DIR ] /\
  length (stdout w') = (length (stdout w) + (2 * length catalog + 3))%nat.
Proof.
  intros (images & base & _ & _ & ->)%main_for_inv.
  cbn [stdout]. split; [reflexivity|].
  rewrite !length_app. cbn [length].
  assert (Hn : length (flat_map progress catalog) = (2 * length catalog)%nat).
  { clear. induction catalog as [|p catalog IH]; simpl; [done|].
    rewrite IH. lia. }
  rewrite Hn. lia.
Qed.

Lemma image_driver_console_witness :
  exists w',
    main bare_machine empty_world = Ok w' /\ length (stdout w') = 19%nat.
Proof.
  destruct (main_for_ok bare_machine PRODUCTS empty_world products_simple
              (empty_world_ready _)) as (w' & Hrun).
  exists w'. split; [exact Hrun|].
  by rewrite (proj2 (image_driver_console bare_machine PRODUCTS empty_world
                       w' Hrun)).
Defined.

Section Escapes.

Lemma path_join_slug (s ext : string) :
  starts_with_slash ext = false ->
  path_join OUTPUT_DIR (s +:+ ext)
  = if starts_with_slash s then s +:+ ext
    else OUTPUT_DIR +:+ "/" +:+ s +:+ ext.
Proof.
  intros Hext. unfold path_join. rewrite starts_with_slash_app by done.
  by destruct (starts_with_slash s).
Qed.

Lemma full_path_not_thumb (s : string) :
  path_join OUTPUT_DIR (s +:+ ".jpg")
  <> path_join OUTPUT_DIR (s +:+ "-thumb.jpg").
Proof.
  rewrite !path_join_slug by done.
  destruct (starts_with_slash s); intros H.
  - by apply string_app_inj in H.
  - do 2 apply string_app_inj in H. by apply string_app_inj in H.
Qed.

End Escapes.

(** X14. Where a record's files land, whenever its turn of the loop goes
    through: under the output directory, as [OUTPUT_DIR/<slug>.jpg] and
    [OUTPUT_DIR/<slug>-thumb.jpg], unless the slug starts with a slash;
    the driver checks nothing, and such a slug is used as an absolute
    path, outside the output directory. The two files of a record never
    share a path. *)
Theorem record_files_location (env : Env) (w w' : World) (product : Product) :
  process env w product = Ok w' ->
  exists image,
    generate_product_image env product (800, 800) = Ok image /\
    let stem :=
      if starts_with_slash (slug product) then slug product
      else OUTPUT_DIR +:+ "/" +:+ slug product in
    stem +:+ ".jpg" <> stem +:+ "-thumb.jpg" /\
    files w' !! (stem +:+ ".jpg")
      = Some {| file_format := "JPEG"; file_quality := 90;
                file_image := image |} /\
    files w' !! (stem +:+ "-thumb.jpg")
      = Some {| file_format := "JPEG"; file_quality := 85;
                file_image :=
                  thumbnail (rasterise env) (copy image) (400, 400) |}.
Proof.
  intros (image & Hrun & ->)%process_inv.
  exists image. split; [exact Hrun|].
  cbv zeta. cbn [files]. unfold outputs_of, write_all, jpeg, thumbnail_of.
  cbn [foldl fst snd].
  pose proof (full_path_not_thumb (slug product)) as Hne.
  pose proof (path_join_slug (slug product) ".jpg" eq_refl) as Hfull.
  pose proof (path_join_slug (slug product) "-thumb.jpg" eq_refl) as Hthumb.
  assert (Estem : forall ext,
            (if starts_with_slash (slug product) then slug product +:+ ext
             else OUTPUT_DIR +:+ "/" +:+ slug product +:+ ext)
            = (if starts_with_slash (slug product) then slug product
               else OUTPUT_DIR +:+ "/" +:+ slug product) +:+ ext).
  { intros ext. destruct (starts_with_slash (slug product)); [done|].
    unfold OUTPUT_DIR. simpl. reflexivity. }
  rewrite Estem in Hfull, Hthumb. rewrite Hfull, Hthumb in *.
  split; [exact Hne|]. split.
  - rewrite lookup_insert_ne by (intros E; by apply Hne).
    by rewrite lookup_insert_eq.
  - by rewrite lookup_insert_eq.
Qed.

Lemma record_files_location_witness :
  exists w' image,
    process bare_machine {| dirs := {["/tmp"]}; files := ∅; stdout := [] |}
      {| slug := "/tmp/leak"; name := "Leak"; grade := "Premium" |} = Ok w' /\
    files w' !! "/tmp/leak.jpg"
    = Some {| file_format := "JPEG"; file_quality := 90;
              file_image := image |}.
Proof.
  destruct (generate_product_image_800 bare_machine
              {| slug := "/tmp/leak"; name := "Leak"; grade := "Premium" |})
    as (image & Hrun & _).
  assert (Hstep : exists w',
            process bare_machine
              {| dirs := {["/tmp"]}; files := ∅; stdout := [] |}
              {| slug := "/tmp/leak"; name := "Leak"; grade := "Premium" |}
            = Ok w').
  { unfold process. rewrite Hrun, bind_Ok. cbv zeta.
    rewrite save_ok, bind_Ok.
    - rewrite save_ok, bind_Ok; [eexists; reflexivity|..];
        cbn [print dirs]; rewrite ?elem_of_singleton; [discriminate|reflexivity].
    - cbn [dirs]. rewrite elem_of_singleton. discriminate.
    - cbn [dirs]. rewrite elem_of_singleton. reflexivity. }
  destruct Hstep as (w' & Hstep).
  destruct (record_files_location bare_machine _ w' _ Hstep)
    as (image' & _ & _ & Hfull & _).
  exists w', image'. split; [exact Hstep|exact Hfull].
Defined.

Lemma placeholder_pixel (x y : Z) :
  0 <= x < 800 -> 0 <= y < 800 ->
  exists v,
    ink (gradient_pixel "diagonal" 800 800 (200, 200, 200) (150, 150, 150) x y)
    = (v, v, v) /\ 149 <= v <= 200 /\ (x = 0 -> y = 0 -> v = 200).
Proof.
  intros Hx Hy.
  change "diagonal" with (direction_name Diagonal).
  rewrite ink_rgb
    by (apply (gradient_pixel_rgb Diagonal); unfold is_rgb; cbn [fst snd]; lia).
  unfold gradient_pixel. cbv zeta.
  rewrite gradient_ratio_direction. cbn [fst snd].
  eexists. split; [reflexivity|]. split.
  - destruct (gradient_ratio_unit Diagonal 800 800 x y) as (tau & Ht & ->);
      try lia.
    pose proof (blend_channel_between 200 150 tau) as Hb.
    unfold between in Hb. apply Hb; [lia | lia | exact Ht].
  - intros -> ->. unfold interpolation_parameter.
    change (0 + 0) with 0. rewrite int_truediv_zero.
    apply blend_channel_zero; lia.
Qed.

(** X15. The placeholder is the last file written. Whenever a run goes
    through, whatever the catalog holds (a record whose slug is
    [placeholder] included), [placeholder.jpg] in the output directory is
    an 800x800 JPEG of quality 85: the caption [Image Coming Soon], the
    one thing drawn, at row 380 in colour (100, 100, 100), over a grey
    gradient whose channels run from 200 at the top left corner down to
    no less than 149. The pixels of the file are what Pillow's rasteriser
    makes of that gradient and that caption. *)
Theorem placeholder_written (env : Env) (catalog : list Product)
    (w w' : World) :
  main_for env catalog w = Ok w' ->
  exists base placeholder,
    create_gradient 800 800 (200, 200, 200) (150, 150, 150) "diagonal"
      = Ok base /\
    files w' !! "/home/claude/matcha-setup/images/placeholder.jpg"
      = Some {| file_format := "JPEG"; file_quality := 85;
                file_image := placeholder |} /\
    im_width placeholder = 800 /\ im_height placeholder = 800 /\
    (exists x font,
       im_ops placeholder
       = [Text x 380 "Image Coming Soon" font (100, 100, 100) None] /\
       im_px placeholder
       = rasterise env
           (Text x 380 "Image Coming Soon" font (100, 100, 100) None)
           (im_px base)) /\
    getpixel base 0 0 = Some (200, 200, 200) /\
    forall x y, 0 <= x < 800 -> 0 <= y < 800 ->
      exists v, getpixel base x y = Some (v, v, v) /\ 149 <= v <= 200.
Proof.
  intros (images & base & _ & Hbase & ->)%main_for_inv.
  destruct (create_gradient_ok 800 800 (200, 200, 200) (150, 150, 150) "diagonal")
    as (base' & Hbase' & _ & Ew & Eh & Eo & Hpx); [lia..|].
  rewrite Hbase in Hbase'. apply Ok_inj in Hbase'. subst base'.
  exists base, (placeholder_image env base). split; [exact Hbase|].
  cbn [files]. split; [apply (write_all_lookup_last _ _ placeholder_path)|].
  unfold placeholder_image, drawn. cbn [im_width im_height im_ops im_px].
  split; [exact Ew|]. split; [exact Eh|].
  split. { rewrite Eo. eexists _, _. split; reflexivity. }
  split.
  - rewrite (Hpx 0 0) by lia.
    destruct (placeholder_pixel 0 0) as (v & -> & _ & Hv); [lia..|].
    by rewrite Hv.
  - intros x y Hx Hy. rewrite (Hpx x y Hx Hy).
    destruct (placeholder_pixel x y Hx Hy) as (v & -> & Hv & _).
    exists v. split; [reflexivity | exact Hv].
Qed.

Lemma placeholder_written_witness :
  exists w' placeholder,
    main bare_machine empty_world = Ok w' /\
    files w' !! "/home/claude/matcha-setup/images/placeholder.jpg"
      = Some {| file_format := "JPEG"; file_quality := 85;
                file_image := placeholder |} /\
    im_width placeholder = 800.
Proof.
  destruct (main_for_ok bare_machine PRODUCTS empty_world products_simple
              (empty_world_ready _)) as (w' & Hrun).
  destruct (placeholder_written bare_machine PRODUCTS empty_world w' Hrun)
    as (base & placeholder & _ & Hfile & Hwidth & _).
  exists w', placeholder.
  split; [exact Hrun|]. split; [exact Hfile|exact Hwidth].
Defined.

(** ** More on the specification sheet *)

(** X17. The outline of a sheet: the section titles are, in this order,
    product overview, sensory profile, nutritional information, storage
    and shelf life, then certifications if the record has any, recommended
    uses and ordering information; the sheet has 27 blocks with the
    certifications and 24 without. *)
Theorem sheet_outline (today : string) (product : GeneratePdfs.Product) :
  let sheet := GeneratePdfs.story today product in
  let certified := bool_decide (GeneratePdfs.certifications product <> []) in
  headers sheet
  = [ "PRODUCT OVERVIEW"; "SENSORY PROFILE";
      "NUTRITIONAL INFORMATION (per gram)"; "STORAGE & SHELF LIFE" ]
    ++ (if certified then ["CERTIFICATIONS"] else [])
    ++ [ "RECOMMENDED USES"; "ORDERING INFORMATION" ] /\
  length sheet = if certified then 27%nat else 24%nat.
Proof.
  cbv zeta. unfold GeneratePdfs.story.
  destruct (GeneratePdfs.certifications product) as [|c certs].
  - rewrite bool_decide_false by (intros H; by apply H). split; reflexivity.
  - rewrite bool_decide_true by done. split; reflexivity.
Qed.

(** X18. The date reaches the sheet in one place only: two sheets of the
    same record made on different days share every block but the
    [Document generated] line, the last but one. *)
Theorem date_only_in_footer (today1 today2 : string)
    (product : GeneratePdfs.Product) :
  exists body,
    GeneratePdfs.story today1 product = body ++ footer today1 /\
    GeneratePdfs.story today2 product = body ++ footer today2.
Proof.
  unfold GeneratePdfs.story, footer. cbv zeta.
  match goal with
  | |- exists body, ?A ++ ?C ++ [?b1; ?b2; ?b3; ?b4; ?b5; ?b6; _; _] = _ /\ _ =>
      exists (A ++ C ++ [b1; b2; b3; b4; b5; b6])
  end.
  split; rewrite <- !app_assoc; reflexivity.
Qed.

(** X19. Every table of a sheet is rectangular: each of its rows has
    exactly one cell per column width handed to [Table], for every record
    (three columns in the title and nutrition tables, two in the others). *)
Theorem tables_rectangular (today : string) (product : GeneratePdfs.Product) :
  Forall rectangular (GeneratePdfs.story today product).
Proof.
  unfold GeneratePdfs.story. cbv zeta.
  assert (Hrows : forall rows cols,
            length cols = 2%nat ->
            rectangular (GeneratePdfs.Table (GeneratePdfs.label_rows rows) cols)).
  { intros rows cols Hc. unfold rectangular, GeneratePdfs.label_rows.
    apply Forall_fmap, Forall_forall. intros [label value] _. by rewrite Hc. }
  assert (Hlit : forall data cols,
            forallb (fun row => Nat.eqb (length row) (length cols)) data = true ->
            rectangular (GeneratePdfs.Table data cols)).
  { intros data cols H. unfold rectangular. apply Forall_forall.
    intros row Hrow. rewrite forallb_forall in H.
    apply Nat.eqb_eq, H. by apply list_elem_of_In. }
  rewrite !Forall_app. split; [|split].
  - repeat (apply Forall_cons_2;
            [first [ exact I | apply Hrows; reflexivity
                   | apply Hlit; reflexivity ] |]).
    apply Forall_nil_2.
  - destruct (GeneratePdfs.certifications product);
      repeat (apply Forall_cons_2; [exact I|]); apply Forall_nil_2.
  - repeat (apply Forall_cons_2;
            [first [ exact I | apply Hrows; reflexivity ] |]).
    apply Forall_nil_2.
Qed.

(** ** More on the document driver *)

(** X20. When a run over plain slugs goes through and the sheet paths of
    the catalog are pairwise distinct, every record finds its own sheet
    after it: the file [<slug>-spec.pdf] in the output directory holds
    the story built from that record on that day. *)
Theorem sheets_stored (today : string) (lib : GeneratePdfs.ReportLab)
    (catalog : list GeneratePdfs.Product) (w w' : GeneratePdfs.World)
    (product : GeneratePdfs.Product) :
  Forall (fun product => simple_name (GeneratePdfs.slug product) = true)
         catalog ->
  GeneratePdfs.main_for today lib catalog w = Ok w' ->
  NoDup (spec_path <$> (GeneratePdfs.slug <$> catalog)) ->
  product ∈ catalog ->
  GeneratePdfs.files w'
    !! (GeneratePdfs.OUTPUT_DIR +:+ "/" +:+ GeneratePdfs.slug product
        +:+ "-spec.pdf")
  = Some (GeneratePdfs.story today product).
Proof.
  intros Hs (_ & ->)%pdf_main_inv Hnd Hin. cbn [GeneratePdfs.files].
  assert (Hsimple : simple_name (GeneratePdfs.slug product) = true).
  { rewrite Forall_forall in Hs. by apply Hs. }
  destruct (spec_path_plain _ Hsimple) as [<- _].
  apply write_all_lookup_nodup; [by rewrite sheets_paths|].
  unfold sheets.
  apply (list_elem_of_fmap_2
           (fun p => (spec_path (GeneratePdfs.slug p),
                      GeneratePdfs.story today p)) _ _ Hin).
Qed.

Lemma sheets_stored_witness :
  exists w' product,
    GeneratePdfs.PRODUCTS !! 7%nat = Some product /\
    GeneratePdfs.main "2024-01-01" office empty_shelf = Ok w' /\
    GeneratePdfs.files w'
      !! (GeneratePdfs.OUTPUT_DIR +:+ "/" +:+ GeneratePdfs.slug product
          +:+ "-spec.pdf")
    = Some (GeneratePdfs.story "2024-01-01" product).
Proof.
  destruct (pdf_main_ok "2024-01-01" office GeneratePdfs.PRODUCTS empty_shelf
              sheets_simple sheets_printable (empty_shelf_ready _))
    as (w' & Hrun).
  destruct (lookup_lt_is_Some_2 GeneratePdfs.PRODUCTS 7) as [product Hp].
  { simpl. lia. }
  exists w', product. split; [exact Hp|]. split; [exact Hrun|].
  apply (sheets_stored "2024-01-01" office GeneratePdfs.PRODUCTS empty_shelf
           w' product sheets_simple Hrun sheets_distinct).
  eapply list_elem_of_lookup_2. exact Hp.
Defined.

(** X21. The only directories a run of the document driver creates are
    the output directory and its missing ancestors [/home],
    [/home/claude] and [/home/claude/matcha-setup]: no directory is ever
    created for a record, whatever its slug. *)
Theorem sheet_driver_directories (today : string) (lib : GeneratePdfs.ReportLab)
    (catalog : list GeneratePdfs.Product) (w w' : GeneratePdfs.World) :
  GeneratePdfs.main_for today lib catalog w = Ok w' ->
  GeneratePdfs.dirs w'
  = list_to_set [ "/home"; "/home/claude"; "/home/claude/matcha-setup";
                  "/home/claude/matcha-setup/docs" ] ∪ GeneratePdfs.dirs w.
Proof. by intros (_ & ->)%pdf_main_inv. Qed.

Lemma sheet_driver_directories_witness :
  exists w',
    GeneratePdfs.main "2024-01-01" office empty_shelf = Ok w' /\
    "/home/claude/matcha-setup" ∈ GeneratePdfs.dirs w' /\
    "/home/claude/matcha-setup/docs/premium-ceremonial-uji"
      ∉ GeneratePdfs.dirs w'.
Proof.
  destruct (pdf_main_ok "2024-01-01" office GeneratePdfs.PRODUCTS empty_shelf
              sheets_simple sheets_printable (empty_shelf_ready _))
    as (w' & Hrun).
  exists w'. split; [exact Hrun|].
  rewrite (sheet_driver_directories "2024-01-01" office GeneratePdfs.PRODUCTS
             empty_shelf w' Hrun).
  cbn [empty_shelf GeneratePdfs.dirs]. rewrite (right_id_L ∅ (∪)).
  rewrite !elem_of_list_to_set. split.
  - apply list_elem_of_lookup. by exists 2%nat.
  - apply (bool_decide_eq_false_1 _). vm_compute. reflexivity.
Defined.

(** X22. A later record replaces an earlier one of the same path:
    whenever a run goes through, the sheet stored for the last record of
    the catalog is its own, whatever slugs came before it. *)
Theorem last_sheet_wins (today : string) (lib : GeneratePdfs.ReportLab)
    (catalog : list GeneratePdfs.Product) (product : GeneratePdfs.Product)
    (w w' : GeneratePdfs.World) :
  GeneratePdfs.main_for today lib (catalog ++ [product]) w = Ok w' ->
  GeneratePdfs.files w'
    !! path_join GeneratePdfs.OUTPUT_DIR
         (GeneratePdfs.slug product +:+ "-spec.pdf")
  = Some (GeneratePdfs.story today product).
Proof.
  intros (_ & ->)%pdf_main_inv. cbn [GeneratePdfs.files].
  unfold sheets. rewrite fmap_app. cbn [fmap list_fmap].
  apply (write_all_lookup_last _ _ (spec_path (GeneratePdfs.slug product))).
Qed.

Lemma last_sheet_wins_witness :
  exists w',
    GeneratePdfs.main_for "2024-01-01" office
      (GeneratePdfs.PRODUCTS ++ [classic_usucha_blend]) empty_shelf = Ok w' /\
    GeneratePdfs.files w'
      !! path_join GeneratePdfs.OUTPUT_DIR
           (GeneratePdfs.slug classic_usucha_blend +:+ "-spec.pdf")
    = Some (GeneratePdfs.story "2024-01-01" classic_usucha_blend).
Proof.
  destruct (pdf_main_ok "2024-01-01" office
              (GeneratePdfs.PRODUCTS ++ [classic_usucha_blend]) empty_shelf)
    as (w' & Hrun).
  - apply Forall_app. split; [exact sheets_simple|].
    apply Forall_cons_2; [reflexivity|apply Forall_nil_2].
  - apply Forall_app. split; [exact sheets_printable|].
    apply Forall_cons_2; [exact classic_printable|apply Forall_nil_2].
  - apply empty_shelf_ready.
  - exists w'. split; [exact Hrun|].
    exact (last_sheet_wins "2024-01-01" office GeneratePdfs.PRODUCTS
             classic_usucha_blend empty_shelf w' Hrun).
Defined.

(** X23. The document driver reports each sheet it writes. Whenever a
    run goes through, it has handed to [print], after its heading, one
    string per record in catalog order, naming [<slug>-spec.pdf], and a
    summary that starts with a line feed and counts the records:
    [N + 2] calls in all. *)
Theorem sheet_driver_console (today : string) (lib : GeneratePdfs.ReportLab)
    (catalog : list GeneratePdfs.Product) (w w' : GeneratePdfs.World) :
  GeneratePdfs.main_for today lib catalog w = Ok w' ->
  GeneratePdfs.stdout w'
  = GeneratePdfs.stdout w
    ++ ["Generating PDF specification sheets..."]
    ++ ((fun product =>
           "  ‚úì Created: " +:+ GeneratePdfs.slug product +:+ "-spec.pdf")
        <$> catalog)
    ++ [ String (ascii_of_nat 10) "‚úÖ Generated "
         +:+ pretty (Z.of_nat (length catalog))
         +:+ " PDF specification sheets in " +:+ GeneratePdfs.OUTPUT_DIR ] /\
  length (GeneratePdfs.stdout w')
  = (length (GeneratePdfs.stdout w) + (length catalog + 2))%nat.
Proof.
  intros (_ & ->)%pdf_main_inv. cbn [GeneratePdfs.stdout].
  split; [reflexivity|].
  rewrite !length_app, length_fmap. cbn [length]. lia.
Qed.

Lemma sheet_driver_console_witness :
  exists w',
    GeneratePdfs.main "2024-01-01" office empty_shelf = Ok w' /\
    length (GeneratePdfs.stdout w') = 10%nat.
Proof.
  destruct (pdf_main_ok "2024-01-01" office GeneratePdfs.PRODUCTS empty_shelf
              sheets_simple sheets_printable (empty_shelf_ready _))
    as (w' & Hrun).
  exists w'. split; [exact Hrun|].
  by rewrite (proj2 (sheet_driver_console "2024-01-01" office
                       GeneratePdfs.PRODUCTS empty_shelf w' Hrun)).
Defined.

Lemma pdf_process_unparsed today lib (w : GeneratePdfs.World) product :
  forallb (GeneratePdfs.parses lib)
    (GeneratePdfs.markup (GeneratePdfs.story today product)) = false ->
  GeneratePdfs.process today lib w product = Raise ValueError.
Proof.
  intros Hbad. unfold GeneratePdfs.process. cbv zeta.
  by rewrite (create_spec_sheet_unparsed today lib product _ _ Hbad).
Qed.

(** X24. A text that ReportLab does not parse stops the run. The texts
    of a record (name, grade, region and the others) are handed to
    [Paragraph] as markup: when one of the first record does not parse,
    [create_spec_sheet] raises [ValueError] before anything is written,
    and the run ends there; so a run that goes through had only texts
    that parse. *)
Theorem unparsed_text_stops (today : string) (lib : GeneratePdfs.ReportLab) :
  (forall (first : GeneratePdfs.Product) (rest : list GeneratePdfs.Product)
          (w : GeneratePdfs.World),
     Forall (fun d => d ∉ dom (GeneratePdfs.files w))
            (ancestry GeneratePdfs.OUTPUT_DIR) ->
     forallb (GeneratePdfs.parses lib)
       (GeneratePdfs.markup (GeneratePdfs.story today first)) = false ->
     GeneratePdfs.main_for today lib (first :: rest) w = Raise ValueError) /\
  (forall (catalog : list GeneratePdfs.Product) (w w' : GeneratePdfs.World),
     GeneratePdfs.main_for today lib catalog w = Ok w' ->
     Forall (fun product =>
               forallb (GeneratePdfs.parses lib)
                 (GeneratePdfs.markup (GeneratePdfs.story today product))
               = true) catalog).
Proof.
  split.
  - intros first rest w Hfiles Hbad.
    unfold GeneratePdfs.main_for, GeneratePdfs.makedirs.
    rewrite (mkdirs_ok _ _ _ docs_made Hfiles), !bind_Ok. cbv zeta.
    cbn [for_each]. by rewrite (pdf_process_unparsed today lib _ first Hbad).
  - intros catalog w w' (Hprint & _)%pdf_main_inv.
    eapply Forall_impl; [exact Hprint|]. by intros product [H _].
Qed.

Lemma unparsed_text_stops_witness :
  GeneratePdfs.main_for "2024-01-01" office [unclosed_record] empty_shelf
  = Raise ValueError.
Proof.
  apply (proj1 (unparsed_text_stops "2024-01-01" office)).
  - apply (empty_shelf_ready []).
  - vm_compute. reflexivity.
Defined.
